(** * An explicit-free-list allocator (mm.c): model and verification

    The allocator of [mm.c] manages one growable byte region.  Every block
    carries a 4-byte header and a 4-byte footer holding [size | alloc]; a free
    block stores two 4-byte offsets (relative to [heap_listp]) in the first
    eight bytes of its payload, which thread a doubly linked LIFO free list
    whose end marker is [heap_listp] itself.

    The model is a shallow embedding: the globals [heap_listp] and
    [first_free], the break of the memory library and the raw bytes form a
    record that every function takes and returns.  Addresses, sizes and words
    are integers ([Z]); the wrap-around of [unsigned int] and of
    [size_t]/[unsigned long] is written out with [wrap32] and [wrap64].  A
    4-byte access is assembled from bytes in little-endian order, the byte
    order of the x86-64 machines the allocator was written for. *)

From Stdlib Require Import ZArith List Lia Bool Permutation.
Import ListNotations.
Local Open Scope Z_scope.

(** * Part I: the program *)

(** ** Machine integers *)

(** [unsigned int] arithmetic. *)
Definition wrap32 (x : Z) : Z := x mod 2 ^ 32.

(** [size_t] and [unsigned long] arithmetic. *)
Definition wrap64 (x : Z) : Z := x mod 2 ^ 64.

(** A C truth value. *)
Definition nz (x : Z) : bool := negb (x =? 0).

(** ** Constants of mm.c *)

Definition WSIZE : Z := 4.
Definition DSIZE : Z := 8.
Definition CHUNKSIZE : Z := Z.shiftl 1 9.
Definition MINBLKSIZE : Z := 2 * DSIZE.

(** [MAX(x, y) ((x) > (y)? (x) : (y))] *)
Definition MAX (x y : Z) : Z := if y <? x then x else y.

(** [PACK(size, alloc) ((size) | (alloc))] *)
Definition PACK (size alloc : Z) : Z := Z.lor size alloc.

(** The null pointer and the failure value [(void * )-1] of [mem_sbrk]. *)
Definition NULL : Z := 0.
Definition SBRK_FAILED : Z := wrap64 (-1).

(** ** Byte memory *)

Definition memory : Type := Z -> Z.

Definition load8 (m : memory) (p : Z) : Z := m p mod 256.

Definition store8 (m : memory) (p v : Z) : memory :=
  fun q => if q =? p then v mod 256 else m q.

(** [*(unsigned int * )p], little endian. *)
Definition load32 (m : memory) (p : Z) : Z :=
  load8 m p + 2 ^ 8 * load8 m (p + 1) + 2 ^ 16 * load8 m (p + 2)
  + 2 ^ 24 * load8 m (p + 3).

(** [*(unsigned int * )p = v]: the four low bytes of [v] are stored, which is
    the conversion of [v] to [unsigned int]. *)
Definition store32 (m : memory) (p v : Z) : memory :=
  store8 (store8 (store8 (store8 m p v) (p + 1) (v / 2 ^ 8))
                 (p + 2) (v / 2 ^ 16)) (p + 3) (v / 2 ^ 24).

(** ** The allocator's state

    [mem_brk] and [mem_max_addr] belong to the memory library (memlib.c, not
    part of the sources); [heap_listp] and [first_free] are the two static
    variables of mm.c, both zero when the program starts. *)

Record state : Type := mkState {
  mem : memory;
  mem_brk : Z;
  mem_max_addr : Z;
  heap_listp : Z;
  first_free : Z
}.

Definition set_mem (s : state) (m : memory) : state :=
  mkState m (mem_brk s) (mem_max_addr s) (heap_listp s) (first_free s).

Definition set_brk (s : state) (b : Z) : state :=
  mkState (mem s) b (mem_max_addr s) (heap_listp s) (first_free s).

Definition set_heap_listp (s : state) (p : Z) : state :=
  mkState (mem s) (mem_brk s) (mem_max_addr s) p (first_free s).

Definition set_first_free (s : state) (p : Z) : state :=
  mkState (mem s) (mem_brk s) (mem_max_addr s) (heap_listp s) p.

(** Modelled from the spec: the host's growth primitive [mem_sbrk] is not in
    the sources.  The spec gives it as "extend the heap region by N bytes,
    returning the previous end address (the start of the newly available
    region) or a failure sentinel if the host cannot grow it further"; the
    region cannot grow past [mem_max_addr], and a failed call changes
    nothing. *)
Definition mem_sbrk (s : state) (incr : Z) : state * Z :=
  if (0 <=? incr) && (mem_brk s + incr <=? mem_max_addr s)
  then (set_brk s (mem_brk s + incr), mem_brk s)
  else (s, SBRK_FAILED).

(** ** The macros of mm.c *)

(** [GET(p)] and [PUT(p, val)] *)
Definition GET (s : state) (p : Z) : Z := load32 (mem s) p.
Definition PUT (s : state) (p val : Z) : state := set_mem s (store32 (mem s) p val).

(** [GET_SIZE(p) (GET(p) & ~0x7)]: the [int] mask [~0x7] is converted to
    [unsigned int] before the conjunction. *)
Definition GET_SIZE (s : state) (p : Z) : Z := Z.land (GET s p) (wrap32 (Z.lnot 7)).

(** [GET_ALLOC(p) (GET(p) & 0x1)] *)
Definition GET_ALLOC (s : state) (p : Z) : Z := Z.land (GET s p) 1.

Definition HDRP (bp : Z) : Z := bp - WSIZE.
Definition FTRP (s : state) (bp : Z) : Z := bp + GET_SIZE s (HDRP bp) - DSIZE.

(** [COMP_ADDRESS(offset)]: [(unsigned long)heap_listp + (unsigned long)offset] *)
Definition COMP_ADDRESS (s : state) (offset : Z) : Z := wrap64 (heap_listp s + offset).

(** [(unsigned int)COMP_OFFSET(val)] as it expands inside [SET_PRED] and
    [SET_SUCC]: the macro body is not parenthesised, so the cast applies to
    [val] alone and the difference is taken in [unsigned long]. *)
Definition COMP_OFFSET (s : state) (val : Z) : Z := wrap64 (wrap32 val - heap_listp s).

Definition GET_PRED (s : state) (bp : Z) : Z := COMP_ADDRESS s (GET s bp).
Definition GET_SUCC (s : state) (bp : Z) : Z := COMP_ADDRESS s (GET s (bp + WSIZE)).
Definition SET_PRED (s : state) (bp val : Z) : state := PUT s bp (COMP_OFFSET s val).
Definition SET_SUCC (s : state) (bp val : Z) : state := PUT s (bp + WSIZE) (COMP_OFFSET s val).

Definition NEXT_BLKP (s : state) (bp : Z) : Z := bp + GET_SIZE s (bp - WSIZE).
Definition PREV_BLKP (s : state) (bp : Z) : Z := bp - GET_SIZE s (bp - DSIZE).

(** ** The free list and the coalescing engine *)

(** [freelist_add]: push [bp] on the front of the free list. *)
Definition freelist_add (s : state) (bp : Z) : state :=
  let s := SET_PRED s bp (heap_listp s) in
  let s := SET_SUCC s bp (first_free s) in
  let s := if first_free s =? heap_listp s then s
           else SET_PRED s (first_free s) bp in
  set_first_free s bp.

(** [are_adjacent(bp, case3)] *)
Definition are_adjacent (s : state) (bp : Z) (case3 : bool) : state :=
  if case3 then
    let next := GET_SUCC s bp in
    let s := SET_PRED s next (heap_listp s) in
    set_first_free s next
  else
    let new_succ := GET_SUCC s (GET_SUCC s bp) in
    let s := SET_SUCC s bp new_succ in
    if new_succ =? heap_listp s then s else SET_PRED s new_succ bp.

(** [not_adjacent(bp, case3)] *)
Definition not_adjacent (s : state) (bp : Z) (case3 : bool) : state :=
  if case3 then
    let prev := PREV_BLKP s bp in
    let s := SET_SUCC s (GET_PRED s prev) (GET_SUCC s prev) in
    let s := if GET_SUCC s prev =? heap_listp s then s
             else SET_PRED s (GET_SUCC s prev) (GET_PRED s prev) in
    let s := SET_PRED s prev (heap_listp s) in
    let s := SET_SUCC s prev (GET_SUCC s bp) in
    let s := set_first_free s prev in
    SET_PRED s (GET_SUCC s bp) (first_free s)
  else
    let next := NEXT_BLKP s bp in
    let pred := GET_PRED s next in
    let succ := GET_SUCC s next in
    let s := SET_SUCC s pred succ in
    if succ =? heap_listp s then s else SET_PRED s succ pred.

(** The list surgery of one coalescing direction: the adjacency test of
    [coalesce] followed by the relink it selects. *)
Definition relink (s : state) (bp : Z) (case3 : bool) : state :=
  let neighbour := if case3 then PREV_BLKP s bp else NEXT_BLKP s bp in
  if GET_SUCC s bp =? neighbour then are_adjacent s bp case3
  else not_adjacent s bp case3.

(** [coalesce(bp)]: boundary-tag coalescing; returns the merged block. *)
Definition coalesce (s : state) (bp : Z) : state * Z :=
  let prev_alloc := GET_ALLOC s (FTRP s (PREV_BLKP s bp)) in
  let next_alloc := GET_ALLOC s (HDRP (NEXT_BLKP s bp)) in
  let size := GET_SIZE s (HDRP bp) in
  if nz prev_alloc && nz next_alloc then (s, bp)
  else if nz prev_alloc && negb (nz next_alloc) then
    let s := relink s bp false in
    let size := wrap64 (size + GET_SIZE s (HDRP (NEXT_BLKP s bp))) in
    let s := PUT s (HDRP bp) (PACK size 0) in
    let s := PUT s (FTRP s bp) (PACK size 0) in
    (s, bp)
  else if negb (nz prev_alloc) && nz next_alloc then
    let s := relink s bp true in
    let size := wrap64 (size + GET_SIZE s (HDRP (PREV_BLKP s bp))) in
    let s := PUT s (FTRP s bp) (PACK size 0) in
    let s := PUT s (HDRP (PREV_BLKP s bp)) (PACK size 0) in
    (s, PREV_BLKP s bp)
  else
    let s := relink s bp false in
    let s := relink s bp true in
    let size := wrap64 (size + wrap32 (GET_SIZE s (HDRP (PREV_BLKP s bp))
                                       + GET_SIZE s (FTRP s (NEXT_BLKP s bp)))) in
    let s := PUT s (HDRP (PREV_BLKP s bp)) (PACK size 0) in
    let s := PUT s (FTRP s (NEXT_BLKP s bp)) (PACK size 0) in
    (s, PREV_BLKP s bp).

(** [extend_heap(words)]: grow the heap by a free block; [NULL] when the
    growth primitive fails. *)
Definition extend_heap (s : state) (words : Z) : state * Z :=
  let size := if nz (words mod 2) then wrap64 ((words + 1) * WSIZE)
              else wrap64 (words * WSIZE) in
  let '(s, bp) := mem_sbrk s size in
  if bp =? SBRK_FAILED then (s, NULL)
  else
    let s := PUT s (HDRP bp) (PACK size 0) in
    let s := PUT s (FTRP s bp) (PACK size 0) in
    let s := PUT s (HDRP (NEXT_BLKP s bp)) (PACK 0 1) in
    let s := freelist_add s bp in
    coalesce s bp.

(** [mm_init]: returns [-1] on error and [0] on success. *)
Definition mm_init (s : state) : state * Z :=
  let '(s, p) := mem_sbrk s (4 * WSIZE) in
  let s := set_heap_listp s p in
  if p =? SBRK_FAILED then (s, -1)
  else
    let s := PUT s (heap_listp s) 0 in
    let s := PUT s (heap_listp s + 1 * WSIZE) (PACK DSIZE 1) in
    let s := PUT s (heap_listp s + 2 * WSIZE) (PACK DSIZE 1) in
    let s := PUT s (heap_listp s + 3 * WSIZE) (PACK 0 1) in
    let s := set_heap_listp s (heap_listp s + 2 * WSIZE) in
    let s := set_first_free s (heap_listp s) in
    let '(s, bp) := extend_heap s (CHUNKSIZE / WSIZE) in
    if bp =? NULL then (s, -1) else (s, 0).

(** ** Placement and search *)

(** [place(bp, asize)] *)
Definition place (s : state) (bp asize : Z) : state :=
  let csize := GET_SIZE s (HDRP bp) in
  let pred := GET_PRED s bp in
  let succ := GET_SUCC s bp in
  if 3 * DSIZE <=? wrap64 (csize - asize) then
    let s := PUT s (HDRP bp) (PACK asize 1) in
    let s := PUT s (FTRP s bp) (PACK asize 1) in
    let new_bp := NEXT_BLKP s bp in
    let s := PUT s (HDRP new_bp) (PACK (wrap64 (csize - asize)) 0) in
    let s := PUT s (FTRP s new_bp) (PACK (wrap64 (csize - asize)) 0) in
    let s := SET_PRED s new_bp pred in
    let s := SET_SUCC s new_bp succ in
    let s := if pred =? heap_listp s then s else SET_SUCC s pred new_bp in
    let s := if succ =? heap_listp s then s else SET_PRED s succ new_bp in
    if bp =? first_free s then set_first_free s new_bp else s
  else
    let s := PUT s (HDRP bp) (PACK csize 1) in
    let s := PUT s (FTRP s bp) (PACK csize 1) in
    if pred =? heap_listp s then
      let s := set_first_free s succ in
      if succ =? heap_listp s then s
      else SET_PRED s (first_free s) (heap_listp s)
    else if succ =? heap_listp s then SET_SUCC s pred succ
    else
      let s := SET_SUCC s pred succ in
      SET_PRED s succ pred.

(** The result of a call: the loop of [find_fit] runs on fuel, and the byte
    routines of the C library trap on a null pointer. *)
Inductive outcome (A : Type) : Type :=
| Done (a : A)
| Trap
| OutOfFuel.

Arguments Done {A} a.
Arguments Trap {A}.
Arguments OutOfFuel {A}.

(** The loop of [find_fit(asize)], started at [bp]. *)
Fixpoint find_fit_from (fuel : nat) (s : state) (asize bp : Z) : outcome Z :=
  match fuel with
  | O => OutOfFuel
  | S fuel' =>
      if bp =? heap_listp s then Done NULL
      else if negb (nz (GET_ALLOC s (HDRP bp))) && (asize <=? GET_SIZE s (HDRP bp))
           then Done bp
           else find_fit_from fuel' s asize (GET_SUCC s bp)
  end.

Definition find_fit (fuel : nat) (s : state) (asize : Z) : outcome Z :=
  find_fit_from fuel s asize (first_free s).

(** ** The public operations *)

(** The adjusted block size of a request of [size] > 0 bytes. *)
Definition adjusted_size (size : Z) : Z :=
  if size <=? MINBLKSIZE then 3 * DSIZE
  else wrap64 (DSIZE * (wrap64 (size + DSIZE + (DSIZE - 1)) / DSIZE)).

(** What [malloc] does once the heap is known to be set up. *)
Definition malloc_body (fuel : nat) (s : state) (size : Z) : outcome (state * Z) :=
  if size =? 0 then Done (s, NULL)
  else
    let asize := adjusted_size size in
    match find_fit fuel s asize with
    | OutOfFuel => OutOfFuel
    | Trap => Trap
    | Done bp =>
        if negb (bp =? NULL) then Done (place s bp asize, bp)
        else
          let extendsize := MAX asize CHUNKSIZE in
          let '(s, bp) := extend_heap s (extendsize / WSIZE) in
          if bp =? NULL then Done (s, NULL)
          else Done (place s bp asize, bp)
    end.

(** [malloc(size)] *)
Definition malloc (fuel : nat) (s : state) (size : Z) : outcome (state * Z) :=
  let s := if heap_listp s =? 0 then fst (mm_init s) else s in
  malloc_body fuel s size.

(** What [free] does to a non-null [bp] whose size word has been read. *)
Definition free_body (s : state) (bp size : Z) : state :=
  let s := PUT s (HDRP bp) (PACK size 0) in
  let s := PUT s (FTRP s bp) (PACK size 0) in
  let s := freelist_add s bp in
  fst (coalesce s bp).

(** [free(bp)] *)
Definition free (s : state) (bp : Z) : state :=
  if bp =? 0 then s
  else
    let size := GET_SIZE s (HDRP bp) in
    let s := if heap_listp s =? 0 then fst (mm_init s) else s in
    free_body s bp size.

(** [memcpy(dst, src, n)] of the C library: [n] bytes are copied; a null
    pointer with [n] > 0 is dereferenced and traps. *)
Definition memcpy (s : state) (dst src n : Z) : option state :=
  if (0 <? n) && ((dst =? NULL) || (src =? NULL)) then None
  else Some (set_mem s (fun q => if (dst <=? q) && (q <? dst + n)
                                 then mem s (src + (q - dst)) else mem s q)).

(** [memset(dst, c, n)] of the C library, with the same convention. *)
Definition memset (s : state) (dst c n : Z) : option state :=
  if (0 <? n) && (dst =? NULL) then None
  else Some (set_mem s (fun q => if (dst <=? q) && (q <? dst + n)
                                 then c mod 256 else mem s q)).

(** The number of bytes [realloc] hands to [memcpy]. *)
Definition realloc_copy_length (s : state) (ptr size : Z) : Z :=
  let oldsize := GET_SIZE s (HDRP ptr) in
  if size <? oldsize then size else oldsize.

(** [realloc(ptr, size)] *)
Definition realloc (fuel : nat) (s : state) (ptr size : Z) : outcome (state * Z) :=
  if size =? 0 then Done (free s ptr, NULL)
  else if ptr =? NULL then malloc fuel s size
  else
    match malloc fuel s size with
    | OutOfFuel => OutOfFuel
    | Trap => Trap
    | Done (s, newptr) =>
        if newptr =? NULL then Done (s, NULL)
        else
          match memcpy s newptr ptr (realloc_copy_length s ptr size) with
          | None => Trap
          | Some s => Done (free s ptr, newptr)
          end
    end.

(** [calloc(nmemb, size)] *)
Definition calloc (fuel : nat) (s : state) (nmemb size : Z) : outcome (state * Z) :=
  let bytes := wrap64 (nmemb * size) in
  match malloc fuel s bytes with
  | OutOfFuel => OutOfFuel
  | Trap => Trap
  | Done (s, newptr) =>
      match memset s newptr 0 bytes with
      | None => Trap
      | Some s => Done (s, newptr)
      end
  end.

(** * Part II: the representation invariant *)

(** ** The heap as a sequence of blocks *)

(** A block: the address of its payload ([bp]), its total size and its
    allocation state. *)
Record block : Type := mkBlock {
  baddr : Z;
  bsize : Z;
  balloc : bool
}.

(** The boundary word of a block. *)
Definition tag (b : block) : Z := bsize b + (if balloc b then 1 else 0).

(** [bs] tiles the addresses from [a] to [e]: each block starts where the
    previous one ends. *)
Fixpoint contig (a : Z) (bs : list block) (e : Z) : Prop :=
  match bs with
  | [] => a = e
  | b :: bs' => baddr b = a /\ contig (a + bsize b) bs' e
  end.

(** The header and the footer of [b] hold its tag; sizes are multiples of
    8; every block but the prologue (the block at [heap_listp]) has at least
    24 bytes, and the prologue is never free. *)
Definition blk_ok (s : state) (b : block) : Prop :=
  GET s (baddr b - 4) = tag b /\
  GET s (baddr b + bsize b - 8) = tag b /\
  8 <= bsize b /\
  bsize b mod 8 = 0 /\
  (baddr b <> heap_listp s -> 24 <= bsize b) /\
  (balloc b = false -> baddr b <> heap_listp s).

(** The block structure of the heap: the prologue is the first block of
    [bs], the epilogue header follows the last one. *)
Record Heap (s : state) (bs : list block) : Prop := {
  hp_base : 0 < heap_listp s;
  hp_brk : mem_brk s <= mem_max_addr s;
  hp_max32 : mem_max_addr s < heap_listp s + 2 ^ 32;
  hp_max64 : mem_max_addr s < 2 ^ 64;
  hp_nonempty : bs <> [];
  hp_contig : contig (heap_listp s) bs (mem_brk s);
  hp_blocks : Forall (blk_ok s) bs;
  hp_epilogue : GET s (mem_brk s - 4) = 1
}.

(** ** The free list as a sequence of addresses *)

(** The nodes of [l] are linked in both directions, the first one back to
    [prev] and the last one on to [nxt]. *)
Fixpoint chain (s : state) (prev : Z) (l : list Z) (nxt : Z) : Prop :=
  match l with
  | [] => True
  | a :: l' => GET_PRED s a = prev /\ GET_SUCC s a = hd nxt l' /\ chain s a l' nxt
  end.

(** Distinct nodes are at least a pair of link fields apart. *)
Definition spaced (l : list Z) : Prop :=
  forall a a', In a l -> In a' l -> a = a' \/ a + 8 <= a' \/ a' + 8 <= a.

Record FreeList (s : state) (fl : list Z) : Prop := {
  fl_head : first_free s = hd (heap_listp s) fl;
  fl_chain : chain s (heap_listp s) fl (heap_listp s);
  fl_nodup : NoDup fl
}.

(** [a] is the address of a free block of [bs]. *)
Definition free_in (bs : list block) (a : Z) : Prop :=
  exists b, In b bs /\ baddr b = a /\ balloc b = false.

(** The addresses of the free blocks, in address order. *)
Definition free_addrs (bs : list block) : list Z :=
  map baddr (filter (fun b => negb (balloc b)) bs).

(** The free list holds exactly the free blocks, each once. *)
Definition fidelity (bs : list block) (fl : list Z) : Prop :=
  Permutation fl (free_addrs bs).

(** No two neighbouring blocks are both free. *)
Fixpoint coalesced (bs : list block) : Prop :=
  match bs with
  | [] => True
  | b1 :: bs' =>
      match bs' with
      | [] => True
      | b2 :: _ => (balloc b1 = true \/ balloc b2 = true) /\ coalesced bs'
      end
  end.

Record Rep (s : state) (bs : list block) (fl : list Z) : Prop := {
  rep_heap : Heap s bs;
  rep_list : FreeList s fl;
  rep_fid : fidelity bs fl
}.

(** The invariant of the allocator. *)
Definition Inv (s : state) : Prop :=
  exists bs fl, Rep s bs fl /\ coalesced bs.

(** ** Auxiliary predicates of the proofs *)

(** Two 4-byte words do not overlap. *)
Definition sep (p q : Z) : Prop := p + 4 <= q \/ q + 4 <= p.

(** An address that a link field can hold and give back. *)
Definition addr_ok (s : state) (a : Z) : Prop :=
  heap_listp s < a /\ a < heap_listp s + 2 ^ 32 /\ a < 2 ^ 64.

(** The nodes of a list can all be named by link fields, and their link
    fields do not overlap. *)
Record Nodes (s : state) (l : list Z) : Prop := {
  nd_base : 0 < heap_listp s < 2 ^ 64;
  nd_spaced : spaced l;
  nd_ok : forall a, In a l -> addr_ok s a
}.

(** [s'] differs from [s] at most in the link fields of the nodes of [l]. *)
Definition links_only (l : list Z) (s s' : state) : Prop :=
  heap_listp s' = heap_listp s /\ mem_brk s' = mem_brk s /\
  mem_max_addr s' = mem_max_addr s /\
  forall q, (forall a, In a l -> sep q a /\ sep q (a + 4)) -> GET s' q = GET s q.

(** The neighbour of the last block: the epilogue, which counts as
    allocated. *)
Definition dummy : block := mkBlock 0 0 true.

(** The heap base and the bounds of the region are the same. *)
Definition same_globals (s s' : state) : Prop :=
  heap_listp s' = heap_listp s /\ mem_brk s' = mem_brk s /\
  mem_max_addr s' = mem_max_addr s.

(** What [coalesce] establishes: the heap is well formed and coalesced
    again, the returned block is free, covers the block that was handed in
    and heads the free list, and the allocated blocks are the same. *)
Definition coalesce_post (s : state) (bs : list block) (B : block)
    (r : state * Z) : Prop :=
  exists bs' fl' b',
    Rep (fst r) bs' fl' /\ coalesced bs' /\
    In b' bs' /\ baddr b' = snd r /\ balloc b' = false /\
    baddr b' + bsize B <= baddr B + bsize B <= baddr b' + bsize b' /\
    (forall b, In b bs -> balloc b = true -> In b bs') /\
    same_globals s (fst r) /\
    first_free (fst r) = snd r.

(** The number of bytes [extend_heap(words)] asks for. *)
Definition extend_size (words : Z) : Z :=
  if nz (words mod 2) then wrap64 ((words + 1) * WSIZE) else wrap64 (words * WSIZE).

(** First fit over a list of candidates, as the specification words it:
    the first block of the list whose size is at least the requested size,
    none when the list is exhausted. *)
Definition first_fit (size_of : Z -> Z) (fl : list Z) (asize : Z) : option Z :=
  find (fun a => asize <=? size_of a) fl.

(** The pointer that stands for an optional block. *)
Definition ptr_of (o : option Z) : Z :=
  match o with Some a => a | None => NULL end.

(** What a call of [malloc] leaves behind: nothing at all when it returns
    null, otherwise a well-formed heap in which the returned block is
    allocated and large enough, the blocks that were allocated before still
    are, and none of them is the block returned. *)
Definition malloc_post (s : state) (bs : list block) (size : Z)
    (r : state * Z) : Prop :=
  (snd r = NULL /\ fst r = s) \/
  exists bs' fl' b,
    Rep (fst r) bs' fl' /\ coalesced bs' /\
    In b bs' /\ baddr b = snd r /\ balloc b = true /\
    adjusted_size size <= bsize b < adjusted_size size + 24 /\
    (forall c, In c bs -> balloc c = true -> In c bs') /\
    heap_listp (fst r) = heap_listp s /\ mem_max_addr (fst r) = mem_max_addr s /\
    (forall c, In c bs -> balloc c = true -> baddr c <> snd r).

(** The heap that [mm_init] builds before it extends it: padding word,
    prologue header and footer, epilogue header. *)
Definition init_state (s0 : state) : state :=
  let p := mem_brk s0 in
  let s := set_heap_listp (set_brk s0 (p + 16)) p in
  let s := PUT s p 0 in
  let s := PUT s (p + 4) (PACK 8 1) in
  let s := PUT s (p + 8) (PACK 8 1) in
  let s := PUT s (p + 12) (PACK 0 1) in
  set_first_free (set_heap_listp s (p + 8)) (p + 8).

(** ** Walking the heap and the free list *)

(** The blocks met from [bp] on by stepping with [NEXT_BLKP] until a header
    of size 0, the loop of [mm_checkheap]. *)
Fixpoint blocks_from (fuel : nat) (s : state) (bp : Z) : option (list block) :=
  match fuel with
  | O => None
  | S fuel' =>
      if GET_SIZE s (HDRP bp) =? 0 then Some []
      else option_map
             (cons (mkBlock bp (GET_SIZE s (HDRP bp)) (nz (GET_ALLOC s (HDRP bp)))))
             (blocks_from fuel' s (NEXT_BLKP s bp))
  end.

Definition heap_blocks (fuel : nat) (s : state) : option (list block) :=
  blocks_from fuel s (heap_listp s).

(** The nodes met from [bp] on by following successor links until
    [heap_listp], the loop of [find_fit] and of [in_freelist]. *)
Fixpoint list_from (fuel : nat) (s : state) (bp : Z) : option (list Z) :=
  match fuel with
  | O => None
  | S fuel' =>
      if bp =? heap_listp s then Some []
      else option_map (cons bp) (list_from fuel' s (GET_SUCC s bp))
  end.

Definition free_list (fuel : nat) (s : state) : option (list Z) :=
  list_from fuel s (first_free s).

(** [ptr] is the payload address of an allocated block of the heap other
    than the prologue: an address that [malloc] handed out and that has not
    been freed since. *)
Definition allocated_block (s : state) (ptr : Z) : Prop :=
  ptr <> heap_listp s /\
  exists fuel bs b, heap_blocks fuel s = Some bs /\
                    In b bs /\ baddr b = ptr /\ balloc b = true.




(** ** The states the allocator can be in

    The heap is set up by a successful [mm_init] on a memory region of less
    than 2^32 bytes; afterwards the public operations are called with
    addresses of allocated blocks (or null) and with sizes whose adjustment
    does not wrap around. *)
Inductive reachable : state -> Prop :=
| reach_init s0 :
    0 <= mem_brk s0 -> mem_max_addr s0 < 2 ^ 64 ->
    mem_max_addr s0 < mem_brk s0 + 8 + 2 ^ 32 ->
    snd (mm_init s0) = 0 ->
    reachable (fst (mm_init s0))
| reach_malloc s fuel size r :
    reachable s -> 0 <= size -> size + 15 < 2 ^ 64 ->
    malloc fuel s size = Done r ->
    reachable (fst r)
| reach_free s ptr :
    reachable s -> ptr = NULL \/ allocated_block s ptr ->
    reachable (free s ptr)
| reach_realloc s fuel ptr size r :
    reachable s -> ptr = NULL \/ allocated_block s ptr ->
    0 <= size -> size + 15 < 2 ^ 64 ->
    realloc fuel s ptr size = Done r ->
    reachable (fst r)
| reach_calloc s fuel nmemb size r :
    reachable s -> wrap64 (nmemb * size) + 15 < 2 ^ 64 ->
    calloc fuel s nmemb size = Done r ->
    reachable (fst r)
| reach_extend s words :
    reachable s -> 24 <= extend_size words ->
    reachable (fst (extend_heap s words)).

(** ** The extension policy as the specification words it *)

(** "Extend the heap by max(asize, 4096-byte chunk)". *)
Definition spec_extendsize (asize : Z) : Z := Z.max asize 4096.

(** What the allocator does: [MAX(asize, CHUNKSIZE)]. *)
Definition code_extendsize (asize : Z) : Z := MAX asize CHUNKSIZE.

(** A call of [malloc] that finds no fit and succeeds moves the break by
    [amount asize]. *)
Definition grows_by (amount : Z -> Z) (fuel : nat) (s : state) (size : Z) : Prop :=
  forall r,
    find_fit fuel s (adjusted_size size) = Done NULL ->
    malloc fuel s size = Done r -> snd r <> NULL ->
    mem_brk (fst r) = mem_brk s + amount (adjusted_size size).

(** ** Concrete heaps *)

(** The value of a call that returned, [d] otherwise. *)
Definition result {A : Type} (d : A) (o : outcome A) : A :=
  match o with Done a => a | _ => d end.

Definition is_done {A : Type} (o : outcome A) : bool :=
  match o with Done _ => true | _ => false end.

(** A zeroed region of [room] bytes at address 4096, before [mm_init]. *)
Definition fresh (room : Z) : state := mkState (fun _ => 0) 4096 (4096 + room) 0 0.

(** A heap that cannot grow any more: the region holds the prologue, the
    epilogue and the first chunk, and nothing else. *)
Definition tight : state := fst (mm_init (fresh 528)).

(** A heap with room to grow. *)
Definition roomy : state := fst (mm_init (fresh 65536)).

(** [p = malloc(24); q = malloc(100); r = malloc(50)] on [roomy]. *)
Definition got_p : state * Z := result (roomy, NULL) (malloc 10 roomy 24).
Definition got_q : state * Z := result (roomy, NULL) (malloc 10 (fst got_p) 100).
Definition got_r : state * Z := result (roomy, NULL) (malloc 10 (fst got_q) 50).

(** [free(p); free(r)]: two free blocks around the allocated [q]. *)
Definition holes : state := free (free (fst got_r) (snd got_p)) (snd got_r).


(** A heap whose only free block has been handed out whole. *)
Definition got_all : state * Z := result (roomy, NULL) (malloc 10 roomy 504).

(** The outcome of [malloc] after a successful extension by [ext] bytes:
    [extend_heap] returns a free region that covers the new memory, and the
    block of [asize] bytes is placed at its start. *)
Definition placed_in_extension (s : state) (asize ext : Z) (r : state * Z) : Prop :=
  exists bs1 fl1 region bs fl b,
    Rep (fst (extend_heap s (ext / WSIZE))) bs1 fl1 /\
    In region bs1 /\ balloc region = false /\
    baddr region = snd (extend_heap s (ext / WSIZE)) /\
    baddr region <= mem_brk s /\ mem_brk s + ext <= baddr region + bsize region /\
    r = (place (fst (extend_heap s (ext / WSIZE))) (baddr region) asize, baddr region) /\
    Rep (fst r) bs fl /\ In b bs /\ baddr b = snd r /\ balloc b = true /\
    asize <= bsize b < asize + 24 /\
    mem_brk (fst r) = mem_brk s + ext.

(** A heap without room for another block, holding one allocated block. *)
Definition tight_p : state * Z := result (tight, NULL) (malloc 10 tight 24).

(** [realloc(p, 100)] after [p = malloc(24); q = malloc(100)]. *)
Definition moved : state * Z :=
  result (roomy, NULL) (realloc 10 (fst got_q) (snd got_p) 100).

(** [malloc(2^64 - 1)] on a fresh heap. *)
Definition huge : state * Z := result (roomy, NULL) (malloc 10 roomy (2 ^ 64 - 1)).

(** * Part III: lemmas *)

Lemma load8_range m p : 0 <= load8 m p < 256.
Proof. unfold load8. apply Z.mod_pos_bound. lia. Qed.

Lemma load32_range m p : 0 <= load32 m p < 2 ^ 32.
Proof.
  unfold load32.
  pose proof (load8_range m p). pose proof (load8_range m (p + 1)).
  pose proof (load8_range m (p + 2)). pose proof (load8_range m (p + 3)).
  lia.
Qed.

Lemma load8_store8_same m p v : load8 (store8 m p v) p = v mod 256.
Proof.
  unfold load8, store8. rewrite Z.eqb_refl. apply Z.mod_mod. lia.
Qed.

Lemma load8_store8_other m p v q : q <> p -> load8 (store8 m p v) q = load8 m q.
Proof.
  intros H. unfold load8, store8. destruct (Z.eqb_spec q p); [contradiction | reflexivity].
Qed.

Lemma load8_store32_other m p v q :
  q < p \/ p + 4 <= q -> load8 (store32 m p v) q = load8 m q.
Proof.
  intros H. unfold store32.
  rewrite !load8_store8_other by lia. reflexivity.
Qed.

Lemma load32_store32_other m p v q :
  q + 4 <= p \/ p + 4 <= q -> load32 (store32 m p v) q = load32 m q.
Proof.
  intros H. unfold load32. rewrite !load8_store32_other by lia. reflexivity.
Qed.

Lemma load32_store32_same m p v : load32 (store32 m p v) p = v mod 2 ^ 32.
Proof.
  unfold load32, store32.
  rewrite (load8_store8_other _ _ _ p) by lia.
  rewrite (load8_store8_other _ _ _ p) by lia.
  rewrite (load8_store8_other _ _ _ p) by lia.
  rewrite load8_store8_same.
  rewrite (load8_store8_other _ _ _ (p + 1)) by lia.
  rewrite (load8_store8_other _ _ _ (p + 1)) by lia.
  rewrite load8_store8_same.
  rewrite (load8_store8_other _ _ _ (p + 2)) by lia.
  rewrite load8_store8_same.
  rewrite load8_store8_same.
  change (2 ^ 32) with (2 ^ 8 * (2 ^ 8 * (2 ^ 8 * 2 ^ 8))).
  rewrite (Z.rem_mul_r v (2 ^ 8)) by lia.
  rewrite (Z.rem_mul_r (v / 2 ^ 8) (2 ^ 8)) by lia.
  rewrite (Z.rem_mul_r (v / 2 ^ 8 / 2 ^ 8) (2 ^ 8)) by lia.
  rewrite !Z.div_div by lia.
  change (2 ^ 8 * 2 ^ 8) with (2 ^ 16). change (2 ^ 16 * 2 ^ 8) with (2 ^ 24).
  change (2 ^ 8) with 256. change (2 ^ 16) with 65536. change (2 ^ 24) with 16777216.
  lia.
Qed.

(** Header words *)

Lemma PACK_0 sz : PACK sz 0 = sz.
Proof. unfold PACK. apply Z.lor_0_r. Qed.

Lemma land_1 x : Z.land x 1 = x mod 2.
Proof. change 1 with (Z.ones 1) at 1. rewrite Z.land_ones by lia. reflexivity. Qed.

Lemma PACK_1 sz : sz mod 8 = 0 -> PACK sz 1 = sz + 1.
Proof.
  intros H. unfold PACK.
  pose proof (Z.add_lor_land sz 1) as E.
  rewrite land_1 in E. Z.div_mod_to_equations. lia.
Qed.

Lemma land_mask x : 0 <= x < 2 ^ 32 -> Z.land x (wrap32 (Z.lnot 7)) = x - x mod 8.
Proof.
  intros H.
  assert (E : Z.land x (Z.ones 32) = x).
  { rewrite Z.land_ones by lia. apply Z.mod_small. lia. }
  change (Z.ones 32) with (Z.lor (wrap32 (Z.lnot 7)) (Z.ones 3)) in E.
  rewrite Z.land_lor_distr_r in E.
  pose proof (Z.add_lor_land (Z.land x (wrap32 (Z.lnot 7))) (Z.land x (Z.ones 3))) as A.
  rewrite E in A.
  replace (Z.land (Z.land x (wrap32 (Z.lnot 7))) (Z.land x (Z.ones 3))) with 0 in A.
  - rewrite (Z.land_ones x 3) in A by lia. change (2 ^ 3) with 8 in A. lia.
  - rewrite Z.land_assoc. rewrite <- (Z.land_assoc x _ x).
    rewrite (Z.land_comm _ x). rewrite Z.land_assoc, Z.land_diag.
    rewrite <- Z.land_assoc.
    change (Z.land (wrap32 (Z.lnot 7)) (Z.ones 3)) with 0.
    rewrite Z.land_0_r. reflexivity.
Qed.

Lemma size_of_word sz a :
  0 <= sz -> sz mod 8 = 0 -> 0 <= a < 8 -> sz + a < 2 ^ 32 ->
  Z.land (sz + a) (wrap32 (Z.lnot 7)) = sz.
Proof.
  intros. rewrite land_mask by lia. Z.div_mod_to_equations. lia.
Qed.

Lemma alloc_of_word sz a :
  sz mod 8 = 0 -> 0 <= a < 2 -> Z.land (sz + a) 1 = a.
Proof.
  intros. rewrite land_1. Z.div_mod_to_equations. lia.
Qed.

(** ** Reads and writes on states *)

Lemma GET_range s p : 0 <= GET s p < 2 ^ 32.
Proof. apply load32_range. Qed.

Lemma GET_PUT_same s p v : GET (PUT s p v) p = wrap32 v.
Proof. unfold GET, PUT. simpl. apply load32_store32_same. Qed.

Lemma GET_PUT_other s p v q : sep p q -> GET (PUT s p v) q = GET s q.
Proof.
  unfold sep, GET, PUT. simpl. intros H. apply load32_store32_other. lia.
Qed.

Lemma GET_set_first_free s x q : GET (set_first_free s x) q = GET s q.
Proof. reflexivity. Qed.

Lemma GET_set_brk s x q : GET (set_brk s x) q = GET s q.
Proof. reflexivity. Qed.

Lemma GET_SIZE_PUT_other s p v q : sep p q -> GET_SIZE (PUT s p v) q = GET_SIZE s q.
Proof. intros. unfold GET_SIZE. rewrite GET_PUT_other by assumption. reflexivity. Qed.

Lemma GET_ALLOC_PUT_other s p v q : sep p q -> GET_ALLOC (PUT s p v) q = GET_ALLOC s q.
Proof. intros. unfold GET_ALLOC. rewrite GET_PUT_other by assumption. reflexivity. Qed.

Lemma GET_PRED_PUT_other s p v a : sep p a -> GET_PRED (PUT s p v) a = GET_PRED s a.
Proof. intros. unfold GET_PRED, COMP_ADDRESS. rewrite GET_PUT_other by assumption. reflexivity. Qed.

Lemma GET_SUCC_PUT_other s p v a : sep p (a + 4) -> GET_SUCC (PUT s p v) a = GET_SUCC s a.
Proof.
  intros. unfold GET_SUCC, COMP_ADDRESS, WSIZE. rewrite GET_PUT_other by assumption.
  reflexivity.
Qed.

(** Offsets round-trip for addresses of the heap. *)
Lemma COMP_roundtrip hl v :
  0 <= hl -> hl <= v -> v < hl + 2 ^ 32 -> v < 2 ^ 64 ->
  wrap64 (hl + wrap32 (wrap64 (wrap32 v - hl))) = v.
Proof.
  intros H0 H1 H2 H3. unfold wrap64, wrap32.
  rewrite Z.mod_mod_divide by (exists (2 ^ 32); reflexivity).
  rewrite Zminus_mod_idemp_l.
  rewrite (Z.mod_small (v - hl)) by lia.
  replace (hl + (v - hl)) with v by lia.
  apply Z.mod_small. lia.
Qed.

Lemma GET_PRED_SET_PRED s a v :
  0 <= heap_listp s -> heap_listp s <= v -> v < heap_listp s + 2 ^ 32 -> v < 2 ^ 64 ->
  GET_PRED (SET_PRED s a v) a = v.
Proof.
  intros. unfold GET_PRED, SET_PRED, COMP_ADDRESS, COMP_OFFSET.
  rewrite GET_PUT_same. simpl. apply COMP_roundtrip; assumption.
Qed.

Lemma GET_SUCC_SET_SUCC s a v :
  0 <= heap_listp s -> heap_listp s <= v -> v < heap_listp s + 2 ^ 32 -> v < 2 ^ 64 ->
  GET_SUCC (SET_SUCC s a v) a = v.
Proof.
  intros. unfold GET_SUCC, SET_SUCC, COMP_ADDRESS, COMP_OFFSET.
  rewrite GET_PUT_same. simpl. apply COMP_roundtrip; assumption.
Qed.

Lemma GET_PRED_SET_PRED_other s a v b : sep a b -> GET_PRED (SET_PRED s a v) b = GET_PRED s b.
Proof. intros. unfold SET_PRED. apply GET_PRED_PUT_other. assumption. Qed.

Lemma GET_PRED_SET_SUCC_other s a v b : sep (a + 4) b -> GET_PRED (SET_SUCC s a v) b = GET_PRED s b.
Proof. intros. unfold SET_SUCC. apply GET_PRED_PUT_other. assumption. Qed.

Lemma GET_SUCC_SET_PRED_other s a v b : sep a (b + 4) -> GET_SUCC (SET_PRED s a v) b = GET_SUCC s b.
Proof. intros. unfold SET_PRED. apply GET_SUCC_PUT_other. assumption. Qed.

Lemma GET_SUCC_SET_SUCC_other s a v b :
  sep (a + 4) (b + 4) -> GET_SUCC (SET_SUCC s a v) b = GET_SUCC s b.
Proof. intros. unfold SET_SUCC. apply GET_SUCC_PUT_other. assumption. Qed.

(** ** Tilings *)

Lemma contig_app a l1 l2 e :
  contig a (l1 ++ l2) e <-> exists c, contig a l1 c /\ contig c l2 e.
Proof.
  revert a. induction l1 as [|b l1 IH]; intros a; simpl.
  - split.
    + intros H. exists a. auto.
    + intros [c [-> H]]. exact H.
  - rewrite IH. split.
    + intros [Hb [c [H1 H2]]]. exists c. auto.
    + intros [c [[Hb H1] H2]]. split; [exact Hb|]. exists c. auto.
Qed.

Lemma contig_fun a l e e' : contig a l e -> contig a l e' -> e = e'.
Proof.
  revert a. induction l as [|b l IH]; intros a; simpl.
  - congruence.
  - intros [_ H1] [_ H2]. eauto.
Qed.

Lemma contig_le a l e :
  Forall (fun b => 0 < bsize b) l -> contig a l e -> a <= e.
Proof.
  revert a. induction l as [|b l IH]; intros a Hp; simpl.
  - lia.
  - intros [_ H]. inversion Hp; subst. apply IH in H; [lia | assumption].
Qed.

Lemma contig_In a l e b :
  Forall (fun b => 0 < bsize b) l -> contig a l e -> In b l ->
  a <= baddr b /\ baddr b + bsize b <= e.
Proof.
  revert a. induction l as [|b' l IH]; intros a Hp Hc Hin; simpl in *.
  - contradiction.
  - destruct Hc as [Ha Hc]. inversion Hp; subst.
    destruct Hin as [-> | Hin].
    + apply contig_le in Hc; [lia | assumption].
    + destruct (IH _ H2 Hc Hin). lia.
Qed.

Lemma contig_split a l1 b l2 e :
  contig a (l1 ++ b :: l2) e <->
  contig a l1 (baddr b) /\ contig (baddr b + bsize b) l2 e.
Proof.
  rewrite contig_app. simpl. split.
  - intros [c [H1 [Hb H2]]]. rewrite Hb. auto.
  - intros [H1 H2]. exists (baddr b). auto.
Qed.

(** Two blocks of a tiling are the same block or do not overlap. *)
Lemma contig_sep a l e b b' :
  Forall (fun b => 0 < bsize b) l -> contig a l e -> In b l -> In b' l ->
  b = b' \/ baddr b + bsize b <= baddr b' \/ baddr b' + bsize b' <= baddr b.
Proof.
  revert a. induction l as [|c l IH]; intros a Hp Hc Hb Hb'; simpl in *.
  - contradiction.
  - destruct Hc as [Ha Hc]. inversion Hp; subst.
    destruct Hb as [-> | Hb], Hb' as [-> | Hb'].
    + auto.
    + destruct (contig_In _ _ _ _ H2 Hc Hb'). lia.
    + destruct (contig_In _ _ _ _ H2 Hc Hb). lia.
    + eauto.
Qed.

Lemma Forall_app_iff {A} (P : A -> Prop) l1 l2 :
  Forall P (l1 ++ l2) <-> Forall P l1 /\ Forall P l2.
Proof. apply Forall_app. Qed.

(** ** Facts of a well-formed heap *)

Lemma blk_ok_pos s b : blk_ok s b -> 0 < bsize b.
Proof. unfold blk_ok. intros. lia. Qed.

Lemma heap_pos s bs : Heap s bs -> Forall (fun b => 0 < bsize b) bs.
Proof.
  intros H. eapply Forall_impl; [|apply (hp_blocks _ _ H)].
  intros b. apply blk_ok_pos.
Qed.

Lemma heap_In s bs b :
  Heap s bs -> In b bs ->
  blk_ok s b /\ heap_listp s <= baddr b /\ baddr b + bsize b <= mem_brk s.
Proof.
  intros H Hin. split.
  - pose proof (hp_blocks _ _ H) as F. rewrite Forall_forall in F. auto.
  - exact (contig_In _ _ _ _ (heap_pos _ _ H) (hp_contig _ _ H) Hin).
Qed.

Lemma heap_sep s bs b b' :
  Heap s bs -> In b bs -> In b' bs ->
  b = b' \/ baddr b + bsize b <= baddr b' \/ baddr b' + bsize b' <= baddr b.
Proof.
  intros H. exact (contig_sep _ _ _ _ _ (heap_pos _ _ H) (hp_contig _ _ H)).
Qed.

Lemma heap_addr_inj s bs b b' :
  Heap s bs -> In b bs -> In b' bs -> baddr b = baddr b' -> b = b'.
Proof.
  intros H Hb Hb' E.
  destruct (heap_sep _ _ _ _ H Hb Hb') as [? | D]; [assumption|].
  destruct (heap_In _ _ _ H Hb) as [O _]. destruct (heap_In _ _ _ H Hb') as [O' _].
  apply blk_ok_pos in O. apply blk_ok_pos in O'. lia.
Qed.

(** The first block of the heap is the prologue: it sits at [heap_listp]
    and is allocated. *)
Lemma heap_first s bs :
  Heap s bs -> exists b bs', bs = b :: bs' /\ baddr b = heap_listp s /\ balloc b = true.
Proof.
  intros H. destruct bs as [|b bs'].
  - destruct (hp_nonempty _ _ H). reflexivity.
  - exists b, bs'. split; [reflexivity|].
    pose proof (hp_contig _ _ H) as C. simpl in C. destruct C as [Ea _].
    split; [assumption|].
    destruct (heap_In _ _ b H (or_introl eq_refl)) as [O _].
    destruct O as (_ & _ & _ & _ & _ & Hf).
    destruct (balloc b); [reflexivity|]. exfalso. apply Hf; auto.
Qed.


Lemma free_in_heap s bs a :
  Heap s bs -> free_in bs a ->
  heap_listp s + 8 <= a /\ a + 24 <= mem_brk s.
Proof.
  intros H (b & Hin & <- & Hf).
  destruct (heap_In _ _ _ H Hin) as (O & L & U).
  destruct (heap_first _ _ H) as (p & bs' & E & Ep & Ap).
  assert (Hp : In p bs) by (rewrite E; left; reflexivity).
  destruct (heap_In _ _ _ H Hp) as (Op & _ & _).
  destruct (heap_sep _ _ _ _ H Hp Hin) as [-> | D]; [congruence|].
  destruct O as (_ & _ & S8 & _ & S24 & Hn). specialize (Hn Hf). specialize (S24 Hn).
  destruct Op as (_ & _ & P8 & _). lia.
Qed.

Lemma free_in_spaced s bs l :
  Heap s bs -> (forall a, In a l -> free_in bs a) -> spaced l.
Proof.
  intros H F a a' Ha Ha'.
  apply F in Ha. apply F in Ha'.
  destruct Ha as (b & Hb & <- & Fb). destruct Ha' as (b' & Hb' & <- & Fb').
  destruct (heap_In _ _ _ H Hb) as (O & _). destruct (heap_In _ _ _ H Hb') as (O' & _).
  destruct (heap_sep _ _ _ _ H Hb Hb') as [-> | D]; [auto|].
  destruct O as (_ & _ & S8 & _). destruct O' as (_ & _ & S8' & _). lia.
Qed.

(** ** Reading the boundary words of a block *)

Lemma tag_range s b : blk_ok s b -> 0 <= tag b < 2 ^ 32.
Proof. intros (H & _). rewrite <- H. apply GET_range. Qed.

Lemma tag_size b :
  0 <= tag b < 2 ^ 32 -> 8 <= bsize b -> bsize b mod 8 = 0 ->
  Z.land (tag b) (wrap32 (Z.lnot 7)) = bsize b.
Proof.
  unfold tag. intros. apply size_of_word; destruct (balloc b); lia.
Qed.

Lemma tag_alloc b :
  bsize b mod 8 = 0 -> Z.land (tag b) 1 = if balloc b then 1 else 0.
Proof.
  unfold tag. intros. apply alloc_of_word; destruct (balloc b); lia.
Qed.

Lemma blk_size_hdr s b q :
  blk_ok s b -> q = baddr b - 4 -> GET_SIZE s q = bsize b.
Proof.
  intros O ->. pose proof (tag_range _ _ O) as R. destruct O as (H & _ & ? & ? & _).
  unfold GET_SIZE. rewrite H. apply tag_size; assumption.
Qed.

Lemma blk_size_ftr s b q :
  blk_ok s b -> q = baddr b + bsize b - 8 -> GET_SIZE s q = bsize b.
Proof.
  intros O ->. pose proof (tag_range _ _ O) as R. destruct O as (_ & H & ? & ? & _).
  unfold GET_SIZE. rewrite H. apply tag_size; assumption.
Qed.

Lemma blk_alloc_hdr s b q :
  blk_ok s b -> q = baddr b - 4 -> GET_ALLOC s q = if balloc b then 1 else 0.
Proof.
  intros O ->. destruct O as (H & _ & ? & ? & _).
  unfold GET_ALLOC. rewrite H. apply tag_alloc; assumption.
Qed.

Lemma blk_alloc_ftr s b q :
  blk_ok s b -> q = baddr b + bsize b - 8 -> GET_ALLOC s q = if balloc b then 1 else 0.
Proof.
  intros O ->. destruct O as (_ & H & ? & ? & _).
  unfold GET_ALLOC. rewrite H. apply tag_alloc; assumption.
Qed.

Lemma blk_NEXT s b : blk_ok s b -> NEXT_BLKP s (baddr b) = baddr b + bsize b.
Proof.
  intros O. unfold NEXT_BLKP, WSIZE. rewrite (blk_size_hdr s b) by auto. reflexivity.
Qed.

Lemma blk_FTRP s b : blk_ok s b -> FTRP s (baddr b) = baddr b + bsize b - 8.
Proof.
  intros O. unfold FTRP, HDRP, WSIZE, DSIZE. rewrite (blk_size_hdr s b) by auto. reflexivity.
Qed.

Lemma blk_PREV s b q : blk_ok s b -> q = baddr b + bsize b -> PREV_BLKP s q = baddr b.
Proof.
  intros O ->. unfold PREV_BLKP, DSIZE. rewrite (blk_size_ftr s b) by (auto; lia). lia.
Qed.

(** Writing the boundary words of a block. *)
Lemma GET_PUT_tag s p b :
  0 <= bsize b -> bsize b + 1 < 2 ^ 32 -> bsize b mod 8 = 0 ->
  GET (PUT s p (PACK (bsize b) (if balloc b then 1 else 0))) p = tag b.
Proof.
  intros. rewrite GET_PUT_same. unfold tag, wrap32.
  destruct (balloc b).
  - rewrite PACK_1 by assumption. apply Z.mod_small. lia.
  - rewrite PACK_0. rewrite Z.add_0_r. apply Z.mod_small. lia.
Qed.

(** ** Frame properties of the block structure *)

Lemma blk_ok_same s s' b :
  heap_listp s' = heap_listp s ->
  GET s' (baddr b - 4) = GET s (baddr b - 4) ->
  GET s' (baddr b + bsize b - 8) = GET s (baddr b + bsize b - 8) ->
  blk_ok s b -> blk_ok s' b.
Proof.
  unfold blk_ok. intros -> -> ->. auto.
Qed.

Lemma heap_same s s' bs :
  heap_listp s' = heap_listp s -> mem_brk s' = mem_brk s ->
  mem_max_addr s' = mem_max_addr s ->
  (forall b, In b bs ->
     GET s' (baddr b - 4) = GET s (baddr b - 4) /\
     GET s' (baddr b + bsize b - 8) = GET s (baddr b + bsize b - 8)) ->
  GET s' (mem_brk s - 4) = GET s (mem_brk s - 4) ->
  Heap s bs -> Heap s' bs.
Proof.
  intros E1 E2 E3 F Ee H. destruct H.
  constructor; rewrite ?E1, ?E2, ?E3; try assumption.
  - rewrite Forall_forall in *. intros b Hb. destruct (F b Hb).
    eapply blk_ok_same; eauto.
  - congruence.
Qed.

(** A write inside a block, clear of its header and footer, does not touch
    the block structure. *)
Lemma heap_PUT_inside s bs b q v :
  Heap s bs -> In b bs -> baddr b <= q -> q + 12 <= baddr b + bsize b ->
  Heap (PUT s q v) bs.
Proof.
  intros H Hb L U. apply (heap_same s); try reflexivity; [|  |assumption].
  - intros b' Hb'.
    destruct (heap_In _ _ _ H Hb) as (O & _). destruct (heap_In _ _ _ H Hb') as (O' & _).
    apply blk_ok_pos in O. apply blk_ok_pos in O'.
    destruct (heap_sep _ _ _ _ H Hb Hb') as [<- | D];
      split; apply GET_PUT_other; unfold sep; lia.
  - destruct (heap_In _ _ _ H Hb) as (_ & _ & ?).
    apply GET_PUT_other. simpl. unfold sep. lia.
Qed.

Lemma heap_set_first_free s bs x : Heap s bs -> Heap (set_first_free s x) bs.
Proof.
  intros H. apply (heap_same s); auto.
Qed.

Lemma heap_SET_PRED s bs a v :
  Heap s bs -> free_in bs a -> Heap (SET_PRED s a v) bs.
Proof.
  intros H (b & Hb & <- & Hf). unfold SET_PRED.
  destruct (heap_In _ _ _ H Hb) as (O & _). destruct O as (_ & _ & _ & _ & S24 & Hn).
  specialize (S24 (Hn Hf)).
  eapply heap_PUT_inside; eauto; lia.
Qed.

Lemma heap_SET_SUCC s bs a v :
  Heap s bs -> free_in bs a -> Heap (SET_SUCC s a v) bs.
Proof.
  intros H (b & Hb & <- & Hf). unfold SET_SUCC, WSIZE.
  destruct (heap_In _ _ _ H Hb) as (O & _). destruct O as (_ & _ & _ & _ & S24 & Hn).
  specialize (S24 (Hn Hf)).
  eapply heap_PUT_inside; eauto; lia.
Qed.

(** ** Chains *)

Lemma last_cons {A} (a : A) l d : last (a :: l) d = last l a.
Proof.
  revert a d. induction l as [|c l IH]; intros a d; [reflexivity|].
  change (last (a :: c :: l) d) with (last (c :: l) d).
  rewrite (IH c d), (IH c a). reflexivity.
Qed.

Lemma last_In {A} (l : list A) d : l <> [] -> In (last l d) l.
Proof.
  induction l as [|c l IH]; intros H; [congruence|].
  rewrite last_cons. destruct l as [|e l]; [left; reflexivity|].
  right. rewrite last_cons. rewrite <- (last_cons e l d). apply IH. discriminate.
Qed.

Lemma hd_app {A} (l1 l2 : list A) d : hd d (l1 ++ l2) = hd (hd d l2) l1.
Proof. destruct l1; reflexivity. Qed.

Lemma chain_app s prev l1 l2 nxt :
  chain s prev (l1 ++ l2) nxt <->
  chain s prev l1 (hd nxt l2) /\ chain s (last l1 prev) l2 nxt.
Proof.
  revert prev. induction l1 as [|a l1 IH]; intros prev.
  - simpl. tauto.
  - change ((a :: l1) ++ l2) with (a :: (l1 ++ l2)).
    cbn [chain]. rewrite IH.
    pose proof (hd_app l1 l2 nxt) as E1. pose proof (last_cons a l1 prev) as E2.
    rewrite E1, E2. tauto.
Qed.

Lemma chain_same s s' prev l nxt :
  (forall a, In a l -> GET_PRED s' a = GET_PRED s a /\ GET_SUCC s' a = GET_SUCC s a) ->
  chain s prev l nxt -> chain s' prev l nxt.
Proof.
  revert prev. induction l as [|a l IH]; intros prev F; simpl; [auto|].
  intros (H1 & H2 & H3). destruct (F a (or_introl eq_refl)) as [-> ->].
  repeat split; try assumption. apply IH; [|assumption].
  intros c Hc. apply F. right. assumption.
Qed.

(** The successor link of the last node is redirected. *)
Lemma chain_new_end s s' prev l nxt nxt' :
  (forall a, In a l -> GET_PRED s' a = GET_PRED s a) ->
  (forall a, In a l -> a <> last l prev -> GET_SUCC s' a = GET_SUCC s a) ->
  (l <> [] -> GET_SUCC s' (last l prev) = nxt') ->
  NoDup l ->
  chain s prev l nxt -> chain s' prev l nxt'.
Proof.
  revert prev. induction l as [|a l IH]; intros prev FP FS E ND; simpl; [auto|].
  intros (H1 & H2 & H3). apply NoDup_cons_iff in ND as [Hni ND'].
  pose proof (last_cons a l prev) as EL.
  rewrite EL in *.
  split; [rewrite FP by (left; reflexivity); assumption|].
  destruct l as [|c l].
  - simpl in *. split; [|exact I]. apply E. discriminate.
  - split.
    + rewrite FS; [exact H2| left; reflexivity |].
      intros Heq. apply Hni. rewrite Heq. apply last_In. discriminate.
    + apply IH; try assumption.
      * intros x Hx. apply FP. right. assumption.
      * intros x Hx Hne. apply FS; [right; assumption | assumption].
      * intros _. apply E. discriminate.
Qed.

(** The predecessor link of the first node is redirected. *)
Lemma chain_new_start s s' prev prev' l nxt :
  (forall a, In a l -> GET_SUCC s' a = GET_SUCC s a) ->
  (forall a, In a (tl l) -> GET_PRED s' a = GET_PRED s a) ->
  (l <> [] -> GET_PRED s' (hd nxt l) = prev') ->
  chain s prev l nxt -> chain s' prev' l nxt.
Proof.
  intros FS FP E. destruct l as [|a l]; simpl; [auto|].
  intros (H1 & H2 & H3). split; [apply E; discriminate|].
  split; [rewrite FS by (left; reflexivity); assumption|].
  simpl in FP. clear E H1 H2.
  assert (FS' : forall x, In x l -> GET_SUCC s' x = GET_SUCC s x)
    by (intros; apply FS; right; assumption).
  clear FS. revert a H3. induction l as [|c l IH]; intros a; simpl; [auto|].
  intros (H1 & H2 & H3). rewrite FP, FS' by (left; reflexivity).
  repeat split; try assumption.
  apply IH; try assumption; intros; [apply FP | apply FS']; right; assumption.
Qed.

Lemma chain_PUT s q v prev l nxt :
  (forall a, In a l -> sep q a /\ sep q (a + 4)) ->
  chain s prev l nxt -> chain (PUT s q v) prev l nxt.
Proof.
  intros F. apply chain_same. intros a Ha. destruct (F a Ha).
  split; [apply GET_PRED_PUT_other | apply GET_SUCC_PUT_other]; assumption.
Qed.

Lemma chain_set_first_free s x prev l nxt :
  chain s prev l nxt -> chain (set_first_free s x) prev l nxt.
Proof. apply chain_same. intros. split; reflexivity. Qed.

(** ** Globals across writes *)

Lemma heap_listp_PUT s p v : heap_listp (PUT s p v) = heap_listp s.
Proof. reflexivity. Qed.
Lemma heap_listp_SET_PRED s p v : heap_listp (SET_PRED s p v) = heap_listp s.
Proof. reflexivity. Qed.
Lemma heap_listp_SET_SUCC s p v : heap_listp (SET_SUCC s p v) = heap_listp s.
Proof. reflexivity. Qed.
Lemma heap_listp_set_first_free s x : heap_listp (set_first_free s x) = heap_listp s.
Proof. reflexivity. Qed.
Lemma first_free_PUT s p v : first_free (PUT s p v) = first_free s.
Proof. reflexivity. Qed.
Lemma first_free_SET_PRED s p v : first_free (SET_PRED s p v) = first_free s.
Proof. reflexivity. Qed.
Lemma first_free_SET_SUCC s p v : first_free (SET_SUCC s p v) = first_free s.
Proof. reflexivity. Qed.
Lemma first_free_set_first_free s x : first_free (set_first_free s x) = x.
Proof. reflexivity. Qed.
Lemma mem_brk_PUT s p v : mem_brk (PUT s p v) = mem_brk s.
Proof. reflexivity. Qed.
Lemma mem_brk_SET_PRED s p v : mem_brk (SET_PRED s p v) = mem_brk s.
Proof. reflexivity. Qed.
Lemma mem_brk_SET_SUCC s p v : mem_brk (SET_SUCC s p v) = mem_brk s.
Proof. reflexivity. Qed.
Lemma mem_brk_set_first_free s x : mem_brk (set_first_free s x) = mem_brk s.
Proof. reflexivity. Qed.
Lemma mem_max_addr_PUT s p v : mem_max_addr (PUT s p v) = mem_max_addr s.
Proof. reflexivity. Qed.
Lemma mem_max_addr_SET_PRED s p v : mem_max_addr (SET_PRED s p v) = mem_max_addr s.
Proof. reflexivity. Qed.
Lemma mem_max_addr_SET_SUCC s p v : mem_max_addr (SET_SUCC s p v) = mem_max_addr s.
Proof. reflexivity. Qed.
Lemma mem_max_addr_set_first_free s x : mem_max_addr (set_first_free s x) = mem_max_addr s.
Proof. reflexivity. Qed.

Lemma GET_PRED_set_first_free s x a : GET_PRED (set_first_free s x) a = GET_PRED s a.
Proof. reflexivity. Qed.
Lemma GET_SUCC_set_first_free s x a : GET_SUCC (set_first_free s x) a = GET_SUCC s a.
Proof. reflexivity. Qed.

Create Rewrite HintDb globals.
#[export] Hint Rewrite heap_listp_PUT heap_listp_SET_PRED heap_listp_SET_SUCC
  heap_listp_set_first_free first_free_PUT first_free_SET_PRED first_free_SET_SUCC
  first_free_set_first_free mem_brk_PUT mem_brk_SET_PRED mem_brk_SET_SUCC
  mem_brk_set_first_free mem_max_addr_PUT mem_max_addr_SET_PRED mem_max_addr_SET_SUCC
  mem_max_addr_set_first_free GET_PRED_set_first_free GET_SUCC_set_first_free
  GET_set_first_free : globals.

(** ** The nodes of a list *)

Lemma nodes_of_heap s bs l :
  Heap s bs -> (forall a, In a l -> free_in bs a) -> Nodes s l.
Proof.
  intros H F. destruct (heap_first _ _ H) as (p & bs' & E & Ep & Ap).
  pose proof (hp_base _ _ H). pose proof (hp_brk _ _ H).
  pose proof (hp_max32 _ _ H). pose proof (hp_max64 _ _ H).
  assert (R : forall a, In a l -> heap_listp s + 8 <= a /\ a + 24 <= mem_brk s).
  { intros a Ha. eapply free_in_heap; eauto. }
  constructor.
  - pose proof (contig_le _ _ _ (heap_pos _ _ H) (hp_contig _ _ H)). lia.
  - eapply free_in_spaced; eauto.
  - intros a Ha. destruct (R a Ha). unfold addr_ok. lia.
Qed.

Lemma nodes_sub s l l' : Nodes s l -> (forall a, In a l' -> In a l) -> Nodes s l'.
Proof.
  intros N F. destruct N as [B S O]. constructor; [assumption | | auto].
  intros a a' Ha Ha'. apply S; auto.
Qed.

Lemma nodes_same s s' l :
  heap_listp s' = heap_listp s -> Nodes s l -> Nodes s' l.
Proof.
  intros E N. destruct N as [B S O]. constructor; unfold addr_ok in *; rewrite ?E; auto.
Qed.

Ltac in_list :=
  repeat match goal with
         | H : context [In _ (_ ++ _)] |- _ => rewrite in_app_iff in H
         | H : context [In _ (_ :: _)] |- _ => progress cbn [In] in H
         end;
  cbn [In]; rewrite ?in_app_iff; cbn [In]; tauto.

Ltac spc N a b :=
  let H := fresh "SP" in
  assert (H : a = b \/ a + 8 <= b \/ b + 8 <= a)
    by (apply (nd_spaced _ _ N); in_list).

Ltac okk N a :=
  let H := fresh "OK" in
  pose proof (nd_ok _ _ N a ltac:(in_list)) as H; unfold addr_ok in H.

Ltac rng := autorewrite with globals; lia.
Ltac sp := unfold sep; lia.

Ltac rd :=
  autorewrite with globals;
  repeat first
    [ rewrite GET_PRED_SET_PRED by rng
    | rewrite GET_SUCC_SET_SUCC by rng
    | rewrite GET_PRED_SET_PRED_other by sp
    | rewrite GET_PRED_SET_SUCC_other by sp
    | rewrite GET_SUCC_SET_PRED_other by sp
    | rewrite GET_SUCC_SET_SUCC_other by sp
    | rewrite GET_PRED_set_first_free
    | rewrite GET_SUCC_set_first_free ].

(** ** The list operations *)

Lemma chain_cons_intro s prev a l nxt :
  GET_PRED s a = prev -> GET_SUCC s a = hd nxt l -> chain s a l nxt ->
  chain s prev (a :: l) nxt.
Proof. simpl. auto. Qed.

(** Pushing a node on the front: [freelist_add]. *)
Lemma freelist_add_list s fl bp :
  FreeList s fl -> Nodes s (bp :: fl) -> ~ In bp fl ->
  FreeList (freelist_add s bp) (bp :: fl).
Proof.
  intros [Hh Hc Hn] N Hni. pose proof (nd_base _ _ N) as B. okk N bp.
  unfold freelist_add. autorewrite with globals. rewrite Hh.
  destruct fl as [|f fl]; simpl hd.
  - rewrite Z.eqb_refl. constructor.
    + reflexivity.
    + simpl. rd. auto.
    + constructor; [assumption | constructor].
  - okk N f. destruct (Z.eqb_spec f (heap_listp s)) as [E|_]; [lia|].
    spc N f bp. assert (f <> bp) by (intros ->; apply Hni; left; reflexivity).
    apply NoDup_cons_iff in Hn as Hn'. destruct Hn' as [Hnf Hn'].
    constructor.
    + reflexivity.
    + apply chain_cons_intro; [rd; reflexivity | rd; reflexivity |].
      eapply chain_new_start; [| | |exact Hc].
      * intros a Ha. spc N a bp. spc N a f.
        assert (a <> bp) by (intros ->; contradiction).
        rd. reflexivity.
      * simpl. intros a Ha. spc N a bp. spc N a f.
        assert (a <> bp) by (intros ->; apply Hni; right; assumption).
        assert (a <> f) by (intros ->; contradiction).
        rd. reflexivity.
      * intros _. simpl. rd. reflexivity.
    + constructor; assumption.
Qed.

Lemma NoDup_app_disj {A} (l1 l2 : list A) a :
  NoDup (l1 ++ l2) -> In a l1 -> In a l2 -> False.
Proof.
  induction l1 as [|c l1 IH]; simpl; intros H H1 H2; [assumption|].
  apply NoDup_cons_iff in H as [Hc H]. destruct H1 as [-> | H1].
  - apply Hc. apply in_or_app. right. assumption.
  - auto.
Qed.

Lemma hd_In_ne (l : list Z) d : l <> [] -> In (hd d l) l.
Proof. destruct l; [congruence | left; reflexivity]. Qed.

(** Taking a node that is not the head out of the list. *)
Lemma unlink_list s l1 x l2 :
  FreeList s (l1 ++ x :: l2) -> Nodes s (l1 ++ x :: l2) -> l1 <> [] ->
  let p := last l1 (heap_listp s) in
  let sc := hd (heap_listp s) l2 in
  FreeList (if sc =? heap_listp s then SET_SUCC s p sc
            else SET_PRED (SET_SUCC s p sc) sc p) (l1 ++ l2).
Proof.
  intros [Hh Hc Hn] N Hne p sc. pose proof (nd_base _ _ N) as B.
  assert (Hp : In p l1) by (apply last_In; assumption).
  okk N p. okk N x.
  apply chain_app in Hc. destruct Hc as (C1 & Cx). cbn [hd] in C1.
  destruct Cx as (Px & Sx & C2). fold p in Px, C2. fold sc in Sx.
  pose proof (NoDup_remove_1 _ _ _ Hn) as Hn'.
  pose proof (NoDup_remove_2 _ _ _ Hn) as Hnx.
  assert (ND1 : NoDup l1) by (apply NoDup_app_remove_r in Hn'; assumption).
  assert (Hsc : l2 <> [] -> In sc l2 /\ sc <> heap_listp s /\ sc <> p).
  { intros Hl2. assert (In sc l2) by (apply hd_In_ne; assumption).
    okk N sc. split; [assumption|]. split; [lia|].
    intros E. rewrite E in H. exact (NoDup_app_disj _ _ _ Hn' Hp H). }
  set (s' := if sc =? heap_listp s then SET_SUCC s p sc else SET_PRED (SET_SUCC s p sc) sc p).
  assert (Ehl : heap_listp s' = heap_listp s) by (subst s'; destruct (sc =? heap_listp s); reflexivity).
  assert (Eff : first_free s' = first_free s) by (subst s'; destruct (sc =? heap_listp s); reflexivity).
  assert (Esc : sc = heap_listp s \/ l2 <> []).
  { subst sc. destruct l2; [left; reflexivity | right; discriminate]. }
  constructor.
  - rewrite Eff, Ehl, Hh. rewrite !hd_app. destruct l1; [congruence | reflexivity].
  - rewrite Ehl. apply chain_app. split.
    + eapply chain_new_end; [| | | exact ND1 | exact C1].
      * intros a Ha. spc N a p. subst s'.
        destruct (Z.eqb_spec sc (heap_listp s)) as [E|E]; [rd; reflexivity|].
        destruct Esc as [?|Hl2]; [contradiction|]. destruct (Hsc Hl2) as (Isc & _ & _).
        spc N a sc. assert (a <> sc) by (intros ->; exact (NoDup_app_disj _ _ _ Hn' Ha Isc)).
        rd. reflexivity.
      * fold p. intros a Ha Hap. spc N a p. subst s'.
        destruct (Z.eqb_spec sc (heap_listp s)) as [E|E]; [rd; reflexivity|].
        destruct Esc as [?|Hl2]; [contradiction|]. destruct (Hsc Hl2) as (Isc & _ & _).
        spc N a sc. assert (a <> sc) by (intros ->; exact (NoDup_app_disj _ _ _ Hn' Ha Isc)).
        rd. reflexivity.
      * fold p. intros _. subst s'.
        destruct (Z.eqb_spec sc (heap_listp s)) as [E|E]; [rd; reflexivity|].
        destruct Esc as [?|Hl2]; [contradiction|]. destruct (Hsc Hl2) as (Isc & _ & Np).
        spc N p sc. okk N sc. rd. reflexivity.
    + fold p. eapply chain_new_start; [| | | exact C2].
      * intros a Ha. spc N a p.
        assert (a <> p) by (intros ->; exact (NoDup_app_disj _ _ _ Hn' Hp Ha)).
        subst s'. destruct (Z.eqb_spec sc (heap_listp s)) as [E|E]; [rd; reflexivity|].
        destruct Esc as [?|Hl2]; [contradiction|]. destruct (Hsc Hl2) as (Isc & _ & _).
        spc N a sc. rd. reflexivity.
      * intros a Ha.
        assert (Ha' : In a l2) by (destruct l2; [contradiction | right; assumption]).
        spc N a p.
        assert (a <> p) by (intros ->; exact (NoDup_app_disj _ _ _ Hn' Hp Ha')).
        subst s'. destruct (Z.eqb_spec sc (heap_listp s)) as [E|E]; [rd; reflexivity|].
        destruct Esc as [?|Hl2]; [contradiction|]. destruct (Hsc Hl2) as (Isc & _ & _).
        spc N a sc.
        assert (a <> sc).
        { apply NoDup_app_remove_l in Hn'. subst sc. destruct l2 as [|c l2]; [contradiction|].
          simpl in *. apply NoDup_cons_iff in Hn' as [Hc _]. intros ->. contradiction. }
        rd. reflexivity.
      * intros Hl2. fold sc. destruct (Hsc Hl2) as (Isc & Nh & Np).
        subst s'. destruct (Z.eqb_spec sc (heap_listp s)) as [E|E]; [contradiction|].
        spc N p sc. okk N sc. rd. reflexivity.
  - assumption.
Qed.

(** Taking the head out of the list. *)
Lemma pop_list s x l2 :
  FreeList s (x :: l2) -> Nodes s (x :: l2) ->
  let sc := hd (heap_listp s) l2 in
  FreeList (if sc =? heap_listp s then set_first_free s sc
            else SET_PRED (set_first_free s sc) sc (heap_listp s)) l2.
Proof.
  intros [Hh Hc Hn] N sc. pose proof (nd_base _ _ N) as B.
  destruct Hc as (Px & Sx & C2). apply NoDup_cons_iff in Hn as [Hx Hn].
  destruct l2 as [|c l2].
  - simpl in sc. subst sc. rewrite Z.eqb_refl. constructor; [reflexivity | exact I | constructor].
  - simpl in sc. subst sc. okk N c.
    destruct (Z.eqb_spec c (heap_listp s)) as [E|E]; [lia|].
    constructor; [reflexivity | | assumption].
    autorewrite with globals.
    eapply chain_new_start; [| | | exact C2].
    + intros a Ha. spc N a c. rd. reflexivity.
    + simpl. intros a Ha. spc N a c.
      apply NoDup_cons_iff in Hn as [Hc _].
      assert (a <> c) by (intros ->; contradiction).
      rd. reflexivity.
    + intros _. simpl. rd. reflexivity.
Qed.

(** A new node takes the place of [x]. *)
Lemma replace_list s l1 x l2 nb :
  FreeList s (l1 ++ x :: l2) -> Nodes s (nb :: l1 ++ x :: l2) ->
  ~ In nb (l1 ++ x :: l2) ->
  let pred := last l1 (heap_listp s) in
  let succ := hd (heap_listp s) l2 in
  let s1 := SET_SUCC (SET_PRED s nb pred) nb succ in
  let s2 := if pred =? heap_listp s then s1 else SET_SUCC s1 pred nb in
  let s3 := if succ =? heap_listp s then s2 else SET_PRED s2 succ nb in
  FreeList (if x =? first_free s3 then set_first_free s3 nb else s3) (l1 ++ nb :: l2).
Proof.
  intros [Hh Hc Hn] N Hni pred succ s1 s2 s3. pose proof (nd_base _ _ N) as B.
  okk N nb. okk N x.
  apply chain_app in Hc. destruct Hc as (C1 & Cx). cbn [hd] in C1.
  destruct Cx as (Px & Sx & C2). fold pred in Px, C2. fold succ in Sx.
  pose proof (NoDup_remove_1 _ _ _ Hn) as Hn'.
  pose proof (NoDup_remove_2 _ _ _ Hn) as Hnx.
  assert (ND1 : NoDup l1) by (apply NoDup_app_remove_r in Hn'; assumption).
  assert (ND2 : NoDup l2) by (apply NoDup_app_remove_l in Hn'; assumption).
  assert (Hnb1 : ~ In nb l1) by (intros ?; apply Hni; in_list).
  assert (Hnb2 : ~ In nb l2) by (intros ?; apply Hni; in_list).
  assert (Hpred : (l1 = [] /\ pred = heap_listp s) \/
                  (l1 <> [] /\ In pred l1 /\ pred <> heap_listp s /\ pred <> nb)).
  { assert (l1 = [] \/ l1 <> []) as [E|E] by (destruct l1; [left|right]; congruence).
    - left. subst l1. auto.
    - right. assert (In pred l1) by (apply last_In; assumption). okk N pred.
      repeat split; [assumption | assumption | lia | intros E'; rewrite E' in H; contradiction]. }
  assert (Hsucc : (l2 = [] /\ succ = heap_listp s) \/
                  (l2 <> [] /\ In succ l2 /\ succ <> heap_listp s /\ succ <> nb)).
  { assert (l2 = [] \/ l2 <> []) as [E|E] by (destruct l2; [left|right]; congruence).
    - left. subst l2. auto.
    - right. assert (In succ l2) by (apply hd_In_ne; assumption). okk N succ.
      repeat split; [assumption | assumption | lia | intros E'; rewrite E' in H; contradiction]. }
  assert (Ehl : heap_listp s3 = heap_listp s).
  { subst s3 s2 s1. destruct (succ =? heap_listp s), (pred =? heap_listp s); reflexivity. }
  assert (Eff : first_free s3 = first_free s).
  { subst s3 s2 s1. destruct (succ =? heap_listp s), (pred =? heap_listp s); reflexivity. }
  assert (Rd : forall a, a <> nb -> In a (l1 ++ x :: l2) ->
     (a <> succ -> GET_PRED s3 a = GET_PRED s a) /\
     (a <> pred -> GET_SUCC s3 a = GET_SUCC s a)).
  { intros a Hanb Ha. spc N a nb.
    assert (SPp : pred = heap_listp s \/ (a = pred \/ a + 8 <= pred \/ pred + 8 <= a)).
    { destruct Hpred as [[_ ?]|(_ & ? & _)]; [left; assumption|right]. spc N a pred. assumption. }
    assert (SPs : succ = heap_listp s \/ (a = succ \/ a + 8 <= succ \/ succ + 8 <= a)).
    { destruct Hsucc as [[_ ?]|(_ & ? & _)]; [left; assumption|right]. spc N a succ. assumption. }
    subst s3 s2 s1.
    destruct (Z.eqb_spec succ (heap_listp s)), (Z.eqb_spec pred (heap_listp s));
      split; intros; rd; reflexivity. }
  assert (Rnb : GET_PRED s3 nb = pred /\ GET_SUCC s3 nb = succ).
  { assert (SPp : pred = heap_listp s \/ (nb = pred \/ nb + 8 <= pred \/ pred + 8 <= nb)).
    { destruct Hpred as [[_ ?]|(_ & ? & _)]; [left; assumption|right]. spc N nb pred. assumption. }
    assert (SPs : succ = heap_listp s \/ (nb = succ \/ nb + 8 <= succ \/ succ + 8 <= nb)).
    { destruct Hsucc as [[_ ?]|(_ & ? & _)]; [left; assumption|right]. spc N nb succ. assumption. }
    assert (OKp : heap_listp s <= pred /\ pred < heap_listp s + 2 ^ 32 /\ pred < 2 ^ 64).
    { destruct Hpred as [[_ ?]|(_ & ? & _)]; [lia|]. okk N pred. lia. }
    assert (OKs : heap_listp s <= succ /\ succ < heap_listp s + 2 ^ 32 /\ succ < 2 ^ 64).
    { destruct Hsucc as [[_ ?]|(_ & ? & _)]; [lia|]. okk N succ. lia. }
    assert (pred = heap_listp s \/ pred <> nb) by (destruct Hpred as [[_ ?]|(_ & _ & _ & ?)]; auto).
    assert (succ = heap_listp s \/ succ <> nb) by (destruct Hsucc as [[_ ?]|(_ & _ & _ & ?)]; auto).
    subst s3 s2 s1.
    destruct (Z.eqb_spec succ (heap_listp s)), (Z.eqb_spec pred (heap_listp s));
      split; rd; reflexivity. }
  set (s' := if x =? first_free s3 then set_first_free s3 nb else s3).
  assert (Ehl' : heap_listp s' = heap_listp s).
  { subst s'. destruct (x =? first_free s3); [autorewrite with globals|]; assumption. }
  assert (Rd' : forall a, GET_PRED s' a = GET_PRED s3 a /\ GET_SUCC s' a = GET_SUCC s3 a).
  { intros a. subst s'. destruct (x =? first_free s3); split; reflexivity. }
  constructor.
  - rewrite Ehl'. subst s'. rewrite Eff, Hh. rewrite !hd_app. cbn [hd].
    destruct l1 as [|c l1]; cbn [hd].
    + rewrite Z.eqb_refl. reflexivity.
    + destruct (Z.eqb_spec x c) as [E|E]; [|rewrite Eff, Hh; reflexivity].
      exfalso. apply Hnx. left. symmetry. assumption.
  - rewrite Ehl'. apply chain_app. cbn [hd]. split.
    + eapply chain_new_end; [| | | exact ND1 | exact C1].
      * intros a Ha. destruct (Rd' a) as [-> _].
        apply Rd; [intros ->; contradiction | in_list |].
        intros ->. destruct Hsucc as [[_ E]|(_ & I2 & _)].
        -- okk N succ. lia.
        -- exact (NoDup_app_disj _ _ _ Hn' Ha I2).
      * fold pred. intros a Ha Hap. destruct (Rd' a) as [_ ->].
        apply Rd; [intros ->; contradiction | in_list | assumption].
      * fold pred. intros Hl1. destruct (Rd' pred) as [_ ->].
        destruct Hpred as [[? _]|(_ & I1 & Nh & Nn)]; [contradiction|].
        assert (SPs : succ = heap_listp s \/ (pred = succ \/ pred + 8 <= succ \/ succ + 8 <= pred)).
        { destruct Hsucc as [[_ ?]|(_ & ? & _)]; [left; assumption|right]. spc N pred succ. assumption. }
        assert (succ = heap_listp s \/ succ <> pred).
        { destruct Hsucc as [[_ ?]|(_ & I2 & _)]; [auto|right].
          intros E. rewrite E in I2. exact (NoDup_app_disj _ _ _ Hn' I1 I2). }
        okk N pred. spc N pred nb.
        subst s3 s2 s1.
        destruct (Z.eqb_spec succ (heap_listp s)), (Z.eqb_spec pred (heap_listp s));
          try contradiction; rd; reflexivity.
    + apply chain_cons_intro.
      * destruct (Rd' nb) as [-> _]. apply Rnb.
      * destruct (Rd' nb) as [_ ->]. apply Rnb.
      * eapply chain_new_start; [| | | exact C2].
        -- intros a Ha. destruct (Rd' a) as [_ ->].
           apply Rd; [intros ->; contradiction | in_list |].
           intros ->. destruct Hpred as [[_ E]|(_ & I1 & _)].
           ++ okk N pred. lia.
           ++ exact (NoDup_app_disj _ _ _ Hn' I1 Ha).
        -- intros a Ha. destruct (Rd' a) as [-> _].
           assert (Ha' : In a l2) by (destruct l2; [contradiction | right; assumption]).
           apply Rd; [intros ->; contradiction | in_list |].
           intros ->. subst succ. destruct l2 as [|c l2]; [contradiction|].
           simpl in *. apply NoDup_cons_iff in ND2 as [Hc _]. contradiction.
        -- intros Hl2. fold succ. destruct (Rd' succ) as [-> _].
           destruct Hsucc as [[? _]|(_ & I2 & Nh & Nn)]; [contradiction|].
           assert (SPp : pred = heap_listp s \/ (pred = succ \/ pred + 8 <= succ \/ succ + 8 <= pred)).
           { destruct Hpred as [[_ ?]|(_ & ? & _)]; [left; assumption|right]. spc N pred succ. assumption. }
           okk N succ. spc N succ nb.
           subst s3 s2 s1.
           destruct (Z.eqb_spec succ (heap_listp s)), (Z.eqb_spec pred (heap_listp s));
             try contradiction; rd; reflexivity.
  - apply NoDup_remove in Hn as [Hn0 _].
    clear - Hn0 Hnb1 Hnb2. induction l1 as [|c l1 IH]; simpl in *.
    + constructor; assumption.
    + apply NoDup_cons_iff in Hn0 as [Hc Hn0]. constructor.
      * rewrite in_app_iff in *. simpl. intros [?|[?|?]]; [tauto | | tauto].
        apply Hnb1. left. symmetry. assumption.
      * apply IH; [assumption | tauto].
Qed.

(** A new node takes the place of the head (the list has a second node). *)
Lemma replace_head_list s bp l pv :
  FreeList s (bp :: l) -> Nodes s (pv :: bp :: l) -> ~ In pv (bp :: l) -> l <> [] ->
  let h := hd (heap_listp s) l in
  FreeList (SET_PRED (set_first_free (SET_SUCC (SET_PRED s pv (heap_listp s)) pv h) pv) h pv)
           (pv :: l).
Proof.
  intros [Hh Hc Hn] N Hni Hl h. pose proof (nd_base _ _ N) as B.
  destruct Hc as (Pb & Sb & C2). apply NoDup_cons_iff in Hn as [Hb Hn].
  assert (Ih : In h l) by (apply hd_In_ne; assumption).
  okk N pv. okk N h. spc N h pv.
  assert (h <> pv) by (intros E; apply Hni; right; rewrite <- E; assumption).
  constructor.
  - reflexivity.
  - autorewrite with globals. apply chain_cons_intro.
    + rd. reflexivity.
    + rd. destruct l; [congruence | reflexivity].
    + eapply chain_new_start; [| | | exact C2].
      * intros a Ha. spc N a pv. spc N a h.
        assert (a <> pv) by (intros E; apply Hni; right; rewrite <- E; assumption).
        rd. reflexivity.
      * intros a Ha.
        assert (Ha' : In a l) by (destruct l; [contradiction | right; assumption]).
        spc N a pv. spc N a h.
        assert (a <> pv) by (intros E; apply Hni; right; rewrite <- E; assumption).
        assert (a <> h).
        { subst h. destruct l as [|c l]; [contradiction|]. simpl in *.
          apply NoDup_cons_iff in Hn as [Hc _]. intros ->. contradiction. }
        rd. reflexivity.
      * intros _. fold h. rd. reflexivity.
  - constructor; [|assumption]. intros ?. apply Hni. right. assumption.
Qed.

Lemma chain_lookup s prev l1 x l2 nxt :
  chain s prev (l1 ++ x :: l2) nxt ->
  GET_PRED s x = last l1 prev /\ GET_SUCC s x = hd nxt l2.
Proof.
  intros H. apply chain_app in H. destruct H as (_ & P & S & _). auto.
Qed.

(** ** Writes confined to the link fields of a list of nodes *)

Lemma links_only_refl l s : links_only l s s.
Proof. repeat split. Qed.

Lemma links_only_trans l s1 s2 s3 :
  links_only l s1 s2 -> links_only l s2 s3 -> links_only l s1 s3.
Proof.
  intros (A1 & A2 & A3 & A4) (B1 & B2 & B3 & B4).
  repeat split; try congruence.
  intros q Hq. rewrite B4, A4 by assumption. reflexivity.
Qed.

Lemma links_only_SET_PRED l s a v : In a l -> links_only l s (SET_PRED s a v).
Proof.
  intros Ha. repeat split. intros q Hq. destruct (Hq a Ha) as [S1 _].
  unfold SET_PRED. apply GET_PUT_other. unfold sep in *. lia.
Qed.

Lemma links_only_SET_SUCC l s a v : In a l -> links_only l s (SET_SUCC s a v).
Proof.
  intros Ha. repeat split. intros q Hq. destruct (Hq a Ha) as [_ S1].
  unfold SET_SUCC, WSIZE. apply GET_PUT_other. unfold sep in *. lia.
Qed.

Lemma links_only_set_first_free l s x : links_only l s (set_first_free s x).
Proof. repeat split. Qed.

Lemma links_only_sub l l' s s' :
  (forall a, In a l -> In a l') -> links_only l s s' -> links_only l' s s'.
Proof.
  intros F (A1 & A2 & A3 & A4). repeat split; try assumption.
  intros q Hq. apply A4. intros a Ha. apply Hq. auto.
Qed.

(** The link fields of free blocks are clear of every boundary word. *)
Lemma heap_links_only s s' bs l :
  Heap s bs -> (forall a, In a l -> free_in bs a) -> links_only l s s' -> Heap s' bs.
Proof.
  intros H F (A1 & A2 & A3 & A4).
  apply (heap_same s); try assumption.
  - intros b Hb. destruct (heap_In _ _ _ H Hb) as (O & _).
    pose proof (blk_ok_pos _ _ O) as Pb.
    split; apply A4; intros a Ha; destruct (F a Ha) as (c & Hc & <- & Fc);
      destruct (heap_In _ _ _ H Hc) as (Oc & _);
      destruct Oc as (_ & _ & _ & _ & S24 & Hn); specialize (S24 (Hn Fc));
      (destruct (heap_sep _ _ _ _ H Hb Hc) as [-> | D]; unfold sep; lia).
  - apply A4. intros a Ha. destruct (F a Ha) as (c & Hc & <- & Fc).
    destruct (heap_In _ _ _ H Hc) as (Oc & _ & U).
    destruct Oc as (_ & _ & _ & _ & S24 & Hn). specialize (S24 (Hn Fc)).
    unfold sep. lia.
Qed.

Ltac lo_step :=
  lazymatch goal with
  | |- links_only _ ?s ?s => apply links_only_refl
  | |- links_only _ _ (set_first_free _ _) =>
      eapply links_only_trans; [| apply links_only_set_first_free ]
  | |- links_only _ _ (SET_PRED _ _ _) =>
      eapply links_only_trans; [| apply links_only_SET_PRED; in_list ]
  | |- links_only _ _ (SET_SUCC _ _ _) =>
      eapply links_only_trans; [| apply links_only_SET_SUCC; in_list ]
  end.

Ltac lo := repeat lo_step.

(** ** The relinks of [coalesce] *)

(** Merging with the next block: its node leaves the list. *)
Lemma relink_next_list s bp l1 nx l2 :
  FreeList s (bp :: l1 ++ nx :: l2) -> Nodes s (bp :: l1 ++ nx :: l2) ->
  NEXT_BLKP s bp = nx ->
  FreeList (relink s bp false) (bp :: l1 ++ l2) /\
  links_only (bp :: l1 ++ nx :: l2) s (relink s bp false).
Proof.
  intros FL N En.
  pose proof (fl_chain _ _ FL) as C. pose proof (fl_nodup _ _ FL) as ND.
  destruct (chain_lookup s _ (bp :: l1) nx l2 _ C) as [Pn Sn].
  pose proof (unlink_list s (bp :: l1) nx l2 FL N ltac:(discriminate)) as U.
  cbv zeta in U.
  assert (Sb : GET_SUCC s bp = hd (heap_listp s) (l1 ++ nx :: l2)) by (destruct C as (_ & ? & _); assumption).
  set (p := last (bp :: l1) (heap_listp s)) in *.
  set (sc := hd (heap_listp s) l2) in *.
  assert (Ip : In p (bp :: l1)) by (apply last_In; discriminate).
  assert (Isc : sc = heap_listp s \/ In sc l2).
  { subst sc. destruct l2; [left; reflexivity | right; left; reflexivity]. }
  assert (E : relink s bp false =
              if sc =? heap_listp s then SET_SUCC s p sc else SET_PRED (SET_SUCC s p sc) sc p).
  { unfold relink. rewrite En, Sb. destruct l1 as [|c l1]; cbn [hd app].
    - rewrite Z.eqb_refl. unfold are_adjacent. rewrite Sb. cbn [hd app]. rewrite Sn.
      reflexivity.
    - destruct (Z.eqb_spec c nx) as [Ec|Ec].
      + exfalso. apply NoDup_cons_iff in ND as [_ ND]. simpl in ND.
        apply NoDup_cons_iff in ND as [ND _]. apply ND. rewrite Ec. in_list.
      + unfold not_adjacent. rewrite En, Pn, Sn. reflexivity. }
  rewrite E. split; [exact U|].
  destruct (sc =? heap_listp s) eqn:Esc.
  - lo.
  - destruct Isc as [Isc|Isc]; [apply Z.eqb_neq in Esc; contradiction|]. lo.
Qed.

(** Merging with the previous block: its node becomes the head and the
    node of [bp] leaves the list. *)
Lemma relink_prev_list s bp l1 pv l2 :
  FreeList s (bp :: l1 ++ pv :: l2) -> Nodes s (bp :: l1 ++ pv :: l2) ->
  PREV_BLKP s bp = pv ->
  FreeList (relink s bp true) (pv :: l1 ++ l2) /\
  links_only (bp :: l1 ++ pv :: l2) s (relink s bp true).
Proof.
  intros FL N En. pose proof (nd_base _ _ N) as B.
  pose proof (fl_chain _ _ FL) as C. pose proof (fl_nodup _ _ FL) as ND.
  pose proof (fl_head _ _ FL) as Hh.
  destruct (chain_lookup s _ (bp :: l1) pv l2 _ C) as [Pn Sn].
  assert (Sb : GET_SUCC s bp = hd (heap_listp s) (l1 ++ pv :: l2)) by (destruct C as (_ & ? & _); assumption).
  unfold relink. rewrite En, Sb.
  destruct l1 as [|c l1]; cbn [hd app] in *.
  - rewrite Z.eqb_refl. unfold are_adjacent. rewrite Sb.
    pose proof (pop_list s bp (pv :: l2) FL N) as P. cbv zeta in P. cbn [hd] in P.
    okk N pv. destruct (Z.eqb_spec pv (heap_listp s)) as [?|_]; [lia|].
    split; [exact P|]. lo.
  - destruct (Z.eqb_spec c pv) as [Ec|Ec].
    { exfalso. apply NoDup_cons_iff in ND as [_ ND]. simpl in ND.
      apply NoDup_cons_iff in ND as [ND _]. apply ND. rewrite Ec. in_list. }
    unfold not_adjacent. rewrite En.
    set (p := last (bp :: c :: l1) (heap_listp s)) in *.
    set (sc := hd (heap_listp s) l2) in *.
    assert (Ip : In p (c :: l1)).
    { subst p. rewrite last_cons. apply last_In. discriminate. }
    assert (Isc : sc = heap_listp s \/ In sc l2).
    { subst sc. destruct l2; [left; reflexivity | right; left; reflexivity]. }
    assert (Npv : ~ In pv (bp :: c :: l1)).
    { intros I. apply (NoDup_remove_2 (bp :: c :: l1) l2 pv ND).
      apply in_or_app. left. assumption. }
    okk N p. okk N pv. spc N p pv.
    assert (p <> pv) by (intros E; apply Npv; right; rewrite <- E; assumption).
    rewrite Pn, Sn. rd. rewrite ?Pn, ?Sn.
    pose proof (unlink_list s (bp :: c :: l1) pv l2 FL N ltac:(discriminate)) as U.
    cbv zeta in U. fold p sc in U.
    set (s2 := if sc =? heap_listp s then SET_SUCC s p sc else SET_PRED (SET_SUCC s p sc) sc p) in *.
    assert (Ehl : heap_listp s2 = heap_listp s) by (subst s2; destruct (sc =? heap_listp s); reflexivity).
    assert (N2 : Nodes s2 (pv :: bp :: (c :: l1) ++ l2)).
    { apply (nodes_same s); [assumption|]. apply (nodes_sub _ _ _ N). intros a. in_list. }
    assert (Ni : ~ In pv (bp :: (c :: l1) ++ l2)).
    { exact (NoDup_remove_2 (bp :: c :: l1) l2 pv ND). }
    pose proof (replace_head_list s2 bp ((c :: l1) ++ l2) pv U N2 Ni ltac:(discriminate)) as R.
    cbv zeta in R. cbn [hd app] in R.
    assert (Sb2 : GET_SUCC s2 bp = c).
    { destruct (fl_chain _ _ U) as (_ & ? & _). assumption. }
    rewrite Ehl.
    assert (E3 : GET_SUCC (SET_PRED s2 pv (heap_listp s)) bp = c).
    { spc N bp pv. assert (bp <> pv) by (intros E; apply Npv; left; assumption).
      rd. assumption. }
    rewrite E3.
    assert (E4 : GET_SUCC (SET_SUCC (SET_PRED s2 pv (heap_listp s)) pv c) bp = c).
    { spc N bp pv. assert (bp <> pv) by (intros E; apply Npv; left; assumption).
      rd. assumption. }
    rewrite E4. autorewrite with globals.
    rewrite Ehl in R. split; [exact R|].
    assert (L2 : links_only (bp :: (c :: l1) ++ pv :: l2) s s2).
    { subst s2. destruct (sc =? heap_listp s) eqn:Esc.
      - lo.
      - destruct Isc as [Isc|Isc]; [apply Z.eqb_neq in Esc; contradiction|]. lo. }
    eapply links_only_trans; [exact L2|]. lo.
Qed.

(** ** Free addresses *)

Lemma free_addrs_app l1 l2 : free_addrs (l1 ++ l2) = free_addrs l1 ++ free_addrs l2.
Proof. unfold free_addrs. rewrite filter_app, map_app. reflexivity. Qed.

Lemma free_addrs_cons b l :
  free_addrs (b :: l) = if balloc b then free_addrs l else baddr b :: free_addrs l.
Proof. unfold free_addrs. simpl. destruct (balloc b); reflexivity. Qed.

Lemma free_addrs_In bs a : In a (free_addrs bs) <-> free_in bs a.
Proof.
  unfold free_addrs, free_in. rewrite in_map_iff. split.
  - intros (b & E & H). apply filter_In in H as [H1 H2].
    exists b. repeat split; try assumption. destruct (balloc b); [discriminate | reflexivity].
  - intros (b & H & E & F). exists b. split; [assumption|].
    apply filter_In. split; [assumption|]. rewrite F. reflexivity.
Qed.

Lemma fidelity_In bs fl a : fidelity bs fl -> (In a fl <-> free_in bs a).
Proof.
  intros P. rewrite <- free_addrs_In. split; apply Permutation_in; [|symmetry]; assumption.
Qed.

Lemma nodes_of_rep s bs fl : Heap s bs -> fidelity bs fl -> Nodes s fl.
Proof.
  intros H F. apply (nodes_of_heap s bs); [assumption|].
  intros a Ha. apply (fidelity_In _ _ _ F). assumption.
Qed.

(** ** Replacing a run of blocks *)

Lemma heap_replace s s' L mid mid' R a e :
  Heap s (L ++ mid ++ R) -> L <> [] ->
  contig (heap_listp s) L a -> contig a mid e -> contig a mid' e ->
  heap_listp s' = heap_listp s -> mem_brk s' = mem_brk s ->
  mem_max_addr s' = mem_max_addr s ->
  (forall q, q + 8 <= a \/ e - 4 <= q -> GET s' q = GET s q) ->
  Forall (blk_ok s') mid' ->
  Heap s' (L ++ mid' ++ R).
Proof.
  intros H HL CL Cm Cm' E1 E2 E3 F Om.
  pose proof (heap_pos _ _ H) as Pos.
  pose proof (hp_contig _ _ H) as C.
  apply contig_app in C as (c1 & C1 & C). apply contig_app in C as (c2 & C2 & C3).
  assert (c1 = a) by (eapply contig_fun; eauto). subst c1.
  assert (c2 = e) by (eapply contig_fun; eauto). subst c2.
  rewrite !Forall_app in Pos. destruct Pos as (PL & Pm & PR).
  pose proof (hp_blocks _ _ H) as OB. rewrite !Forall_app in OB. destruct OB as (OL & _ & OR).
  pose proof (contig_le _ _ _ PR C3) as LeR.
  assert (RL : forall b, In b L -> blk_ok s b /\ baddr b + bsize b <= a).
  { intros b Hb. destruct (contig_In _ _ _ _ PL C1 Hb). rewrite Forall_forall in OL. auto. }
  assert (RR : forall b, In b R -> blk_ok s b /\ e <= baddr b).
  { intros b Hb. destruct (contig_In _ _ _ _ PR C3 Hb). rewrite Forall_forall in OR. auto. }
  destruct H as [B0 B1 B2 B3 _ _ _ Ep].
  constructor; rewrite ?E1, ?E2, ?E3; try assumption.
  - destruct L; [congruence | discriminate].
  - apply contig_app. exists a. split; [assumption|].
    apply contig_app. exists e. split; assumption.
  - rewrite !Forall_app. repeat split; [| assumption |].
    + apply Forall_forall. intros b Hb. destruct (RL b Hb) as [O ?].
      assert (8 <= bsize b) by (destruct O as (_ & _ & ? & _); assumption).
      apply (blk_ok_same s); [assumption | | | assumption]; apply F; lia.
    + apply Forall_forall. intros b Hb. destruct (RR b Hb) as [O ?].
      assert (8 <= bsize b) by (destruct O as (_ & _ & ? & _); assumption).
      apply (blk_ok_same s); [assumption | | | assumption]; apply F; lia.
  - rewrite F by lia. assumption.
Qed.

(** The blocks before and after a block of the heap lie apart from it. *)
Lemma heap_around s L B R b :
  Heap s (L ++ B :: R) -> In b (L ++ R) ->
  baddr b + bsize b <= baddr B \/ baddr B + bsize B <= baddr b.
Proof.
  intros H Hb. pose proof (heap_pos _ _ H) as Pos. pose proof (hp_contig _ _ H) as C.
  apply contig_split in C as [C1 C2].
  rewrite Forall_app in Pos. destruct Pos as [PL PR]. apply Forall_cons_iff in PR as [_ PR].
  apply in_app_or in Hb as [Hb|Hb].
  - left. destruct (contig_In _ _ _ _ PL C1 Hb). lia.
  - right. destruct (contig_In _ _ _ _ PR C2 Hb). lia.
Qed.

(** ** Coalescedness of concatenations *)

Lemma coalesced_cons b l :
  coalesced (b :: l) <->
  (balloc b = true \/ balloc (hd dummy l) = true) /\ coalesced l.
Proof.
  destruct l as [|c l]; simpl; [|reflexivity].
  split; [intros _; split; [right; reflexivity | exact I] | auto].
Qed.

Lemma coalesced_app l1 l2 :
  coalesced (l1 ++ l2) <->
  coalesced l1 /\ coalesced l2 /\
  (balloc (last l1 dummy) = true \/ balloc (hd dummy l2) = true).
Proof.
  induction l1 as [|b l1 IH].
  - simpl. split; [intros H; repeat split; auto | intros (_ & H & _); exact H].
  - change ((b :: l1) ++ l2) with (b :: (l1 ++ l2)).
    rewrite !coalesced_cons, IH, hd_app, last_cons.
    destruct l1 as [|c l1].
    + simpl. tauto.
    + cbn [hd]. rewrite (last_cons c l1 b), (last_cons c l1 dummy). tauto.
Qed.

Lemma contig_mod8 a l e :
  Forall (fun b => bsize b mod 8 = 0) l -> contig a l e -> (e - a) mod 8 = 0.
Proof.
  revert a. induction l as [|b l IH]; intros a F; simpl.
  - intros ->. rewrite Z.sub_diag. reflexivity.
  - intros [_ C]. apply Forall_cons_iff in F as [Hb F].
    specialize (IH _ F C). Z.div_mod_to_equations. lia.
Qed.

Lemma FreeList_same s s' fl :
  heap_listp s' = heap_listp s -> first_free s' = first_free s ->
  (forall a, In a fl -> GET s' a = GET s a /\ GET s' (a + 4) = GET s (a + 4)) ->
  FreeList s fl -> FreeList s' fl.
Proof.
  intros E1 E2 F [Hh Hc Hn]. constructor; rewrite ?E1, ?E2; try assumption.
  eapply chain_same; [|exact Hc].
  intros a Ha. destruct (F a Ha) as [F1 F2].
  unfold GET_PRED, GET_SUCC, COMP_ADDRESS, WSIZE. rewrite E1, F1, F2. auto.
Qed.

(** The free blocks outside a span keep their link fields clear of the
    words of the span. *)
Lemma span_sep s L mid R a e x q :
  Heap s (L ++ mid ++ R) -> contig (heap_listp s) L a -> contig a mid e ->
  In x (free_addrs L ++ free_addrs R) -> a - 4 <= q -> q <= e - 8 ->
  sep q x /\ sep q (x + 4).
Proof.
  intros H CL Cm Hx Lq Uq.
  pose proof (heap_pos _ _ H) as Pos. pose proof (hp_contig _ _ H) as C.
  apply contig_app in C as (c1 & C1 & C). apply contig_app in C as (c2 & C2 & C3).
  assert (c1 = a) by (eapply contig_fun; eauto). subst c1.
  assert (c2 = e) by (eapply contig_fun; eauto). subst c2.
  rewrite !Forall_app in Pos. destruct Pos as (PL & Pm & PR).
  apply in_app_or in Hx as [Hx|Hx]; apply free_addrs_In in Hx as (b & Hb & <- & Fb).
  - destruct (heap_In s _ b H) as (O & _); [in_list|].
    destruct (contig_In _ _ _ _ PL C1 Hb).
    destruct O as (_ & _ & _ & _ & S24 & Hn). specialize (S24 (Hn Fb)).
    unfold sep. lia.
  - destruct (contig_In _ _ _ _ PR C3 Hb). unfold sep. lia.
Qed.

(** The span of a non-empty run of blocks that does not start at the
    prologue. *)
Lemma span_size s L mid R a e :
  Heap s (L ++ mid ++ R) -> L <> [] -> mid <> [] ->
  contig (heap_listp s) L a -> contig a mid e ->
  heap_listp s < a /\ 24 <= e - a /\ (e - a) mod 8 = 0 /\ e <= mem_brk s.
Proof.
  intros H HL Hm CL Cm.
  pose proof (heap_pos _ _ H) as Pos. pose proof (hp_contig _ _ H) as C.
  apply contig_app in C as (c1 & C1 & C). apply contig_app in C as (c2 & C2 & C3).
  assert (c1 = a) by (eapply contig_fun; eauto). subst c1.
  assert (c2 = e) by (eapply contig_fun; eauto). subst c2.
  rewrite !Forall_app in Pos. destruct Pos as (PL & Pm & PR).
  assert (La : heap_listp s < a).
  { destruct L as [|b L]; [congruence|]. destruct C1 as [Eb C1].
    apply Forall_cons_iff in PL as [Pb PL]. apply contig_le in C1; [lia | assumption]. }
  split; [assumption|].
  assert (Om : Forall (blk_ok s) mid).
  { pose proof (hp_blocks _ _ H) as OB. rewrite !Forall_app in OB. tauto. }
  split; [|split].
  - destruct mid as [|b mid]; [congruence|]. destruct C2 as [Eb C2].
    apply Forall_cons_iff in Pm as [Pb Pm]. apply Forall_cons_iff in Om as [Ob Om].
    destruct Ob as (_ & _ & _ & _ & S24 & _).
    apply contig_le in C2; [lia | assumption].
  - apply (contig_mod8 a mid); [|assumption].
    eapply Forall_impl; [|exact Om]. intros b (_ & _ & _ & ? & _). assumption.
  - apply (contig_le _ _ _ PR C3).
Qed.

(** ** Merging a run of blocks into one free block *)

Lemma merge_rep s s' L mid R a e fl :
  Heap s (L ++ mid ++ R) -> L <> [] -> mid <> [] ->
  contig (heap_listp s) L a -> contig a mid e ->
  FreeList s (a :: fl) ->
  Permutation (a :: fl) (free_addrs (L ++ mkBlock a (e - a) false :: R)) ->
  heap_listp s' = heap_listp s -> mem_brk s' = mem_brk s ->
  mem_max_addr s' = mem_max_addr s -> first_free s' = first_free s ->
  (forall q, sep q (a - 4) -> sep q (e - 8) -> GET s' q = GET s q) ->
  GET s' (a - 4) = e - a -> GET s' (e - 8) = e - a ->
  Rep s' (L ++ mkBlock a (e - a) false :: R) (a :: fl).
Proof.
  intros H HL Hm CL Cm FL P E1 E2 E3 E4 F Gh Gf.
  destruct (span_size _ _ _ _ _ _ H HL Hm CL Cm) as (La & S24 & S8 & Ue).
  constructor.
  - apply (heap_replace s s' L mid [mkBlock a (e - a) false] R a e); try assumption.
    + simpl. split; [reflexivity | lia].
    + intros q Hq. apply F; unfold sep; lia.
    + constructor; [|constructor]. unfold blk_ok, tag. simpl.
      rewrite E1. replace (a + (e - a) - 8) with (e - 8) by lia.
      rewrite Gh, Gf. repeat split; try lia; try assumption.
  - apply (FreeList_same s); try assumption.
    intros x Hx.
    assert (Hs : forall q, q = a - 4 \/ q = e - 8 -> sep q x /\ sep q (x + 4)).
    { intros q Hq. destruct Hx as [<- | Hx].
      - unfold sep. lia.
      - apply (span_sep s L mid R a e); try assumption; try lia.
        pose proof (fl_nodup _ _ FL) as ND. apply NoDup_cons_iff in ND as [Na _].
        assert (I : In x (free_addrs (L ++ mkBlock a (e - a) false :: R))).
        { eapply Permutation_in; [exact P|]. right. assumption. }
        rewrite free_addrs_app, free_addrs_cons in I. simpl in I.
        apply in_app_or in I as [I | [I | I]]; apply in_or_app; auto.
        subst x. contradiction. }
    destruct (Hs (a - 4)) as [A1 A2]; [auto|].
    destruct (Hs (e - 8)) as [A3 A4]; [auto|].
    unfold sep in *. split; apply F; unfold sep; lia.
  - exact P.
Qed.

Lemma links_only_globals l s s' : links_only l s s' -> same_globals s s'.
Proof. intros (A & B & C & _). repeat split; assumption. Qed.

(** ** The neighbours of a block *)

Lemma nbhd s L P B R :
  Heap s ((L ++ [P]) ++ B :: R) ->
  baddr P + bsize P = baddr B /\ blk_ok s P /\ blk_ok s B /\
  contig (heap_listp s) L (baddr P) /\
  contig (baddr B + bsize B) R (mem_brk s) /\
  Forall (blk_ok s) R.
Proof.
  intros H. pose proof (hp_contig _ _ H) as C. pose proof (hp_blocks _ _ H) as O.
  apply contig_split in C as [C1 C2]. apply contig_split in C1 as [C0 C1].
  simpl in C1. rewrite !Forall_app in O. destruct O as ((_ & OP) & OB).
  apply Forall_cons_iff in OP as [OP _]. apply Forall_cons_iff in OB as [OB OR].
  exact (conj C1 (conj OP (conj OB (conj C0 (conj C2 OR))))).
Qed.

Lemma GET_SIZE_PUT_same s p sz :
  0 <= sz < 2 ^ 32 -> sz mod 8 = 0 -> GET_SIZE (PUT s p (PACK sz 0)) p = sz.
Proof.
  intros R M. unfold GET_SIZE. rewrite GET_PUT_same, PACK_0.
  unfold wrap32 at 1. rewrite Z.mod_small by assumption.
  replace sz with (sz + 0) at 1 by lia. apply size_of_word; lia.
Qed.

Lemma GET_PUT_PACK_0 s p sz : 0 <= sz < 2 ^ 32 -> GET (PUT s p (PACK sz 0)) p = sz.
Proof.
  intros R. rewrite GET_PUT_same, PACK_0. apply Z.mod_small. assumption.
Qed.

Lemma wrap64_small x : 0 <= x < 2 ^ 64 -> wrap64 x = x.
Proof. apply Z.mod_small. Qed.

Lemma wrap32_small x : 0 <= x < 2 ^ 32 -> wrap32 x = x.
Proof. apply Z.mod_small. Qed.

(** The node of the next block leaves the list. *)
Lemma relink_next_rep s X B N R fl :
  Heap s (X ++ B :: N :: R) -> FreeList s (baddr B :: fl) ->
  Permutation (baddr B :: fl) (free_addrs (X ++ B :: N :: R)) ->
  balloc B = false -> balloc N = false ->
  exists g, FreeList (relink s (baddr B) false) (baddr B :: g) /\
            Heap (relink s (baddr B) false) (X ++ B :: N :: R) /\
            Permutation (baddr B :: g) (free_addrs X ++ baddr B :: free_addrs R) /\
            first_free (relink s (baddr B) false) = baddr B /\
            same_globals s (relink s (baddr B) false).
Proof.
  intros H FL P FB FN.
  pose proof (nodes_of_rep _ _ _ H P) as Nd.
  pose proof (hp_contig _ _ H) as C. apply contig_split in C as [C1 C2].
  destruct C2 as [EN C2].
  destruct (heap_In s _ B H ltac:(in_list)) as (OB & _).
  destruct (heap_In s _ N H ltac:(in_list)) as (ON & _).
  pose proof (blk_ok_pos _ _ OB) as PB.
  assert (IN : In (baddr N) fl).
  { assert (I : In (baddr N) (baddr B :: fl)).
    { apply (fidelity_In _ _ _ P). exists N. repeat split; [in_list | assumption]. }
    destruct I as [E|I]; [lia | assumption]. }
  destruct (in_split _ _ IN) as (f1 & f2 & Efl). subst fl.
  destruct (relink_next_list s (baddr B) f1 (baddr N) f2 FL Nd) as [FL1 LO].
  { rewrite (blk_NEXT s B OB). lia. }
  exists (f1 ++ f2). split; [assumption|]. split; [|split; [|split]].
  - eapply heap_links_only; [exact H | | exact LO].
    intros a Ha. apply (fidelity_In _ _ _ P). assumption.
  - rewrite free_addrs_app, !free_addrs_cons, FB, FN in P.
    assert (Q : Permutation ((baddr B :: f1) ++ baddr N :: f2)
                            ((free_addrs X ++ [baddr B]) ++ baddr N :: free_addrs R)).
    { rewrite <- app_assoc. exact P. }
    apply Permutation_app_inv in Q. rewrite <- app_assoc in Q. exact Q.
  - rewrite (fl_head _ _ FL1). reflexivity.
  - exact (links_only_globals _ _ _ LO).
Qed.

(** The node of the previous block becomes the head in place of [bp]. *)
Lemma relink_prev_rep s L P B R fl Y :
  Heap s ((L ++ [P]) ++ B :: R) -> FreeList s (baddr B :: fl) ->
  Permutation (baddr B :: fl) (free_addrs L ++ baddr P :: baddr B :: Y) ->
  (forall a, In a fl -> free_in ((L ++ [P]) ++ B :: R) a) ->
  balloc B = false -> balloc P = false ->
  exists g, FreeList (relink s (baddr B) true) (baddr P :: g) /\
            Heap (relink s (baddr B) true) ((L ++ [P]) ++ B :: R) /\
            Permutation (baddr P :: g) (free_addrs L ++ baddr P :: Y) /\
            first_free (relink s (baddr B) true) = baddr P /\
            same_globals s (relink s (baddr B) true).
Proof.
  intros H FL Pm Fin FB FP.
  assert (Fin' : forall a, In a (baddr B :: fl) -> free_in ((L ++ [P]) ++ B :: R) a).
  { intros a [<- | Ha]; [|auto]. exists B. repeat split; [in_list | assumption]. }
  pose proof (nodes_of_heap _ _ _ H Fin') as Nd.
  destruct (nbhd _ _ _ _ _ H) as (EP & OP & OB & _).
  pose proof (blk_ok_pos _ _ OP) as PP.
  assert (IP : In (baddr P) fl).
  { assert (I : In (baddr P) (baddr B :: fl)).
    { eapply Permutation_in; [symmetry; exact Pm|]. in_list. }
    destruct I as [E|I]; [lia | assumption]. }
  destruct (in_split _ _ IP) as (f1 & f2 & Efl). subst fl.
  destruct (relink_prev_list s (baddr B) f1 (baddr P) f2 FL Nd) as [FL1 LO].
  { apply (blk_PREV s P); [assumption | lia]. }
  exists (f1 ++ f2). split; [assumption|]. split; [|split; [|split]].
  - eapply heap_links_only; [exact H | exact Fin' | exact LO].
  - assert (Q : Permutation (f1 ++ baddr P :: f2) (free_addrs L ++ baddr P :: Y)).
    { assert (Q : Permutation ([] ++ baddr B :: f1 ++ baddr P :: f2)
                              ((free_addrs L ++ [baddr P]) ++ baddr B :: Y)).
      { rewrite <- app_assoc. exact Pm. }
      apply Permutation_app_inv in Q. rewrite <- app_assoc in Q. exact Q. }
    etransitivity; [|exact Q]. apply Permutation_middle.
  - rewrite (fl_head _ _ FL1). reflexivity.
  - exact (links_only_globals _ _ _ LO).
Qed.

(** ** Coalescing *)

Lemma same_globals_refl s : same_globals s s.
Proof. repeat split. Qed.

Lemma same_globals_trans s1 s2 s3 :
  same_globals s1 s2 -> same_globals s2 s3 -> same_globals s1 s3.
Proof. unfold same_globals. intuition congruence. Qed.

Lemma same_globals_PUT s p v : same_globals s (PUT s p v).
Proof. repeat split. Qed.

Lemma heap_size_bound s bs b :
  Heap s bs -> In b bs -> 0 < bsize b /\ baddr b + bsize b < heap_listp s + 2 ^ 32.
Proof.
  intros H Hb. destruct (heap_In _ _ _ H Hb) as (O & Lb & Ub).
  pose proof (hp_brk _ _ H). pose proof (hp_max32 _ _ H).
  apply blk_ok_pos in O. lia.
Qed.

Lemma mod8_add a b : a mod 8 = 0 -> b mod 8 = 0 -> (a + b) mod 8 = 0.
Proof. intros. Z.div_mod_to_equations. lia. Qed.

Lemma blk_mod8 s b : blk_ok s b -> bsize b mod 8 = 0.
Proof. intros (_ & _ & _ & ? & _). assumption. Qed.

Lemma blk_free_size s b : blk_ok s b -> balloc b = false -> 24 <= bsize b.
Proof. intros (_ & _ & _ & _ & S & N) F. auto. Qed.

Lemma blk_min_size s b : blk_ok s b -> 8 <= bsize b.
Proof. intros (_ & _ & ? & _). assumption. Qed.

Lemma coalesce_rep s L P B R fl :
  Rep s ((L ++ [P]) ++ B :: R) (baddr B :: fl) -> balloc B = false ->
  coalesced (L ++ [P]) -> coalesced R ->
  coalesce_post s ((L ++ [P]) ++ B :: R) B (coalesce s (baddr B)).
Proof.
  intros [H FL Pm] FB CL CR. unfold fidelity in Pm.
  destruct (nbhd _ _ _ _ _ H) as (EP & OP & OB & C0 & CRt & OR).
  set (bp := baddr B) in *. set (sz := bsize B) in *.
  assert (R1 : PREV_BLKP s bp = baddr P) by (apply (blk_PREV s P); [assumption | lia]).
  assert (R2 : FTRP s (baddr P) = baddr P + bsize P - 8) by (apply blk_FTRP; assumption).
  assert (R3 : GET_ALLOC s (baddr P + bsize P - 8) = if balloc P then 1 else 0)
    by (apply (blk_alloc_ftr s P); auto).
  assert (R4 : NEXT_BLKP s bp = bp + sz) by (apply (blk_NEXT s B); assumption).
  assert (R5 : GET_SIZE s (HDRP bp) = sz) by (apply (blk_size_hdr s B); auto).
  assert (R6 : GET_ALLOC s (HDRP (bp + sz)) = if balloc (hd dummy R) then 1 else 0).
  { destruct R as [|N R'].
    - simpl in CRt. unfold GET_ALLOC, HDRP, WSIZE. rewrite CRt, (hp_epilogue _ _ H). reflexivity.
    - destruct CRt as [EN _]. apply Forall_cons_iff in OR as [ON _].
      apply (blk_alloc_hdr s N); [assumption|]. unfold HDRP, WSIZE. simpl. lia. }
  destruct (heap_size_bound s _ B H ltac:(in_list)) as [PB UB].
  destruct (heap_size_bound s _ P H ltac:(in_list)) as [PP UP].
  pose proof (hp_base _ _ H) as Hb0.
  pose proof (blk_free_size _ _ OB FB) as SB.
  pose proof (blk_min_size _ _ OP) as SP.
  destruct (heap_In s _ B H ltac:(in_list)) as (_ & LB & _).
  destruct (heap_In s _ P H ltac:(in_list)) as (_ & LP & _).
  unfold coalesce. rewrite R1, R2, R3, R4, R5, R6.
  destruct (balloc P) eqn:AP, (balloc (hd dummy R)) eqn:AN; cbn [nz Z.eqb negb andb fst snd].
  - (* Case 1 *)
    exists ((L ++ [P]) ++ B :: R), (bp :: fl), B. cbn [fst snd].
    split; [constructor; assumption|]. split.
    { apply coalesced_app. split; [assumption|]. split.
      - apply coalesced_cons. split; [right|]; assumption.
      - left. rewrite last_last. assumption. }
    repeat split; auto; try in_list; try lia.
    exact (fl_head _ _ FL).
  - (* Case 2 *)
    destruct R as [|N R']; [discriminate|]. cbn [hd] in AN.
    destruct CRt as [EN CRt]. apply Forall_cons_iff in OR as [ON OR].
    destruct (heap_size_bound s _ N H ltac:(in_list)) as [PN UN].
    pose proof (blk_free_size _ _ ON AN) as SN.
    destruct (relink_next_rep s (L ++ [P]) B N R' fl H FL Pm FB AN)
      as (g & FL1 & H1 & Pm1 & Ef1 & G1).
    fold bp in FL1, H1, Pm1, Ef1, G1 |- *.
    cbv zeta. set (s1 := relink s bp false) in *.
    destruct (heap_In s1 _ B H1 ltac:(in_list)) as (OB1 & _).
    destruct (heap_In s1 _ N H1 ltac:(in_list)) as (ON1 & _).
    assert (R7 : NEXT_BLKP s1 bp = bp + sz) by (apply (blk_NEXT s1 B); assumption).
    assert (R8 : GET_SIZE s1 (HDRP (bp + sz)) = bsize N).
    { apply (blk_size_hdr s1 N); [assumption|]. unfold HDRP, WSIZE. lia. }
    rewrite R7, R8. rewrite wrap64_small by lia.
    assert (M8 : (sz + bsize N) mod 8 = 0).
    { apply mod8_add; [apply (blk_mod8 s B) | apply (blk_mod8 s N)]; assumption. }
    assert (R9 : FTRP (PUT s1 (HDRP bp) (PACK (sz + bsize N) 0)) bp = bp + sz + bsize N - 8).
    { unfold FTRP. rewrite GET_SIZE_PUT_same by (try assumption; lia). unfold DSIZE. lia. }
    rewrite R9. unfold HDRP, WSIZE.
    set (e := bp + sz + bsize N).
    replace (sz + bsize N) with (e - bp) in * by (subst e; lia).
    replace (bp + sz + bsize N - 8) with (e - 8) by (subst e; lia).
    set (s3 := PUT (PUT s1 (bp - 4) (PACK (e - bp) 0)) (e - 8) (PACK (e - bp) 0)).
    pose proof (hp_contig _ _ H1) as C1. apply contig_split in C1 as [C1 _].
    assert (R3' : Rep s3 ((L ++ [P]) ++ mkBlock bp (e - bp) false :: R') (bp :: g)).
    { apply (merge_rep s1 s3 (L ++ [P]) [B; N] R' bp e g); try reflexivity; try assumption.
      - destruct L; discriminate.
      - discriminate.
      - simpl. subst e. repeat split; lia.
      - rewrite free_addrs_app, free_addrs_cons. exact Pm1.
      - intros q S1 S2. subst s3. rewrite !GET_PUT_other by (unfold sep in *; lia). reflexivity.
      - subst s3. rewrite GET_PUT_other by (unfold sep; subst e; lia).
        apply GET_PUT_PACK_0. subst e. lia.
      - subst s3. apply GET_PUT_PACK_0. subst e. lia. }
    exists ((L ++ [P]) ++ mkBlock bp (e - bp) false :: R'), (bp :: g), (mkBlock bp (e - bp) false).
    cbn [fst snd]. split; [exact R3'|]. split.
    { apply coalesced_app. split; [assumption|].
      apply coalesced_cons in CR as [CR1 CR2]. split.
      - apply coalesced_cons. split; [right|assumption].
        destruct CR1 as [CR1|CR1]; [congruence | assumption].
      - left. rewrite last_last. assumption. }
    split; [in_list|]. split; [reflexivity|]. split; [reflexivity|].
    split; [simpl; subst e; lia|]. split.
    { intros b Hb Ab. apply in_app_or in Hb as [Hb|[<-|[<-|Hb]]]; try congruence; in_list. }
    split; [|exact (fl_head _ _ (rep_list _ _ _ R3'))].
    apply (same_globals_trans _ s1); [assumption|]. repeat split.
  - (* Case 3 *)
    assert (HL : L <> []).
    { intros ->. destruct (heap_first _ _ H) as (b0 & bs0 & E0 & _ & A0).
      simpl in E0. injection E0 as <- _. congruence. }
    assert (Pm0 : Permutation (bp :: fl) (free_addrs L ++ baddr P :: bp :: free_addrs R)).
    { rewrite !free_addrs_app, !free_addrs_cons, AP, FB in Pm. simpl in Pm.
      rewrite <- app_assoc in Pm. exact Pm. }
    destruct (relink_prev_rep s L P B R fl (free_addrs R) H FL Pm0) as (g & FL1 & H1 & Pm1 & Ef1 & G1);
      try assumption.
    { intros a Ha. apply (fidelity_In _ _ a Pm). right. assumption. }
    fold bp in FL1, H1, Pm1, Ef1, G1 |- *.
    cbv zeta. set (s1 := relink s bp true) in *.
    destruct (nbhd _ _ _ _ _ H1) as (_ & OP1 & OB1 & C01 & _ & _).
    assert (R7 : PREV_BLKP s1 bp = baddr P) by (apply (blk_PREV s1 P); [assumption | lia]).
    assert (R8 : GET_SIZE s1 (HDRP (baddr P)) = bsize P) by (apply (blk_size_hdr s1 P); auto).
    assert (R9 : FTRP s1 bp = bp + sz - 8) by (apply (blk_FTRP s1 B); assumption).
    rewrite R7, R8, R9. rewrite wrap64_small by lia.
    assert (M8 : (sz + bsize P) mod 8 = 0).
    { apply mod8_add; [apply (blk_mod8 s B) | apply (blk_mod8 s P)]; assumption. }
    set (e := bp + sz). set (a := baddr P) in *.
    replace (sz + bsize P) with (e - a) in * by (subst e; lia).
    replace (bp + sz - 8) with (e - 8) by (subst e; lia).
    assert (R10 : PREV_BLKP (PUT s1 (e - 8) (PACK (e - a) 0)) bp = a).
    { unfold PREV_BLKP. rewrite GET_SIZE_PUT_other by (unfold sep, DSIZE; subst e; lia).
      exact R7. }
    rewrite R10.
    assert (R11 : PREV_BLKP (PUT (PUT s1 (e - 8) (PACK (e - a) 0)) (HDRP a) (PACK (e - a) 0)) bp = a).
    { unfold PREV_BLKP. rewrite !GET_SIZE_PUT_other by (unfold sep, HDRP, WSIZE, DSIZE; subst e; lia).
      exact R7. }
    rewrite R11. unfold HDRP, WSIZE.
    set (s3 := PUT (PUT s1 (e - 8) (PACK (e - a) 0)) (a - 4) (PACK (e - a) 0)).
    assert (R3' : Rep s3 (L ++ mkBlock a (e - a) false :: R) (a :: g)).
    { apply (merge_rep s1 s3 L [P; B] R a e g); try reflexivity; try assumption.
      - rewrite <- app_assoc in H1. exact H1.
      - discriminate.
      - simpl. subst e. repeat split; lia.
      - rewrite free_addrs_app, free_addrs_cons. exact Pm1.
      - intros q S1 S2. subst s3. rewrite !GET_PUT_other by (unfold sep in *; lia). reflexivity.
      - subst s3. apply GET_PUT_PACK_0. subst e. lia.
      - subst s3. rewrite GET_PUT_other by (unfold sep; subst e; lia).
        apply GET_PUT_PACK_0. subst e. lia. }
    exists (L ++ mkBlock a (e - a) false :: R), (a :: g), (mkBlock a (e - a) false).
    cbn [fst snd]. split; [exact R3'|]. split.
    { apply coalesced_app in CL as (CL1 & _ & CL2). simpl in CL2.
      apply coalesced_app. split; [assumption|]. split.
      - apply coalesced_cons. split; [right|]; assumption.
      - left. destruct CL2 as [CL2|CL2]; [assumption | congruence]. }
    split; [in_list|]. split; [reflexivity|]. split; [reflexivity|].
    split; [simpl; subst e; lia|]. split.
    { intros b Hb Ab. rewrite <- app_assoc in Hb.
      apply in_app_or in Hb as [Hb|[<-|[<-|Hb]]]; try congruence; in_list. }
    split; [|exact (fl_head _ _ (rep_list _ _ _ R3'))].
    apply (same_globals_trans _ s1); [assumption|]. repeat split.
  - (* Case 4 *)
    destruct R as [|N R']; [discriminate|]. cbn [hd] in AN.
    destruct CRt as [EN CRt]. apply Forall_cons_iff in OR as [ON OR].
    destruct (heap_size_bound s _ N H ltac:(in_list)) as [PN UN].
    pose proof (blk_free_size _ _ ON AN) as SN.
    assert (HL : L <> []).
    { intros ->. destruct (heap_first _ _ H) as (b0 & bs0 & E0 & _ & A0).
      simpl in E0. injection E0 as <- _. congruence. }
    destruct (relink_next_rep s (L ++ [P]) B N R' fl H FL Pm FB AN)
      as (g & FL1 & H1 & Pm1 & Ef1 & G1).
    fold bp in FL1, H1, Pm1, Ef1, G1 |- *.
    cbv zeta. set (s1 := relink s bp false) in *.
    assert (Pm1' : Permutation (bp :: g) (free_addrs L ++ baddr P :: bp :: free_addrs R')).
    { rewrite !free_addrs_app, !free_addrs_cons, AP in Pm1. simpl in Pm1.
      rewrite <- app_assoc in Pm1. exact Pm1. }
    destruct (relink_prev_rep s1 L P B (N :: R') g (free_addrs R') H1 FL1 Pm1')
      as (h & FL2 & H2 & Pm2 & Ef2 & G2); try assumption.
    { intros a Ha. apply free_addrs_In.
      assert (I : In a (bp :: g)) by (right; assumption).
      apply (Permutation_in _ Pm1) in I.
      rewrite free_addrs_app, !free_addrs_cons, FB, AN. cbv iota. fold bp. in_list. }
    fold bp in FL2, H2, Pm2, Ef2, G2 |- *.
    set (s2 := relink s1 bp true) in *.
    destruct (nbhd _ _ _ _ _ H2) as (_ & OP2 & OB2 & C02 & _ & OR2).
    apply Forall_cons_iff in OR2 as [ON2 _].
    assert (R7 : PREV_BLKP s2 bp = baddr P) by (apply (blk_PREV s2 P); [assumption | lia]).
    assert (R8 : GET_SIZE s2 (HDRP (baddr P)) = bsize P) by (apply (blk_size_hdr s2 P); auto).
    assert (R9 : NEXT_BLKP s2 bp = baddr N).
    { rewrite EN. apply (blk_NEXT s2 B). assumption. }
    assert (R10 : FTRP s2 (baddr N) = baddr N + bsize N - 8) by (apply (blk_FTRP s2 N); assumption).
    assert (R11 : GET_SIZE s2 (baddr N + bsize N - 8) = bsize N)
      by (apply (blk_size_ftr s2 N); auto).
    rewrite R7, R8, R9, R10, R11.
    rewrite wrap32_small by lia. rewrite wrap64_small by lia.
    assert (M8 : (sz + (bsize P + bsize N)) mod 8 = 0).
    { apply mod8_add; [apply (blk_mod8 s B) | apply mod8_add;
        [apply (blk_mod8 s P) | apply (blk_mod8 s N)]]; assumption. }
    set (e := baddr N + bsize N). set (a := baddr P) in *.
    replace (sz + (bsize P + bsize N)) with (e - a) in * by (subst e; lia).
    replace (baddr N + bsize N - 8) with (e - 8) in * by (subst e; lia).
    unfold HDRP, WSIZE.
    assert (R12 : NEXT_BLKP (PUT s2 (a - 4) (PACK (e - a) 0)) bp = baddr N).
    { unfold NEXT_BLKP. rewrite GET_SIZE_PUT_other by (unfold sep, WSIZE; lia). exact R9. }
    rewrite R12.
    assert (R13 : FTRP (PUT s2 (a - 4) (PACK (e - a) 0)) (baddr N) = e - 8).
    { unfold FTRP. rewrite GET_SIZE_PUT_other by (unfold sep, HDRP, WSIZE; lia).
      exact R10. }
    rewrite R13.
    set (s4 := PUT (PUT s2 (a - 4) (PACK (e - a) 0)) (e - 8) (PACK (e - a) 0)).
    assert (R14 : PREV_BLKP s4 bp = a).
    { subst s4. unfold PREV_BLKP. rewrite !GET_SIZE_PUT_other by (unfold sep, DSIZE; subst e; lia).
      exact R7. }
    rewrite R14.
    assert (R4' : Rep s4 (L ++ mkBlock a (e - a) false :: R') (a :: h)).
    { apply (merge_rep s2 s4 L [P; B; N] R' a e h); try reflexivity; try assumption.
      - rewrite <- app_assoc in H2. exact H2.
      - discriminate.
      - simpl. subst e. repeat split; lia.
      - rewrite free_addrs_app, free_addrs_cons. exact Pm2.
      - intros q S1 S2. subst s4. rewrite !GET_PUT_other by (unfold sep in *; lia). reflexivity.
      - subst s4. rewrite GET_PUT_other by (unfold sep; subst e; lia).
        apply GET_PUT_PACK_0. subst e. lia.
      - subst s4. apply GET_PUT_PACK_0. subst e. lia. }
    exists (L ++ mkBlock a (e - a) false :: R'), (a :: h), (mkBlock a (e - a) false).
    cbn [fst snd]. split; [exact R4'|]. split.
    { apply coalesced_app in CL as (CL1 & _ & CL2). simpl in CL2.
      apply coalesced_cons in CR as [CR1 CR2].
      apply coalesced_app. split; [assumption|]. split.
      - apply coalesced_cons. split; [right|assumption].
        destruct CR1 as [CR1|CR1]; [congruence | assumption].
      - left. destruct CL2 as [CL2|CL2]; [assumption | congruence]. }
    split; [in_list|]. split; [reflexivity|]. split; [reflexivity|].
    split; [simpl; subst e; lia|]. split.
    { intros b Hb Ab. rewrite <- app_assoc in Hb.
      apply in_app_or in Hb as [Hb|[<-|[<-|[<-|Hb]]]]; try congruence; in_list. }
    split; [|exact (fl_head _ _ (rep_list _ _ _ R4'))].
    apply (same_globals_trans _ s1); [assumption|].
    apply (same_globals_trans _ s2); [assumption|]. repeat split.
Qed.

(** ** Adding a block to the list and coalescing it *)

Lemma freelist_add_links s fl bp :
  first_free s = hd (heap_listp s) fl ->
  links_only (bp :: fl) s (freelist_add s bp).
Proof.
  intros Hh. unfold freelist_add. autorewrite with globals. rewrite Hh.
  destruct fl as [|f fl]; cbn [hd].
  - rewrite Z.eqb_refl. lo.
  - destruct (f =? heap_listp s); lo.
Qed.

Lemma add_and_coalesce s X B R fl :
  Heap s (X ++ B :: R) -> FreeList s fl ->
  Permutation fl (free_addrs X ++ free_addrs R) ->
  balloc B = false -> coalesced X -> coalesced R ->
  coalesce_post s (X ++ B :: R) B (coalesce (freelist_add s (baddr B)) (baddr B)).
Proof.
  intros H FL Pm FB CX CR.
  assert (Pm' : Permutation (baddr B :: fl) (free_addrs (X ++ B :: R))).
  { rewrite free_addrs_app, free_addrs_cons, FB. apply Permutation_cons_app. assumption. }
  pose proof (nodes_of_rep _ _ _ H Pm') as Nd.
  assert (Ni : ~ In (baddr B) fl).
  { intros I. apply (Permutation_in _ Pm) in I.
    assert (I' : In (baddr B) (free_addrs (X ++ R))) by (rewrite free_addrs_app; assumption).
    apply free_addrs_In in I' as (c & Hc & Ec & Fc).
    destruct (heap_In s _ B H ltac:(in_list)) as (OB & _). apply blk_ok_pos in OB.
    destruct (heap_In s _ c H ltac:(in_list)) as (Oc & _). apply blk_ok_pos in Oc.
    destruct (heap_around _ _ _ _ _ H Hc); lia. }
  pose proof (freelist_add_list s fl (baddr B) FL Nd Ni) as FL1.
  pose proof (freelist_add_links s fl (baddr B) (fl_head _ _ FL)) as LO.
  assert (H1 : Heap (freelist_add s (baddr B)) (X ++ B :: R)).
  { eapply heap_links_only; [exact H | | exact LO].
    intros a Ha. apply (fidelity_In _ _ a Pm'). assumption. }
  assert (HX : X <> []).
  { intros ->. destruct (heap_first _ _ H) as (b0 & bs0 & E0 & _ & A0). simpl in E0.
    injection E0 as <- _. congruence. }
  destruct (exists_last HX) as (L & P & ->).
  destruct (coalesce_rep (freelist_add s (baddr B)) L P B R fl
              (Build_Rep _ _ _ H1 FL1 Pm') FB CX CR)
    as (bs' & fl' & b' & Q1 & Q2 & Q3 & Q4 & Q5 & Q6 & Q7 & Q8 & Q9).
  exists bs', fl', b'.
  refine (conj Q1 (conj Q2 (conj Q3 (conj Q4 (conj Q5 (conj Q6 (conj Q7 (conj _ Q9)))))))).
  eapply same_globals_trans; [exact (links_only_globals _ _ _ LO) | exact Q8].
Qed.

(** ** free *)

Lemma heap_not_prologue s X B R :
  Heap s (X ++ B :: R) -> baddr B <> heap_listp s -> X <> [].
Proof.
  intros H Hn ->. destruct (heap_first _ _ H) as (b0 & bs0 & E0 & A0 & _).
  simpl in E0. injection E0 as <- _. congruence.
Qed.

Lemma free_rep s X B R fl :
  Rep s (X ++ B :: R) fl -> coalesced (X ++ B :: R) ->
  balloc B = true -> baddr B <> heap_listp s ->
  exists bs' fl',
    Rep (free s (baddr B)) bs' fl' /\ coalesced bs' /\
    (forall b, In b (X ++ R) -> balloc b = true -> In b bs') /\
    (exists b', In b' bs' /\ balloc b' = false /\
                baddr b' <= baddr B /\ baddr B + bsize B <= baddr b' + bsize b' /\
                first_free (free s (baddr B)) = baddr b') /\
    same_globals s (free s (baddr B)).
Proof.
  intros [H FL Pm] C AB NB. unfold fidelity in Pm.
  pose proof (heap_not_prologue _ _ _ _ H NB) as HX.
  destruct (heap_In s _ B H ltac:(in_list)) as (OB & LB & UB).
  destruct (heap_size_bound s _ B H ltac:(in_list)) as [PB UB'].
  pose proof (hp_base _ _ H) as B0.
  assert (S24 : 24 <= bsize B) by (destruct OB as (_ & _ & _ & _ & S & _); auto).
  pose proof (blk_mod8 _ _ OB) as M8.
  pose proof (hp_contig _ _ H) as Cg. apply contig_split in Cg as [C1 C2].
  set (bp := baddr B) in *. set (sz := bsize B) in *.
  set (s2 := PUT (PUT s (bp - 4) (PACK sz 0)) (bp + sz - 8) (PACK sz 0)).
  set (Bf := mkBlock bp sz false).
  assert (E : free s bp = fst (coalesce (freelist_add s2 bp) bp)).
  { unfold free. destruct (Z.eqb_spec bp 0) as [?|_]; [lia|].
    destruct (Z.eqb_spec (heap_listp s) 0) as [?|_]; [lia|].
    assert (R1 : GET_SIZE s (HDRP bp) = sz) by (apply (blk_size_hdr s B); auto).
    rewrite R1. unfold free_body. unfold FTRP.
    rewrite GET_SIZE_PUT_same by (try assumption; lia). reflexivity. }
  rewrite E.
  assert (F : forall q, sep q (bp - 4) -> sep q (bp + sz - 8) -> GET s2 q = GET s q).
  { intros q S1 S2. subst s2. rewrite !GET_PUT_other by (unfold sep in *; lia). reflexivity. }
  assert (H2 : Heap s2 (X ++ Bf :: R)).
  { apply (heap_replace s s2 X [B] [Bf] R bp (bp + sz)); try reflexivity; try assumption.
    - simpl. auto.
    - simpl. auto.
    - intros q Hq. apply F; unfold sep; lia.
    - constructor; [|constructor]. unfold blk_ok, tag. simpl.
      assert (G1 : GET s2 (bp - 4) = sz).
      { subst s2. rewrite GET_PUT_other by (unfold sep; lia). apply GET_PUT_PACK_0. lia. }
      assert (G2 : GET s2 (bp + sz - 8) = sz).
      { subst s2. apply GET_PUT_PACK_0. lia. }
      rewrite G1, G2. repeat split; try lia; try assumption. }
  assert (Pm' : Permutation fl (free_addrs X ++ free_addrs R)).
  { rewrite free_addrs_app, free_addrs_cons, AB in Pm. exact Pm. }
  assert (FL2 : FreeList s2 fl).
  { apply (FreeList_same s); try reflexivity; try assumption.
    intros a Ha. apply (Permutation_in _ Pm') in Ha.
    destruct (span_sep s X [B] R bp (bp + sz) a (bp - 4)) as [A1 A2]; try assumption; try lia.
    { simpl. auto. }
    destruct (span_sep s X [B] R bp (bp + sz) a (bp + sz - 8)) as [A3 A4]; try assumption; try lia.
    { simpl. auto. }
    unfold sep in *. split; apply F; unfold sep; lia. }
  apply coalesced_app in C as (CX & CR & _). apply coalesced_cons in CR as [_ CR].
  destruct (add_and_coalesce s2 X Bf R fl H2 FL2 Pm' eq_refl CX CR)
    as (bs' & fl' & b' & Q1 & Q2 & Q3 & Q4 & Q5 & Q6 & Q7 & Q8 & Q9).
  exists bs', fl'. split; [exact Q1|]. split; [exact Q2|]. split; [|split].
  - intros b Hb Ab. apply Q7; [|assumption]. in_list.
  - exists b'. unfold Bf in Q4, Q6, Q9. cbn [baddr bsize] in Q4, Q6, Q9.
    repeat split; [assumption | assumption | lia | lia | congruence].
  - exact Q8.
Qed.

(** ** extend_heap *)

Lemma extend_size_mod8 words : extend_size words mod 8 = 0.
Proof.
  unfold extend_size, nz, wrap64, WSIZE.
  assert (D : (8 | 2 ^ 64)) by (exists (2 ^ 61); reflexivity).
  destruct (Z.eqb_spec (words mod 2) 0) as [E|E]; cbn [negb];
    rewrite Z.mod_mod_divide by exact D; Z.div_mod_to_equations; lia.
Qed.

Lemma extend_size_range words : 0 <= extend_size words < 2 ^ 64.
Proof.
  unfold extend_size, wrap64. destruct (nz (words mod 2)); apply Z.mod_pos_bound; lia.
Qed.

Lemma extend_heap_fail s words :
  mem_max_addr s < mem_brk s + extend_size words ->
  extend_heap s words = (s, NULL).
Proof.
  intros Hf. unfold extend_heap. fold (extend_size words).
  unfold mem_sbrk.
  destruct (Z.leb_spec (mem_brk s + extend_size words) (mem_max_addr s)); [lia|].
  rewrite andb_false_r. rewrite Z.eqb_refl. reflexivity.
Qed.

Lemma extend_heap_rep s bs fl words :
  Rep s bs fl -> coalesced bs -> 24 <= extend_size words ->
  mem_brk s + extend_size words <= mem_max_addr s ->
  let B := mkBlock (mem_brk s) (extend_size words) false in
  coalesce_post (set_brk s (mem_brk s + extend_size words)) (bs ++ [B]) B (extend_heap s words).
Proof.
  intros [H FL Pm] C S24 Hs B. unfold fidelity in Pm.
  pose proof (extend_size_mod8 words) as M8.
  set (size := extend_size words) in *.
  pose proof (hp_base _ _ H) as B0. pose proof (hp_brk _ _ H) as B1.
  pose proof (hp_max32 _ _ H) as B2. pose proof (hp_max64 _ _ H) as B3.
  pose proof (contig_le _ _ _ (heap_pos _ _ H) (hp_contig _ _ H)) as Lb.
  set (bp := mem_brk s) in *.
  set (s0 := set_brk s (bp + size)).
  set (s3 := PUT (PUT (PUT s0 (bp - 4) (PACK size 0)) (bp + size - 8) (PACK size 0))
                 (bp + size - 4) (PACK 0 1)).
  assert (E : extend_heap s words = coalesce (freelist_add s3 bp) bp).
  { unfold extend_heap. fold (extend_size words). fold size.
    unfold mem_sbrk. fold bp.
    destruct (Z.leb_spec 0 size); [|lia].
    destruct (Z.leb_spec (bp + size) (mem_max_addr s)); [|lia].
    cbn [andb]. fold s0.
    assert (Nf : (bp =? SBRK_FAILED) = false).
    { apply Z.eqb_neq. unfold SBRK_FAILED, wrap64. change ((-1) mod 2 ^ 64) with (2 ^ 64 - 1). lia. }
    rewrite Nf. unfold FTRP, NEXT_BLKP, HDRP, WSIZE, DSIZE.
    rewrite GET_SIZE_PUT_same by (try assumption; lia).
    rewrite GET_SIZE_PUT_other by (unfold sep; lia).
    rewrite GET_SIZE_PUT_same by (try assumption; lia).
    replace (bp + size - 4) with (bp + size - 4) by lia. reflexivity. }
  rewrite E.
  assert (F : forall q, q + 4 <= bp - 4 -> GET s3 q = GET s q).
  { intros q Hq. subst s3. rewrite !GET_PUT_other by (unfold sep; lia). reflexivity. }
  assert (H3 : Heap s3 (bs ++ [B])).
  { constructor; try assumption.
    - destruct bs; discriminate.
    - change (contig (heap_listp s) (bs ++ [B]) (bp + size)).
      apply contig_app. exists bp. split; [exact (hp_contig _ _ H)|].
      split; reflexivity.
    - apply Forall_app. split.
      + apply Forall_forall. intros b Hb. destruct (heap_In _ _ _ H Hb) as (O & Lo & Up).
        pose proof (blk_min_size _ _ O). fold bp in Up.
        apply (blk_ok_same s); [reflexivity | | | assumption]; apply F; lia.
      + constructor; [|constructor]. unfold blk_ok, tag. simpl.
        assert (G1 : GET s3 (bp - 4) = size).
        { subst s3. rewrite !GET_PUT_other by (unfold sep; lia). apply GET_PUT_PACK_0. lia. }
        assert (G2 : GET s3 (bp + size - 8) = size).
        { subst s3. rewrite !GET_PUT_other by (unfold sep; lia). apply GET_PUT_PACK_0. lia. }
        rewrite G1, G2. change (heap_listp s3) with (heap_listp s).
        assert (heap_listp s < bp).
        { destruct (heap_first _ _ H) as (b0 & bs0 & -> & E0 & _).
          destruct (heap_size_bound s _ b0 H ltac:(in_list)) as [Pb0 _].
          destruct (heap_In s _ b0 H ltac:(in_list)) as (_ & _ & Ub0).
          change (mem_brk s) with bp in Ub0. lia. }
        repeat split; try lia; try assumption.
    - change (GET s3 (bp + size - 4) = 1). subst s3. rewrite GET_PUT_same. reflexivity. }
  assert (FL3 : FreeList s3 fl).
  { apply (FreeList_same s); try reflexivity; try assumption.
    intros a Ha. apply (Permutation_in _ Pm) in Ha. apply free_addrs_In in Ha.
    destruct (free_in_heap _ _ _ H Ha). fold bp in H1.
    split; apply F; lia. }
  assert (Pm' : Permutation fl (free_addrs bs ++ free_addrs [])).
  { simpl. rewrite app_nil_r. exact Pm. }
  destruct (add_and_coalesce s3 bs B [] fl H3 FL3 Pm' eq_refl C I)
    as (bs' & fl' & b' & Q1 & Q2 & Q3 & Q4 & Q5 & Q6 & Q7 & Q8 & Q9).
  exists bs', fl', b'.
  exact (conj Q1 (conj Q2 (conj Q3 (conj Q4 (conj Q5 (conj Q6 (conj Q7 (conj Q8 Q9)))))))).
Qed.

(** ** place *)

Lemma GET_PUT_PACK_1 s p sz :
  0 <= sz -> sz + 1 < 2 ^ 32 -> sz mod 8 = 0 -> GET (PUT s p (PACK sz 1)) p = sz + 1.
Proof.
  intros. rewrite GET_PUT_same, PACK_1 by assumption. apply Z.mod_small. lia.
Qed.

Lemma GET_SIZE_PUT_same_1 s p sz :
  0 <= sz -> sz + 1 < 2 ^ 32 -> sz mod 8 = 0 -> GET_SIZE (PUT s p (PACK sz 1)) p = sz.
Proof.
  intros. unfold GET_SIZE. rewrite GET_PUT_PACK_1 by assumption.
  apply size_of_word; lia.
Qed.

Lemma nodes_cons s l x :
  Nodes s l -> addr_ok s x -> (forall a, In a l -> a = x \/ a + 8 <= x \/ x + 8 <= a) ->
  Nodes s (x :: l).
Proof.
  intros [B S O] Ox Sx. constructor; [assumption | |].
  - intros a a' [<-|Ha] [<-|Ha'].
    + left. reflexivity.
    + specialize (Sx a' Ha'). lia.
    + specialize (Sx a Ha). lia.
    + apply S; assumption.
  - intros a [<-|Ha]; auto.
Qed.

Lemma mod8_sub a b : a mod 8 = 0 -> b mod 8 = 0 -> (a - b) mod 8 = 0.
Proof. intros. Z.div_mod_to_equations. lia. Qed.

Lemma place_reads s X B R l1 l2 :
  Rep s (X ++ B :: R) (l1 ++ baddr B :: l2) ->
  GET_SIZE s (HDRP (baddr B)) = bsize B /\
  GET_PRED s (baddr B) = last l1 (heap_listp s) /\
  GET_SUCC s (baddr B) = hd (heap_listp s) l2.
Proof.
  intros [H FL Pm]. destruct (heap_In s _ B H ltac:(in_list)) as (OB & _).
  split; [apply (blk_size_hdr s B); auto|].
  apply chain_lookup. exact (fl_chain _ _ FL).
Qed.

(** A free block other than [B] lies wholly before or after it. *)
Lemma free_outside s X B R a :
  Heap s (X ++ B :: R) -> In a (free_addrs X ++ free_addrs R) ->
  a + 24 <= baddr B \/ baddr B + bsize B <= a.
Proof.
  intros H Ha. pose proof (heap_pos _ _ H) as Pos. pose proof (hp_contig _ _ H) as C.
  apply contig_split in C as [C1 C2].
  rewrite Forall_app in Pos. destruct Pos as [PL PR]. apply Forall_cons_iff in PR as [_ PR].
  apply in_app_or in Ha as [Ha|Ha]; apply free_addrs_In in Ha as (c & Hc & <- & Fc).
  - left. destruct (contig_In _ _ _ _ PL C1 Hc).
    destruct (heap_In s _ c H ltac:(in_list)) as (Oc & _).
    pose proof (blk_free_size _ _ Oc Fc). lia.
  - right. destruct (contig_In _ _ _ _ PR C2 Hc). lia.
Qed.

Lemma place_split_rep s X B R l1 l2 asize :
  Rep s (X ++ B :: R) (l1 ++ baddr B :: l2) -> coalesced (X ++ B :: R) ->
  balloc B = false -> 24 <= asize -> asize mod 8 = 0 ->
  24 <= bsize B - asize ->
  Rep (place s (baddr B) asize)
      (X ++ mkBlock (baddr B) asize true
         :: mkBlock (baddr B + asize) (bsize B - asize) false :: R)
      (l1 ++ (baddr B + asize) :: l2) /\
  coalesced (X ++ mkBlock (baddr B) asize true
               :: mkBlock (baddr B + asize) (bsize B - asize) false :: R) /\
  same_globals s (place s (baddr B) asize).
Proof.
  intros Rp C FB SA M8 SR.
  destruct (place_reads _ _ _ _ _ _ Rp) as (R1 & R2 & R3).
  destruct Rp as [H FL Pm]. unfold fidelity in Pm.
  assert (HX : X <> []).
  { intros ->. destruct (heap_first _ _ H) as (b0 & bs0 & E0 & _ & A0).
    simpl in E0. injection E0 as <- _. congruence. }
  destruct (heap_In s _ B H ltac:(in_list)) as (OB & LB & UB).
  destruct (heap_size_bound s _ B H ltac:(in_list)) as [PB UB'].
  pose proof (hp_base _ _ H) as B0. pose proof (hp_brk _ _ H) as B1.
  pose proof (hp_max32 _ _ H) as B2. pose proof (hp_max64 _ _ H) as B3.
  pose proof (blk_mod8 _ _ OB) as MB.
  pose proof (mod8_sub _ _ MB M8) as MR.
  pose proof (hp_contig _ _ H) as Cg. apply contig_split in Cg as [C1 C2].
  pose proof (nodes_of_rep _ _ _ H Pm) as Nd.
  set (bp := baddr B) in *. set (csize := bsize B) in *.
  set (nb := bp + asize). set (rem := csize - asize) in *.
  set (pred := last l1 (heap_listp s)) in *. set (succ := hd (heap_listp s) l2) in *.
  set (s4 := PUT (PUT (PUT (PUT s (bp - 4) (PACK asize 1)) (nb - 8) (PACK asize 1))
                      (nb - 4) (PACK rem 0)) (bp + csize - 8) (PACK rem 0)).
  set (A := mkBlock bp asize true). set (Fr := mkBlock nb rem false).
  assert (E : place s bp asize =
    let s1 := SET_SUCC (SET_PRED s4 nb pred) nb succ in
    let s2 := if pred =? heap_listp s4 then s1 else SET_SUCC s1 pred nb in
    let s3 := if succ =? heap_listp s4 then s2 else SET_PRED s2 succ nb in
    if bp =? first_free s3 then set_first_free s3 nb else s3).
  { unfold place. rewrite R1, R2, R3. fold rem.
    rewrite wrap64_small by lia. unfold DSIZE.
    destruct (Z.leb_spec (3 * 8) rem) as [_|?]; [|lia].
    unfold FTRP, NEXT_BLKP, HDRP, WSIZE, DSIZE.
    rewrite GET_SIZE_PUT_same_1 by (try assumption; lia).
    rewrite GET_SIZE_PUT_other by (unfold sep; lia).
    rewrite GET_SIZE_PUT_same_1 by (try assumption; lia).
    change (bp + asize) with nb.
    rewrite GET_SIZE_PUT_same by (try assumption; lia).
    replace (nb + rem - 8) with (bp + csize - 8) by (subst nb rem; lia).
    subst s4. cbv zeta. autorewrite with globals.
    destruct (pred =? heap_listp s); autorewrite with globals;
      destruct (succ =? heap_listp s); reflexivity. }
  rewrite E. clear E.
  assert (F : forall q, q + 8 <= bp \/ bp + csize - 4 <= q -> GET s4 q = GET s q).
  { intros q Hq. subst s4. rewrite !GET_PUT_other by (unfold sep; subst nb; lia). reflexivity. }
  assert (H4 : Heap s4 (X ++ [A; Fr] ++ R)).
  { apply (heap_replace s s4 X [B] [A; Fr] R bp (bp + csize)); try reflexivity; try assumption.
    - simpl. auto.
    - simpl. subst nb rem. repeat split; lia.
    - constructor; [|constructor; [|constructor]]; unfold blk_ok, tag; simpl;
        change (heap_listp s4) with (heap_listp s).
      + assert (G1 : GET s4 (bp - 4) = asize + 1).
        { subst s4. rewrite !GET_PUT_other by (unfold sep; subst nb; lia).
          apply GET_PUT_PACK_1; try assumption; lia. }
        assert (G2 : GET s4 (bp + asize - 8) = asize + 1).
        { subst s4. rewrite !GET_PUT_other by (unfold sep; subst nb; lia).
          apply GET_PUT_PACK_1; try assumption; lia. }
        rewrite G1, G2. repeat split; try lia; try assumption; discriminate.
      + assert (G1 : GET s4 (nb - 4) = rem).
        { subst s4. rewrite !GET_PUT_other by (unfold sep; subst nb rem; lia).
          apply GET_PUT_PACK_0; lia. }
        assert (G2 : GET s4 (nb + rem - 8) = rem).
        { subst s4. replace (nb + rem - 8) with (bp + csize - 8) by (subst nb rem; lia).
          apply GET_PUT_PACK_0; lia. }
        rewrite G1, G2. repeat split; try lia; try assumption; subst nb; lia. }
  assert (Out : forall a, In a (l1 ++ bp :: l2) -> a = bp \/ a + 24 <= bp \/ bp + csize <= a).
  { intros a Ha. apply (Permutation_in _ Pm) in Ha.
    rewrite free_addrs_app, free_addrs_cons, FB in Ha.
    apply in_app_or in Ha as [Ha|[Ha|Ha]]; [right | left; auto | right];
      apply (free_outside s X B R a H); in_list. }
  assert (FL4 : FreeList s4 (l1 ++ bp :: l2)).
  { apply (FreeList_same s); try reflexivity; try assumption.
    intros a Ha. pose proof (Out a Ha) as Hs.
    subst s4. split; rewrite !GET_PUT_other by (unfold sep; subst nb; lia); reflexivity. }
  assert (Nd4 : Nodes s4 (nb :: l1 ++ bp :: l2)).
  { apply nodes_cons.
    - apply (nodes_same s); [reflexivity | assumption].
    - unfold addr_ok. change (heap_listp s4) with (heap_listp s). subst nb. lia.
    - intros a Ha. pose proof (Out a Ha). subst nb. lia. }
  assert (Ni : ~ In nb (l1 ++ bp :: l2)).
  { intros I. pose proof (Out nb I). subst nb. lia. }
  pose proof (replace_list s4 l1 bp l2 nb FL4 Nd4 Ni) as FLf.
  change (heap_listp s4) with (heap_listp s) in FLf |- *. fold pred succ in FLf.
  cbv zeta in FLf |- *.
  set (sf := if bp =? first_free _ then _ else _) in *.
  assert (Hpred : pred = heap_listp s \/ In pred l1).
  { subst pred. destruct l1 as [|c l1]; [left; reflexivity | right].
    apply last_In. discriminate. }
  assert (Hsucc : succ = heap_listp s \/ In succ l2).
  { subst succ. destruct l2 as [|c l2]; [left; reflexivity | right; left; reflexivity]. }
  assert (LO : links_only (nb :: l1 ++ l2) s4 sf).
  { subst sf.
    destruct (Z.eqb_spec pred (heap_listp s)) as [Ep|Ep];
      destruct (Z.eqb_spec succ (heap_listp s)) as [Es|Es];
      destruct Hpred as [?|Ip]; try contradiction;
      destruct Hsucc as [?|Is]; try contradiction;
      match goal with |- context [if ?c then _ else _] => destruct c end; lo. }
  assert (Pmf : Permutation (l1 ++ nb :: l2) (free_addrs (X ++ A :: Fr :: R))).
  { rewrite free_addrs_app, free_addrs_cons, FB in Pm.
    rewrite free_addrs_app, !free_addrs_cons. simpl.
    apply Permutation_app_inv in Pm. apply Permutation_elt. exact Pm. }
  split; [|split].
  - constructor; [|exact FLf|exact Pmf].
    eapply heap_links_only; [exact H4 | | exact LO].
    intros a Ha. apply free_addrs_In. eapply Permutation_in; [exact Pmf|]. in_list.
  - apply coalesced_app in C as (CX & CR & _). apply coalesced_cons in CR as [CR1 CR2].
    apply coalesced_app. split; [assumption|]. split.
    + apply coalesced_cons. split; [left; reflexivity|].
      apply coalesced_cons. split; [|assumption].
      right. destruct CR1 as [CR1|CR1]; [congruence | assumption].
    + right. reflexivity.
  - apply (same_globals_trans _ s4); [repeat split|].
    exact (links_only_globals _ _ _ LO).
Qed.

Lemma place_whole_rep s X B R l1 l2 asize :
  Rep s (X ++ B :: R) (l1 ++ baddr B :: l2) -> coalesced (X ++ B :: R) ->
  balloc B = false -> 0 <= asize <= bsize B -> bsize B - asize < 24 ->
  Rep (place s (baddr B) asize) (X ++ mkBlock (baddr B) (bsize B) true :: R) (l1 ++ l2) /\
  coalesced (X ++ mkBlock (baddr B) (bsize B) true :: R) /\
  same_globals s (place s (baddr B) asize).
Proof.
  intros Rp C FB SA SR.
  destruct (place_reads _ _ _ _ _ _ Rp) as (R1 & R2 & R3).
  destruct Rp as [H FL Pm]. unfold fidelity in Pm.
  assert (HX : X <> []).
  { intros ->. destruct (heap_first _ _ H) as (b0 & bs0 & E0 & _ & A0).
    simpl in E0. injection E0 as <- _. congruence. }
  destruct (heap_In s _ B H ltac:(in_list)) as (OB & LB & UB).
  destruct (heap_size_bound s _ B H ltac:(in_list)) as [PB UB'].
  pose proof (hp_base _ _ H) as B0. pose proof (hp_brk _ _ H) as B1.
  pose proof (hp_max32 _ _ H) as B2. pose proof (hp_max64 _ _ H) as B3.
  pose proof (blk_mod8 _ _ OB) as MB.
  pose proof (blk_free_size _ _ OB FB) as SB.
  assert (LB8 : heap_listp s + 8 <= baddr B).
  { apply (free_in_heap s (X ++ B :: R)); [assumption|].
    exists B. repeat split; [in_list | assumption]. }
  pose proof (hp_contig _ _ H) as Cg. apply contig_split in Cg as [C1 C2].
  pose proof (nodes_of_rep _ _ _ H Pm) as Nd.
  set (bp := baddr B) in *. set (csize := bsize B) in *.
  set (pred := last l1 (heap_listp s)) in *. set (succ := hd (heap_listp s) l2) in *.
  set (s2 := PUT (PUT s (bp - 4) (PACK csize 1)) (bp + csize - 8) (PACK csize 1)).
  set (A := mkBlock bp csize true).
  assert (E : place s bp asize =
    if pred =? heap_listp s then
      if succ =? heap_listp s then set_first_free s2 succ
      else SET_PRED (set_first_free s2 succ) succ (heap_listp s)
    else
      if succ =? heap_listp s then SET_SUCC s2 pred succ
      else SET_PRED (SET_SUCC s2 pred succ) succ pred).
  { unfold place. rewrite R1, R2, R3.
    rewrite wrap64_small by lia. unfold DSIZE.
    destruct (Z.leb_spec (3 * 8) (csize - asize)) as [?|_]; [lia|].
    unfold FTRP, HDRP, WSIZE, DSIZE.
    rewrite GET_SIZE_PUT_same_1 by (try assumption; lia).
    fold s2. cbv zeta. autorewrite with globals.
    change (heap_listp s2) with (heap_listp s).
    destruct (pred =? heap_listp s); autorewrite with globals;
      change (heap_listp s2) with (heap_listp s);
      destruct (succ =? heap_listp s); reflexivity. }
  rewrite E. clear E.
  assert (F : forall q, q + 8 <= bp \/ bp + csize - 4 <= q -> GET s2 q = GET s q).
  { intros q Hq. subst s2. rewrite !GET_PUT_other by (unfold sep; lia). reflexivity. }
  assert (H2 : Heap s2 (X ++ [A] ++ R)).
  { apply (heap_replace s s2 X [B] [A] R bp (bp + csize)); try reflexivity; try assumption.
    - simpl. auto.
    - simpl. auto.
    - constructor; [|constructor]; unfold blk_ok, tag; simpl;
        change (heap_listp s2) with (heap_listp s).
      assert (G1 : GET s2 (bp - 4) = csize + 1).
      { subst s2. rewrite !GET_PUT_other by (unfold sep; lia).
        apply GET_PUT_PACK_1; try assumption; lia. }
      assert (G2 : GET s2 (bp + csize - 8) = csize + 1).
      { subst s2. apply GET_PUT_PACK_1; try assumption; lia. }
      rewrite G1, G2. repeat split; try lia; try assumption; discriminate. }
  assert (Out : forall a, In a (l1 ++ bp :: l2) -> a = bp \/ a + 24 <= bp \/ bp + csize <= a).
  { intros a Ha. apply (Permutation_in _ Pm) in Ha.
    rewrite free_addrs_app, free_addrs_cons, FB in Ha.
    apply in_app_or in Ha as [Ha|[Ha|Ha]]; [right | left; auto | right];
      apply (free_outside s X B R a H); in_list. }
  assert (FL2 : FreeList s2 (l1 ++ bp :: l2)).
  { apply (FreeList_same s); try reflexivity; try assumption.
    intros a Ha. pose proof (Out a Ha) as Hs.
    subst s2. split; rewrite !GET_PUT_other by (unfold sep; lia); reflexivity. }
  assert (Nd2 : Nodes s2 (l1 ++ bp :: l2)) by (apply (nodes_same s); [reflexivity | assumption]).
  assert (Hpred : (pred = heap_listp s /\ l1 = []) \/
                  (pred <> heap_listp s /\ In pred l1)).
  { subst pred. destruct l1 as [|c l1]; [left; auto | right].
    assert (I : In (last (c :: l1) (heap_listp s)) (c :: l1)) by (apply last_In; discriminate).
    split; [|assumption].
    pose proof (nd_ok _ _ Nd _ (in_or_app _ _ _ (or_introl I))) as O.
    unfold addr_ok in O. lia. }
  assert (Hsucc : succ = heap_listp s \/ (succ <> heap_listp s /\ In succ l2)).
  { subst succ. destruct l2 as [|c l2]; [left; reflexivity | right].
    split; [|left; reflexivity]. okk Nd c. simpl. lia. }
  set (sf := if pred =? heap_listp s then _ else _).
  assert (FLf : FreeList sf (l1 ++ l2) /\ links_only (l1 ++ l2) s2 sf).
  { subst sf. destruct Hpred as [[Ep El]|[Ep Ip]].
    - subst l1. rewrite Ep, Z.eqb_refl. cbn [app] in *.
      pose proof (pop_list s2 bp l2 FL2 Nd2) as P. cbv zeta in P.
      change (heap_listp s2) with (heap_listp s) in P. fold succ in P.
      split; [exact P|].
      destruct (Z.eqb_spec succ (heap_listp s)) as [Es|Es]; [lo|].
      destruct Hsucc as [?|[_ Is]]; [contradiction|]. lo.
    - destruct (Z.eqb_spec pred (heap_listp s)) as [?|_]; [contradiction|].
      assert (Hl1 : l1 <> []) by (intros ->; contradiction).
      pose proof (unlink_list s2 l1 bp l2 FL2 Nd2 Hl1) as U. cbv zeta in U.
      change (heap_listp s2) with (heap_listp s) in U. fold pred succ in U.
      split; [exact U|].
      destruct (Z.eqb_spec succ (heap_listp s)) as [Es|Es]; [lo|].
      destruct Hsucc as [?|[_ Is]]; [contradiction|]. lo. }
  destruct FLf as [FLf LO].
  assert (Pmf : Permutation (l1 ++ l2) (free_addrs (X ++ A :: R))).
  { rewrite free_addrs_app, free_addrs_cons, FB in Pm.
    rewrite free_addrs_app, !free_addrs_cons. simpl.
    apply Permutation_app_inv in Pm. exact Pm. }
  split; [|split].
  - constructor; [|exact FLf|exact Pmf].
    eapply heap_links_only; [exact H2 | | exact LO].
    intros a Ha. apply free_addrs_In. eapply Permutation_in; [exact Pmf|]. exact Ha.
  - apply coalesced_app in C as (CX & CR & _). apply coalesced_cons in CR as [CR1 CR2].
    apply coalesced_app. split; [assumption|]. split.
    + apply coalesced_cons. split; [left; reflexivity|assumption].
    + right. reflexivity.
  - apply (same_globals_trans _ s2); [repeat split|].
    exact (links_only_globals _ _ _ LO).
Qed.

(** ** find_fit *)

Lemma find_fit_from_spec s asize l :
  forall prev fuel,
  chain s prev l (heap_listp s) ->
  (forall a, In a l -> a <> heap_listp s /\ GET_ALLOC s (HDRP a) = 0) ->
  (length l < fuel)%nat ->
  find_fit_from fuel s asize (hd (heap_listp s) l) =
  Done (ptr_of (first_fit (fun a => GET_SIZE s (HDRP a)) l asize)).
Proof.
  induction l as [|a l IH]; intros prev fuel C F Hf.
  - destruct fuel as [|fuel]; [simpl in Hf; lia|]. simpl. rewrite Z.eqb_refl. reflexivity.
  - destruct fuel as [|fuel]; [simpl in Hf; lia|].
    destruct (F a (or_introl eq_refl)) as [Na Fa].
    destruct C as (_ & Sa & C).
    cbn [hd find_fit_from first_fit find].
    destruct (Z.eqb_spec a (heap_listp s)) as [?|_]; [contradiction|].
    rewrite Fa. cbn [nz Z.eqb negb andb].
    destruct (asize <=? GET_SIZE s (HDRP a)); [reflexivity|].
    rewrite Sa. apply (IH a); [assumption | | simpl in Hf; lia].
    intros c Hc. apply F. right. assumption.
Qed.

Lemma rep_free_block s bs fl a :
  Rep s bs fl -> In a fl ->
  exists b, In b bs /\ baddr b = a /\ balloc b = false /\
            a <> heap_listp s /\ GET_ALLOC s (HDRP a) = 0 /\
            GET_SIZE s (HDRP a) = bsize b.
Proof.
  intros [H FL Pm] Ha. apply (fidelity_In _ _ _ Pm) in Ha.
  destruct Ha as (b & Hb & <- & Fb). exists b.
  destruct (heap_In _ _ _ H Hb) as (O & _).
  repeat split; try assumption.
  - destruct O as (_ & _ & _ & _ & _ & N). auto.
  - rewrite (blk_alloc_hdr s b) by auto. rewrite Fb. reflexivity.
  - apply (blk_size_hdr s b); auto.
Qed.

Lemma find_fit_rep s bs fl asize fuel :
  Rep s bs fl -> (length fl < fuel)%nat ->
  find_fit fuel s asize =
  Done (ptr_of (first_fit (fun a => GET_SIZE s (HDRP a)) fl asize)).
Proof.
  intros Rp Hf. unfold find_fit.
  rewrite (fl_head _ _ (rep_list _ _ _ Rp)).
  apply (find_fit_from_spec s asize fl (heap_listp s)); [|  |assumption].
  - exact (fl_chain _ _ (rep_list _ _ _ Rp)).
  - intros a Ha. destruct (rep_free_block _ _ _ _ Rp Ha) as (b & _ & _ & _ & N & A & _).
    auto.
Qed.

(** Whatever [find_fit] returns is null or a fitting node of the list,
    whichever the fuel. *)
Lemma find_fit_from_sound s asize l :
  forall prev fuel r,
  chain s prev l (heap_listp s) ->
  (forall a, In a l -> a <> heap_listp s) ->
  find_fit_from fuel s asize (hd (heap_listp s) l) = Done r ->
  r = NULL \/ (In r l /\ asize <= GET_SIZE s (HDRP r)).
Proof.
  induction l as [|a l IH]; intros prev fuel r C F E.
  - destruct fuel as [|fuel]; [discriminate|]. simpl in E. rewrite Z.eqb_refl in E.
    injection E as <-. left. reflexivity.
  - destruct fuel as [|fuel]; [discriminate|].
    pose proof (F a (or_introl eq_refl)) as Na.
    destruct C as (_ & Sa & C).
    cbn [hd find_fit_from] in E.
    destruct (Z.eqb_spec a (heap_listp s)) as [?|_]; [contradiction|].
    destruct (negb (nz (GET_ALLOC s (HDRP a))) && (asize <=? GET_SIZE s (HDRP a))) eqn:T.
    + injection E as <-. right. apply andb_prop in T as [_ T]. apply Z.leb_le in T.
      split; [left; reflexivity | assumption].
    + rewrite Sa in E. destruct (IH a fuel r C) as [?|[I L]]; auto.
      * intros c Hc. apply F. right. assumption.
      * right. split; [right|]; assumption.
Qed.

(** ** malloc *)

Lemma adjusted_size_spec size :
  0 < size -> size + 15 < 2 ^ 64 ->
  24 <= adjusted_size size /\ adjusted_size size mod 8 = 0 /\
  size + 8 <= adjusted_size size /\ adjusted_size size < size + 24 /\
  adjusted_size size < 2 ^ 64.
Proof.
  intros Hp Hs. unfold adjusted_size, MINBLKSIZE, DSIZE, wrap64.
  destruct (Z.leb_spec size (2 * 8)).
  - repeat split; try lia.
  - rewrite (Z.mod_small (size + 8 + (8 - 1))) by lia.
    rewrite Z.mod_small by (Z.div_mod_to_equations; lia).
    repeat split; Z.div_mod_to_equations; lia.
Qed.

Lemma place_rep s bs fl B asize :
  Rep s bs fl -> coalesced bs -> In B bs -> balloc B = false ->
  24 <= asize -> asize mod 8 = 0 -> asize <= bsize B ->
  exists bs' fl' b,
    Rep (place s (baddr B) asize) bs' fl' /\ coalesced bs' /\
    In b bs' /\ baddr b = baddr B /\ balloc b = true /\
    asize <= bsize b < asize + 24 /\
    (forall c, In c bs -> balloc c = true -> In c bs') /\
    same_globals s (place s (baddr B) asize).
Proof.
  intros Rp C HB FB SA M8 LA.
  destruct (in_split _ _ HB) as (X & R & ->).
  assert (Ifl : In (baddr B) fl).
  { apply (fidelity_In _ _ _ (rep_fid _ _ _ Rp)). exists B. auto. }
  destruct (in_split _ _ Ifl) as (l1 & l2 & ->).
  destruct (Z.le_gt_cases 24 (bsize B - asize)) as [S|S].
  - destruct (place_split_rep s X B R l1 l2 asize Rp C FB SA M8 S) as (Q1 & Q2 & Q3).
    eexists _, _, (mkBlock (baddr B) asize true).
    split; [exact Q1|]. split; [exact Q2|].
    split; [in_list|]. split; [reflexivity|]. split; [reflexivity|].
    split; [simpl; lia|]. split; [|exact Q3].
    intros c Hc Ac. apply in_app_or in Hc as [Hc|[<-|Hc]]; try congruence; in_list.
  - destruct (place_whole_rep s X B R l1 l2 asize Rp C FB ltac:(lia) ltac:(lia)) as (Q1 & Q2 & Q3).
    eexists _, _, (mkBlock (baddr B) (bsize B) true).
    split; [exact Q1|]. split; [exact Q2|].
    split; [in_list|]. split; [reflexivity|]. split; [reflexivity|].
    split; [simpl; lia|]. split; [|exact Q3].
    intros c Hc Ac. apply in_app_or in Hc as [Hc|[<-|Hc]]; try congruence; in_list.
Qed.

Lemma extend_size_even x :
  x mod 8 = 0 -> 0 <= x < 2 ^ 64 -> extend_size (x / WSIZE) = x.
Proof.
  intros M R. unfold extend_size, WSIZE, nz, wrap64.
  assert (E : (x / 4) mod 2 = 0) by (Z.div_mod_to_equations; lia).
  rewrite E. cbn [Z.eqb negb].
  assert (E2 : x / 4 * 4 = x) by (Z.div_mod_to_equations; lia).
  rewrite E2. apply Z.mod_small. assumption.
Qed.

Lemma MAX_spec a : MAX a CHUNKSIZE = Z.max a 512.
Proof.
  unfold MAX, CHUNKSIZE. change (Z.shiftl 1 9) with 512.
  destruct (Z.ltb_spec 512 a); lia.
Qed.

Lemma malloc_rep s bs fl fuel size r :
  Rep s bs fl -> coalesced bs -> 0 <= size -> size + 15 < 2 ^ 64 ->
  malloc fuel s size = Done r -> malloc_post s bs size r.
Proof.
  intros Rp C S0 S1 E. pose proof (hp_base _ _ (rep_heap _ _ _ Rp)) as B0.
  unfold malloc in E. destruct (Z.eqb_spec (heap_listp s) 0) as [?|_]; [lia|].
  unfold malloc_body in E.
  destruct (Z.eqb_spec size 0) as [Z0|Z0].
  { injection E as <-. left. auto. }
  destruct (adjusted_size_spec size ltac:(lia) S1) as (A24 & A8 & AL & AU & A64).
  set (asize := adjusted_size size) in *.
  destruct (find_fit fuel s asize) as [bp| |] eqn:Ef; try discriminate.
  unfold find_fit in Ef. rewrite (fl_head _ _ (rep_list _ _ _ Rp)) in Ef.
  apply (find_fit_from_sound s asize fl (heap_listp s)) in Ef;
    [|exact (fl_chain _ _ (rep_list _ _ _ Rp))|].
  2:{ intros a Ha. destruct (rep_free_block _ _ _ _ Rp Ha) as (b & _ & _ & _ & N & _). exact N. }
  destruct (Z.eqb_spec bp NULL) as [En|En]; cbn [negb] in E.
  - (* no fit: extend the heap *)
    rewrite MAX_spec in E.
    set (ext := Z.max asize 512) in *.
    assert (M8 : ext mod 8 = 0).
    { subst ext. destruct (Z.max_spec asize 512) as [[_ ->]|[_ ->]]; [reflexivity | assumption]. }
    assert (Ee : extend_size (ext / WSIZE) = ext) by (apply extend_size_even; [assumption | subst ext; lia]).
    destruct (Z.le_gt_cases (mem_brk s + ext) (mem_max_addr s)) as [Hs|Hs].
    + pose proof (extend_heap_rep s bs fl (ext / WSIZE) Rp C) as P.
      rewrite Ee in P. specialize (P ltac:(subst ext; lia) Hs). cbv zeta in P.
      destruct (extend_heap s (ext / WSIZE)) as [s1 bp1].
      destruct P as (bs1 & fl1 & b1 & Q1 & Q2 & Q3 & Q4 & Q5 & Q6 & Q7 & Q8 & Q9).
      cbn [fst snd bsize] in *.
      destruct (free_in_heap s1 bs1 bp1 (rep_heap _ _ _ Q1)) as [Lb _].
      { exists b1. auto. }
      pose proof (hp_base _ _ (rep_heap _ _ _ Q1)).
      destruct (Z.eqb_spec bp1 NULL) as [?|_]; [unfold NULL in *; lia|].
      injection E as <-. right. subst bp1.
      destruct (place_rep s1 bs1 fl1 b1 asize Q1 Q2 Q3 Q5 A24 A8 ltac:(subst ext; lia))
        as (bs' & fl' & b & P1 & P2 & P3 & P4 & P5 & P6 & P7 & P8).
      exists bs', fl', b. cbn [fst snd].
      split; [exact P1|]. split; [exact P2|]. split; [exact P3|]. split; [exact P4|].
      split; [exact P5|]. split; [exact P6|]. split; [|split; [|split]].
      * intros c Hc Ac. apply P7; [|assumption]. apply Q7; [in_list | assumption].
      * destruct P8 as (G1 & _). destruct Q8 as (G2 & _). rewrite G1, G2. reflexivity.
      * destruct P8 as (_ & _ & G1). destruct Q8 as (_ & _ & G2). rewrite G1, G2. reflexivity.
      * intros c Hc Ac Eq.
        assert (Hc1 : In c bs1) by (apply Q7; [in_list | assumption]).
        rewrite (heap_addr_inj s1 bs1 c b1 (rep_heap _ _ _ Q1) Hc1 Q3 Eq) in Ac. congruence.
    + rewrite extend_heap_fail in E by (rewrite Ee; lia).
      cbn [Z.eqb NULL] in E. injection E as <-. left. auto.
  - destruct Ef as [?|[Ibp Lbp]]; [contradiction|].
    destruct (rep_free_block _ _ _ _ Rp Ibp) as (B & HB & EB & FB & _ & _ & SzB).
    injection E as <-. right. subst bp. rewrite SzB in Lbp.
    destruct (place_rep s bs fl B asize Rp C HB FB A24 A8 Lbp)
      as (bs' & fl' & b & P1 & P2 & P3 & P4 & P5 & P6 & P7 & P8).
    exists bs', fl', b. cbn [fst snd].
    split; [exact P1|]. split; [exact P2|]. split; [exact P3|]. split; [exact P4|].
    split; [exact P5|]. split; [exact P6|]. split; [exact P7|].
    destruct P8 as (G1 & _ & G3). split; [exact G1|]. split; [exact G3|].
    intros c Hc Ac Eq.
    rewrite (heap_addr_inj s bs c B (rep_heap _ _ _ Rp) Hc HB Eq) in Ac. congruence.
Qed.

(** ** Writes into the payload of an allocated block *)

Lemma GET_set_mem_outside s m lo hi q :
  (forall x, x < lo \/ hi <= x -> m x = mem s x) ->
  q + 4 <= lo \/ hi <= q -> GET (set_mem s m) q = GET s q.
Proof.
  intros F Hq. unfold GET, load32, load8. simpl.
  rewrite !F by lia. reflexivity.
Qed.

Lemma payload_write_rep s bs fl b m :
  Rep s bs fl -> In b bs -> balloc b = true ->
  (forall x, x < baddr b \/ baddr b + bsize b - 8 <= x -> m x = mem s x) ->
  Rep (set_mem s m) bs fl.
Proof.
  intros [H FL Pm] Hb Ab F.
  destruct (heap_In _ _ _ H Hb) as (Ob & _ & Ub). pose proof (blk_min_size _ _ Ob) as Sb.
  assert (G : forall q, q + 4 <= baddr b \/ baddr b + bsize b - 8 <= q ->
                        GET (set_mem s m) q = GET s q).
  { intros q Hq. eapply GET_set_mem_outside; eauto. }
  constructor; [| |exact Pm].
  - apply (heap_same s); try reflexivity; try assumption.
    + intros c Hc. destruct (heap_In _ _ _ H Hc) as (Oc & _).
      pose proof (blk_min_size _ _ Oc).
      destruct (heap_sep _ _ _ _ H Hb Hc) as [<-|D]; split; apply G; lia.
    + apply G. lia.
  - apply (FreeList_same s); try reflexivity; try assumption.
    intros a Ha. apply (fidelity_In _ _ _ Pm) in Ha. destruct Ha as (c & Hc & <- & Fc).
    destruct (heap_In _ _ _ H Hc) as (Oc & _). pose proof (blk_free_size _ _ Oc Fc).
    destruct (heap_sep _ _ _ _ H Hb Hc) as [<-|D]; [congruence|].
    split; apply G; lia.
Qed.

Lemma memcpy_rep s bs fl b src n s' :
  Rep s bs fl -> In b bs -> balloc b = true -> n <= bsize b - 8 ->
  memcpy s (baddr b) src n = Some s' -> Rep s' bs fl.
Proof.
  intros Rp Hb Ab Hn E. unfold memcpy in E.
  destruct ((0 <? n) && ((baddr b =? NULL) || (src =? NULL))); [discriminate|].
  injection E as <-. apply (payload_write_rep s bs fl b); try assumption.
  intros x Hx.
  destruct (Z.leb_spec (baddr b) x), (Z.ltb_spec x (baddr b + n)); cbn [andb]; try reflexivity.
  lia.
Qed.

Lemma memset_rep s bs fl b c n s' :
  Rep s bs fl -> In b bs -> balloc b = true -> n <= bsize b - 8 ->
  memset s (baddr b) c n = Some s' -> Rep s' bs fl.
Proof.
  intros Rp Hb Ab Hn E. unfold memset in E.
  destruct ((0 <? n) && (baddr b =? NULL)); [discriminate|].
  injection E as <-. apply (payload_write_rep s bs fl b); try assumption.
  intros x Hx.
  destruct (Z.leb_spec (baddr b) x), (Z.ltb_spec x (baddr b + n)); cbn [andb]; try reflexivity.
  lia.
Qed.

(** ** mm_init *)

Lemma mm_init_eq s0 :
  mem_brk s0 + 16 <= mem_max_addr s0 -> mem_max_addr s0 < 2 ^ 64 ->
  mm_init s0 =
  (fst (extend_heap (init_state s0) (CHUNKSIZE / WSIZE)),
   if snd (extend_heap (init_state s0) (CHUNKSIZE / WSIZE)) =? NULL then -1 else 0).
Proof.
  intros Hs Hm. unfold mm_init, mem_sbrk, WSIZE, DSIZE.
  change (0 <=? 4 * 4) with true. cbn [andb].
  destruct (Z.leb_spec (mem_brk s0 + 4 * 4) (mem_max_addr s0)) as [_|?]; [|lia].
  assert (Nf : (mem_brk s0 =? SBRK_FAILED) = false).
  { apply Z.eqb_neq. unfold SBRK_FAILED, wrap64. change ((-1) mod 2 ^ 64) with (2 ^ 64 - 1). lia. }
  rewrite Nf.
  change (extend_heap _ (CHUNKSIZE / 4)) with (extend_heap (init_state s0) (CHUNKSIZE / 4)).
  destruct (extend_heap (init_state s0) (CHUNKSIZE / 4)) as [s bp]. cbn [fst snd].
  destruct (bp =? NULL); reflexivity.
Qed.

Lemma mm_init_fail s0 :
  mem_max_addr s0 < mem_brk s0 + 16 -> snd (mm_init s0) = -1.
Proof.
  intros Hs. unfold mm_init, mem_sbrk, WSIZE.
  change (0 <=? 4 * 4) with true. cbn [andb].
  destruct (Z.leb_spec (mem_brk s0 + 4 * 4) (mem_max_addr s0)) as [?|_]; [lia|].
  rewrite Z.eqb_refl. reflexivity.
Qed.

Lemma init_state_rep s0 :
  0 <= mem_brk s0 -> mem_brk s0 + 16 <= mem_max_addr s0 ->
  mem_max_addr s0 < 2 ^ 64 -> mem_max_addr s0 < mem_brk s0 + 8 + 2 ^ 32 ->
  Rep (init_state s0) [mkBlock (mem_brk s0 + 8) 8 true] [].
Proof.
  intros B0 Hs B1 B2. set (p := mem_brk s0) in *.
  assert (G1 : GET (init_state s0) (p + 4) = 9).
  { unfold init_state. fold p. cbv zeta.
    change (GET (PUT (PUT (PUT (PUT (set_heap_listp (set_brk s0 (p + 16)) p) p 0)
                                (p + 4) (PACK 8 1)) (p + 8) (PACK 8 1)) (p + 12) (PACK 0 1))
                (p + 4) = 9).
    rewrite !GET_PUT_other by (unfold sep; lia). rewrite GET_PUT_same. reflexivity. }
  assert (G2 : GET (init_state s0) (p + 8) = 9).
  { unfold init_state. fold p. cbv zeta.
    change (GET (PUT (PUT (PUT (PUT (set_heap_listp (set_brk s0 (p + 16)) p) p 0)
                                (p + 4) (PACK 8 1)) (p + 8) (PACK 8 1)) (p + 12) (PACK 0 1))
                (p + 8) = 9).
    rewrite !GET_PUT_other by (unfold sep; lia). rewrite GET_PUT_same. reflexivity. }
  assert (G3 : GET (init_state s0) (p + 12) = 1).
  { unfold init_state. fold p. cbv zeta.
    change (GET (PUT (PUT (PUT (PUT (set_heap_listp (set_brk s0 (p + 16)) p) p 0)
                                (p + 4) (PACK 8 1)) (p + 8) (PACK 8 1)) (p + 12) (PACK 0 1))
                (p + 12) = 1).
    rewrite GET_PUT_same. reflexivity. }
  constructor.
  - constructor.
    + change (0 < p + 8). lia.
    + change (p + 16 <= mem_max_addr s0). lia.
    + change (mem_max_addr s0 < p + 8 + 2 ^ 32). lia.
    + exact B1.
    + discriminate.
    + change (contig (p + 8) [mkBlock (p + 8) 8 true] (p + 16)). simpl. split; [reflexivity | lia].
    + constructor; [|constructor]. unfold blk_ok, tag. cbn [baddr bsize balloc].
      change (heap_listp (init_state s0)) with (p + 8).
      replace (p + 8 - 4) with (p + 4) by lia. replace (p + 8 + 8 - 8) with (p + 8) by lia.
      rewrite G1, G2. repeat split; try lia; try reflexivity; try discriminate.
    + change (GET (init_state s0) (p + 16 - 4) = 1).
      replace (p + 16 - 4) with (p + 12) by lia. exact G3.
  - constructor; [reflexivity | exact I | constructor].
  - apply Permutation_refl.
Qed.

Lemma mm_init_rep s0 :
  0 <= mem_brk s0 -> mem_max_addr s0 < 2 ^ 64 ->
  mem_max_addr s0 < mem_brk s0 + 8 + 2 ^ 32 ->
  snd (mm_init s0) = 0 ->
  exists bs fl, Rep (fst (mm_init s0)) bs fl /\ coalesced bs.
Proof.
  intros B0 B1 B2 E.
  destruct (Z.le_gt_cases (mem_brk s0 + 16) (mem_max_addr s0)) as [Hs|Hs].
  2:{ rewrite mm_init_fail in E by assumption. discriminate. }
  rewrite mm_init_eq in * by assumption. cbn [fst snd] in *.
  pose proof (init_state_rep s0 B0 Hs B1 B2) as Rp.
  change (CHUNKSIZE / WSIZE) with 128 in *.
  destruct (Z.le_gt_cases (mem_brk (init_state s0) + extend_size 128) (mem_max_addr (init_state s0)))
    as [He|He].
  - destruct (extend_heap_rep (init_state s0) _ _ 128 Rp) as (bs & fl & b & Q1 & Q2 & _);
      try assumption.
    + exact I.
    + change (extend_size 128) with 512. lia.
    + exists bs, fl. auto.
  - rewrite extend_heap_fail in E by assumption. discriminate.
Qed.

(** ** The walks compute the abstract heap and list *)

Lemma blocks_from_mono s f f' a l :
  blocks_from f s a = Some l -> (f <= f')%nat -> blocks_from f' s a = Some l.
Proof.
  revert f' a l. induction f as [|f IH]; intros f' a l E Hf; [discriminate|].
  destruct f' as [|f']; [lia|]. simpl in *.
  destruct (GET_SIZE s (HDRP a) =? 0); [assumption|].
  destruct (blocks_from f s (NEXT_BLKP s a)) as [l'|] eqn:E'; [|discriminate].
  rewrite (IH f' _ _ E') by lia. assumption.
Qed.

Lemma list_from_mono s f f' a l :
  list_from f s a = Some l -> (f <= f')%nat -> list_from f' s a = Some l.
Proof.
  revert f' a l. induction f as [|f IH]; intros f' a l E Hf; [discriminate|].
  destruct f' as [|f']; [lia|]. simpl in *.
  destruct (a =? heap_listp s); [assumption|].
  destruct (list_from f s (GET_SUCC s a)) as [l'|] eqn:E'; [|discriminate].
  rewrite (IH f' _ _ E') by lia. assumption.
Qed.

Lemma blocks_from_rep s l :
  forall a e f,
  Forall (blk_ok s) l -> contig a l e -> GET s (e - 4) = 1 ->
  (length l < f)%nat -> blocks_from f s a = Some l.
Proof.
  induction l as [|b l IH]; intros a e f O C Ep Hf.
  - destruct f as [|f]; [simpl in Hf; lia|]. simpl in C. subst e.
    simpl. unfold GET_SIZE, HDRP, WSIZE. rewrite Ep. reflexivity.
  - destruct f as [|f]; [simpl in Hf; lia|].
    destruct C as [Ea C]. apply Forall_cons_iff in O as [Ob O].
    cbn [blocks_from].
    rewrite (blk_size_hdr s b) by (auto; unfold HDRP, WSIZE; lia).
    rewrite (blk_alloc_hdr s b) by (auto; unfold HDRP, WSIZE; lia).
    pose proof (blk_ok_pos _ _ Ob).
    destruct (Z.eqb_spec (bsize b) 0) as [?|_]; [lia|].
    subst a. rewrite (blk_NEXT s b Ob).
    rewrite (IH _ e f O C Ep) by (simpl in Hf; lia).
    simpl. f_equal. destruct b as [ba bz [|]]; reflexivity.
Qed.

Lemma heap_blocks_rep s bs f :
  Heap s bs -> (length bs < f)%nat -> heap_blocks f s = Some bs.
Proof.
  intros H Hf. unfold heap_blocks.
  apply (blocks_from_rep s bs _ (mem_brk s)); try assumption.
  - exact (hp_blocks _ _ H).
  - exact (hp_contig _ _ H).
  - exact (hp_epilogue _ _ H).
Qed.

Lemma heap_blocks_unique s bs f bs' :
  Heap s bs -> heap_blocks f s = Some bs' -> bs' = bs.
Proof.
  intros H E. unfold heap_blocks in E.
  pose proof (heap_blocks_rep s bs (S (length bs) + f) H ltac:(lia)) as E1.
  apply (blocks_from_mono _ _ (S (length bs) + f)) in E; [|lia].
  unfold heap_blocks in E1. congruence.
Qed.

Lemma list_from_rep s l :
  forall prev f,
  chain s prev l (heap_listp s) -> (forall a, In a l -> a <> heap_listp s) ->
  (length l < f)%nat -> list_from f s (hd (heap_listp s) l) = Some l.
Proof.
  induction l as [|a l IH]; intros prev f C N Hf.
  - destruct f as [|f]; [simpl in Hf; lia|]. simpl. rewrite Z.eqb_refl. reflexivity.
  - destruct f as [|f]; [simpl in Hf; lia|].
    destruct C as (_ & Sa & C). cbn [hd list_from].
    destruct (Z.eqb_spec a (heap_listp s)) as [E|_].
    { exfalso. apply (N a); [left; reflexivity | assumption]. }
    rewrite Sa. rewrite (IH a f C) by (try (simpl in Hf; lia); intros c Hc; apply N; right; assumption).
    reflexivity.
Qed.

Lemma free_list_rep s bs fl f :
  Rep s bs fl -> (length fl < f)%nat -> free_list f s = Some fl.
Proof.
  intros Rp Hf. unfold free_list. rewrite (fl_head _ _ (rep_list _ _ _ Rp)).
  apply (list_from_rep s fl (heap_listp s)); try assumption.
  - exact (fl_chain _ _ (rep_list _ _ _ Rp)).
  - intros a Ha. destruct (rep_free_block _ _ _ _ Rp Ha) as (b & _ & _ & _ & N & _). exact N.
Qed.

(** ** What the invariant says about the concrete heap *)







Lemma allocated_block_rep s bs fl ptr :
  Rep s bs fl -> allocated_block s ptr ->
  exists X B R, bs = X ++ B :: R /\ baddr B = ptr /\ balloc B = true /\
                ptr <> heap_listp s.
Proof.
  intros Rp (Np & f & bs' & b & E & Hb & Eb & Ab).
  apply (heap_blocks_unique s bs) in E; [|exact (rep_heap _ _ _ Rp)]. subst bs'.
  destruct (in_split _ _ Hb) as (X & R & ->).
  exists X, b, R. auto.
Qed.

(** ** Every operation keeps the invariant *)

Lemma mm_init_Inv s0 :
  0 <= mem_brk s0 -> mem_max_addr s0 < 2 ^ 64 ->
  mem_max_addr s0 < mem_brk s0 + 8 + 2 ^ 32 ->
  snd (mm_init s0) = 0 -> Inv (fst (mm_init s0)).
Proof.
  intros. destruct (mm_init_rep s0) as (bs & fl & Rp & C); try assumption.
  exists bs, fl. auto.
Qed.

Lemma malloc_Inv s fuel size r :
  Inv s -> 0 <= size -> size + 15 < 2 ^ 64 ->
  malloc fuel s size = Done r -> Inv (fst r).
Proof.
  intros (bs & fl & Rp & C) S0 S1 E.
  destruct (malloc_rep s bs fl fuel size r Rp C S0 S1 E)
    as [[_ ->] | (bs' & fl' & b & Rp' & C' & _)].
  - exists bs, fl. auto.
  - exists bs', fl'. auto.
Qed.

Lemma free_NULL s : free s NULL = s.
Proof. reflexivity. Qed.

Lemma free_Inv s ptr :
  Inv s -> ptr = NULL \/ allocated_block s ptr -> Inv (free s ptr).
Proof.
  intros (bs & fl & Rp & C) [-> | A].
  - rewrite free_NULL. exists bs, fl. auto.
  - destruct (allocated_block_rep _ _ _ _ Rp A) as (X & B & R & -> & <- & AB & NB).
    destruct (free_rep s X B R fl Rp C AB NB) as (bs' & fl' & Rp' & C' & _).
    exists bs', fl'. auto.
Qed.

Lemma extend_heap_Inv s words :
  Inv s -> 24 <= extend_size words -> Inv (fst (extend_heap s words)).
Proof.
  intros (bs & fl & Rp & C) S.
  destruct (Z.le_gt_cases (mem_brk s + extend_size words) (mem_max_addr s)) as [Hs|Hs].
  - destruct (extend_heap_rep s bs fl words Rp C S Hs) as (bs' & fl' & b & Rp' & C' & _).
    exists bs', fl'. auto.
  - rewrite extend_heap_fail by assumption. exists bs, fl. auto.
Qed.

(** The payload of the block that [malloc] returns holds the request. *)
Lemma malloc_capacity size : 0 < size -> size + 15 < 2 ^ 64 -> size <= adjusted_size size - 8.
Proof.
  intros. destruct (adjusted_size_spec size) as (_ & _ & ? & _); lia.
Qed.

Lemma realloc_Inv s fuel ptr size r :
  Inv s -> ptr = NULL \/ allocated_block s ptr ->
  0 <= size -> size + 15 < 2 ^ 64 ->
  realloc fuel s ptr size = Done r -> Inv (fst r).
Proof.
  intros I A S0 S1 E. unfold realloc in E.
  destruct (Z.eqb_spec size 0) as [Z0|Z0].
  { injection E as <-. apply free_Inv; assumption. }
  destruct (Z.eqb_spec ptr NULL) as [Pn|Pn].
  { apply (malloc_Inv s fuel size); assumption. }
  destruct A as [?|A]; [contradiction|].
  destruct (malloc fuel s size) as [[s1 newptr]| |] eqn:Em; try discriminate.
  destruct I as (bs & fl & Rp & C).
  destruct (allocated_block_rep _ _ _ _ Rp A) as (X & B & R & Ebs & EB & AB & NB).
  destruct (malloc_rep s bs fl fuel size _ Rp C S0 S1 Em)
    as [[En Es] | (bs' & fl' & b & Rp' & C' & Hb & Eb & Ab & Lb & Pres & Ehl & _)];
    cbn [fst snd] in *.
  - rewrite En in E. cbn [Z.eqb NULL] in E. injection E as <-. subst s1.
    exists bs, fl. auto.
  - destruct (Z.eqb_spec newptr NULL) as [?|Nn].
    { injection E as <-. exists bs', fl'. auto. }
    destruct (memcpy s1 newptr ptr (realloc_copy_length s1 ptr size)) as [s2|] eqn:Ec;
      [|discriminate].
    injection E as <-. cbn [fst].
    assert (Rp2 : Rep s2 bs' fl').
    { rewrite <- Eb in Ec. apply (memcpy_rep s1 bs' fl' b ptr (realloc_copy_length s1 ptr size) s2 Rp' Hb Ab); [|exact Ec].
      pose proof (malloc_capacity size ltac:(lia) S1).
      unfold realloc_copy_length.
      destruct (Z.ltb_spec size (GET_SIZE s1 (HDRP ptr))); lia. }
    apply free_Inv; [exists bs', fl'; auto|]. right.
    split.
    + assert (Eh2 : heap_listp s2 = heap_listp s1).
      { unfold memcpy in Ec. destruct (_ && _) in Ec; [discriminate|].
        injection Ec as <-. reflexivity. }
      congruence.
    + exists (S (length bs')), bs', B.
      split; [apply heap_blocks_rep; [exact (rep_heap _ _ _ Rp2) | lia]|].
      split; [|auto]. apply Pres; [|assumption]. subst bs. in_list.
Qed.

Lemma calloc_Inv s fuel nmemb size r :
  Inv s -> wrap64 (nmemb * size) + 15 < 2 ^ 64 ->
  calloc fuel s nmemb size = Done r -> Inv (fst r).
Proof.
  intros I S1 E. unfold calloc in E.
  set (bytes := wrap64 (nmemb * size)) in *.
  assert (S0 : 0 <= bytes) by (apply Z.mod_pos_bound; lia).
  destruct (malloc fuel s bytes) as [[s1 newptr]| |] eqn:Em; try discriminate.
  destruct (memset s1 newptr 0 bytes) as [s2|] eqn:Ec; [|discriminate].
  injection E as <-. cbn [fst].
  destruct I as (bs & fl & Rp & C).
  destruct (malloc_rep s bs fl fuel bytes _ Rp C S0 S1 Em)
    as [[En Es] | (bs' & fl' & b & Rp' & C' & Hb & Eb & Ab & Lb & _)];
    cbn [fst snd] in *.
  - subst newptr s1. unfold memset in Ec.
    destruct (Z.ltb_spec 0 bytes); cbn [andb Z.eqb NULL] in Ec; [discriminate|].
    injection Ec as <-. exists bs, fl. split; [|assumption].
    destruct (heap_first _ _ (rep_heap _ _ _ Rp)) as (b0 & bs0 & Ebs & _ & A0).
    apply (payload_write_rep s bs fl b0); try assumption.
    + rewrite Ebs. left. reflexivity.
    + intros x _.
      match goal with |- (if ?c then _ else _) = _ => destruct c eqn:T end; [|reflexivity].
      apply andb_prop in T as [T1 T2]. apply Z.ltb_lt in T2. apply Z.leb_le in T1.
      unfold NULL in *. lia.
  - exists bs', fl'. split; [|assumption].
    rewrite <- Eb in Ec. apply (memset_rep s1 bs' fl' b 0 bytes s2 Rp' Hb Ab); [|exact Ec].
    destruct (Z.eq_dec bytes 0) as [->|?]; [pose proof (blk_min_size _ _ (proj1 (heap_In _ _ _ (rep_heap _ _ _ Rp') Hb))); lia|].
    pose proof (malloc_capacity bytes ltac:(lia) S1). lia.
Qed.

Theorem reachable_Inv s : reachable s -> Inv s.
Proof.
  induction 1.
  - apply mm_init_Inv; assumption.
  - eapply malloc_Inv; eauto.
  - apply free_Inv; assumption.
  - eapply realloc_Inv; eauto.
  - eapply calloc_Inv; eauto.
  - apply extend_heap_Inv; assumption.
Qed.

(** ** The walks determine the representation *)

Lemma list_from_length s :
  forall f a l, list_from f s a = Some l -> (length l < f)%nat.
Proof.
  induction f as [|f IH]; intros a l E; simpl in E; [discriminate|].
  destruct (a =? heap_listp s).
  - injection E as <-. simpl. lia.
  - destruct (list_from f s (GET_SUCC s a)) as [l'|] eqn:E'; simpl in E; [|discriminate].
    injection E as <-. apply IH in E'. simpl. lia.
Qed.

Lemma free_list_unique s bs fl f l :
  Rep s bs fl -> free_list f s = Some l -> l = fl.
Proof.
  intros Rp E.
  pose proof (free_list_rep s bs fl (f + S (length fl)) Rp ltac:(lia)) as E1.
  unfold free_list in *.
  apply (list_from_mono s f (f + S (length fl))) in E; [congruence | lia].
Qed.

Lemma Rep_of_walks s f bs fl :
  Inv s -> heap_blocks f s = Some bs -> free_list f s = Some fl ->
  Rep s bs fl /\ coalesced bs.
Proof.
  intros (bs0 & fl0 & Rp & C) Eb El.
  rewrite (heap_blocks_unique s bs0 f bs (rep_heap _ _ _ Rp) Eb).
  rewrite (free_list_unique s bs0 fl0 f fl Rp El). auto.
Qed.

Lemma done_result {A : Type} (d : A) (o : outcome A) :
  is_done o = true -> o = Done (result d o).
Proof. destruct o; simpl; congruence. Qed.

(** ** The concrete heaps are reachable *)

Ltac run := vm_compute; first [reflexivity | discriminate].

Ltac allocated_at b :=
  right; split;
  [ run
  | exists 10%nat; eexists; exists b;
    split; [vm_compute; reflexivity | split; [cbn; auto 10 | split; reflexivity]] ].

Lemma reachable_tight : reachable tight.
Proof. unfold tight. apply reach_init; run. Qed.

Lemma reachable_roomy : reachable roomy.
Proof. unfold roomy. apply reach_init; run. Qed.

Lemma reachable_got_p : reachable (fst got_p).
Proof.
  unfold got_p. apply (reach_malloc roomy 10 24 _ reachable_roomy);
    [run | run | apply done_result; run].
Qed.

Lemma reachable_got_q : reachable (fst got_q).
Proof.
  unfold got_q. apply (reach_malloc (fst got_p) 10 100 _ reachable_got_p);
    [run | run | apply done_result; run].
Qed.

Lemma reachable_got_r : reachable (fst got_r).
Proof.
  unfold got_r. apply (reach_malloc (fst got_q) 10 50 _ reachable_got_q);
    [run | run | apply done_result; run].
Qed.

Lemma allocated_q_in_holes : allocated_block holes 4144.
Proof.
  split; [run|]. exists 10%nat. eexists. exists (mkBlock 4144 112 true).
  split; [vm_compute; reflexivity|]. split; [cbn; auto 10|]. split; reflexivity.
Qed.

Lemma reachable_holes : reachable holes.
Proof.
  unfold holes.
  assert (P : snd got_p = 4112) by run. assert (Q : snd got_r = 4256) by run.
  rewrite P, Q.
  apply reach_free; [apply reach_free; [exact reachable_got_r|] |].
  - allocated_at (mkBlock 4112 32 true).
  - allocated_at (mkBlock 4256 64 true).
Qed.


Lemma reachable_got_all : reachable (fst got_all).
Proof.
  unfold got_all. apply (reach_malloc roomy 10 504 _ reachable_roomy);
    [run | run | apply done_result; run].
Qed.

(** * Part IV: the properties of the specification *)

(** ** The invariants *)





(** ** realloc: the copy length *)


(** C3 (realloc copy length), evaluated on [p = malloc(24); q = malloc(100);
    realloc(p, 100)]: the old block has 32 bytes, 24 of them payload, and
    [realloc] copies 32 bytes, so that the footer of the old block (the word
    33) lands in byte 24 of the new payload, which was 0 before. *)
Theorem realloc_copies_block_size :
  snd got_p = 4112 /\
  GET_SIZE (fst got_q) (HDRP 4112) = 32 /\
  FTRP (fst got_q) 4112 - 4112 = 24 /\
  realloc 10 (fst got_q) 4112 100 = Done moved /\
  snd moved = 4256 /\
  realloc_copy_length (fst (result (roomy, NULL) (malloc 10 (fst got_q) 100))) 4112 100 = 32 /\
  mem (fst got_q) (4256 + 24) = 0 /\
  mem (fst moved) (4256 + 24) = 33.
Proof.
  assert (P : snd got_p = 4112) by run.
  split; [exact P|]. split; [run|]. split; [run|]. split.
  { unfold moved. rewrite P. apply done_result. run. }
  repeat split; run.
Qed.

(** ** malloc without a fit *)

Lemma mem_sbrk_outcome s bs incr :
  Heap s bs -> 0 < incr ->
  (snd (mem_sbrk s incr) = SBRK_FAILED <-> mem_max_addr s < mem_brk s + incr).
Proof.
  intros H I. pose proof (hp_max64 _ _ H). unfold mem_sbrk.
  destruct (Z.leb_spec 0 incr); [|lia].
  destruct (Z.leb_spec (mem_brk s + incr) (mem_max_addr s)); cbn [andb snd].
  - unfold SBRK_FAILED, wrap64. change ((-1) mod 2 ^ 64) with (2 ^ 64 - 1). lia.
  - split; [lia | reflexivity].
Qed.

Lemma code_extendsize_spec size :
  0 < size -> size + 15 < 2 ^ 64 ->
  code_extendsize (adjusted_size size) = Z.max (adjusted_size size) 512 /\
  extend_size (code_extendsize (adjusted_size size) / WSIZE)
  = code_extendsize (adjusted_size size) /\
  512 <= code_extendsize (adjusted_size size).
Proof.
  intros S0 S1. destruct (adjusted_size_spec size S0 S1) as (A24 & A8 & AL & AU & A64).
  unfold code_extendsize. rewrite MAX_spec.
  split; [reflexivity|]. split; [|lia].
  apply extend_size_even; [|lia].
  destruct (Z.max_spec (adjusted_size size) 512) as [[_ ->]|[_ ->]];
    [reflexivity | assumption].
Qed.

Lemma malloc_no_fit_rep s bs fl fuel size :
  Rep s bs fl -> coalesced bs -> 0 < size -> size + 15 < 2 ^ 64 ->
  find_fit fuel s (adjusted_size size) = Done NULL ->
  (mem_max_addr s < mem_brk s + code_extendsize (adjusted_size size) ->
   malloc fuel s size = Done (s, NULL)) /\
  (mem_brk s + code_extendsize (adjusted_size size) <= mem_max_addr s ->
   exists r, malloc fuel s size = Done r /\ snd r <> NULL /\
             placed_in_extension s (adjusted_size size)
               (code_extendsize (adjusted_size size)) r).
Proof.
  intros Rp C S0 S1 Ef. pose proof (hp_base _ _ (rep_heap _ _ _ Rp)) as B0.
  destruct (adjusted_size_spec size S0 S1) as (A24 & A8 & AL & AU & A64).
  destruct (code_extendsize_spec size S0 S1) as (E1 & E2 & E3).
  assert (Em : malloc fuel s size =
               let '(s1, bp) := extend_heap s (code_extendsize (adjusted_size size) / WSIZE) in
               if bp =? NULL then Done (s1, NULL)
               else Done (place s1 bp (adjusted_size size), bp)).
  { unfold malloc. destruct (Z.eqb_spec (heap_listp s) 0) as [?|_]; [lia|].
    unfold malloc_body. destruct (Z.eqb_spec size 0) as [?|_]; [lia|].
    rewrite Ef. cbn [Z.eqb NULL negb]. reflexivity. }
  set (asize := adjusted_size size) in *. set (ext := code_extendsize asize) in *.
  split; intros Hs.
  - rewrite Em. rewrite extend_heap_fail by (rewrite E2; lia). reflexivity.
  - pose proof (extend_heap_rep s bs fl (ext / WSIZE) Rp C) as P.
    rewrite E2 in P. specialize (P ltac:(lia) Hs). cbv zeta in P.
    unfold placed_in_extension.
    destruct (extend_heap s (ext / WSIZE)) as [s1 bp1].
    destruct P as (bs1 & fl1 & b1 & Q1 & Q2 & Q3 & Q4 & Q5 & Q6 & Q7 & Q8 & Q9).
    cbn [fst snd bsize baddr] in *.
    destruct (free_in_heap s1 bs1 bp1 (rep_heap _ _ _ Q1)) as [Lb _].
    { exists b1. auto. }
    pose proof (hp_base _ _ (rep_heap _ _ _ Q1)).
    rewrite Em. destruct (Z.eqb_spec bp1 NULL) as [?|Nn]; [unfold NULL in *; lia|].
    eexists. split; [reflexivity|]. cbn [fst snd]. split; [exact Nn|].
    subst bp1.
    destruct (place_rep s1 bs1 fl1 b1 asize Q1 Q2 Q3 Q5 A24 A8 ltac:(lia))
      as (bs' & fl' & b & P1 & P2 & P3 & P4 & P5 & P6 & P7 & P8).
    exists bs1, fl1, b1, bs', fl', b.
    split; [exact Q1|]. split; [exact Q3|]. split; [exact Q5|]. split; [reflexivity|].
    split; [lia|]. split; [lia|]. split; [reflexivity|].
    split; [exact P1|]. split; [exact P3|]. split; [exact P4|]. split; [exact P5|].
    split; [exact P6|].
    destruct P8 as (_ & G1 & _). destruct Q8 as (_ & G2 & _). rewrite G1, G2. reflexivity.
Qed.

(** C4 as stated fails: on a heap whose only block is allocated,
    [malloc(1)] finds no fit and moves the break by 512 bytes, not by
    4096. *)
Lemma extension_is_not_4096 : ~ grows_by spec_extendsize 10 (fst got_all) 1.
Proof.
  intros G.
  specialize (G (result (roomy, NULL) (malloc 10 (fst got_all) 1))).
  assert (F : find_fit 10 (fst got_all) (adjusted_size 1) = Done NULL) by run.
  assert (M : malloc 10 (fst got_all) 1
              = Done (result (roomy, NULL) (malloc 10 (fst got_all) 1)))
    by (apply done_result; run).
  assert (N : snd (result (roomy, NULL) (malloc 10 (fst got_all) 1)) <> NULL) by run.
  specialize (G F M N). revert G. run.
Qed.

(** C4, amended (the chunk is [CHUNKSIZE] = 512 bytes).  When [malloc]
    finds no fitting free block it asks for max(asize, 512) bytes, which
    [extend_heap] passes on unchanged; if the growth primitive fails,
    [malloc] returns null and the state is as before; otherwise the break
    moves by that amount and the block is placed at the start of the free
    region that [extend_heap] returns, which covers the new memory. *)
Theorem malloc_extends_by_chunk s fuel size :
  reachable s -> 0 < size -> size + 15 < 2 ^ 64 ->
  find_fit fuel s (adjusted_size size) = Done NULL ->
  code_extendsize (adjusted_size size) = Z.max (adjusted_size size) 512 /\
  extend_size (code_extendsize (adjusted_size size) / WSIZE)
  = code_extendsize (adjusted_size size) /\
  (snd (mem_sbrk s (code_extendsize (adjusted_size size))) = SBRK_FAILED ->
   malloc fuel s size = Done (s, NULL)) /\
  (snd (mem_sbrk s (code_extendsize (adjusted_size size))) <> SBRK_FAILED ->
   exists r, malloc fuel s size = Done r /\ snd r <> NULL /\
             placed_in_extension s (adjusted_size size)
               (code_extendsize (adjusted_size size)) r).
Proof.
  intros R S0 S1 Ef. apply reachable_Inv in R. destruct R as (bs & fl & Rp & C).
  destruct (code_extendsize_spec size S0 S1) as (E1 & E2 & E3).
  destruct (malloc_no_fit_rep s bs fl fuel size Rp C S0 S1 Ef) as [F G].
  pose proof (mem_sbrk_outcome s bs (code_extendsize (adjusted_size size))
                (rep_heap _ _ _ Rp) ltac:(lia)) as O.
  split; [exact E1|]. split; [exact E2|]. split.
  - intros Hf. apply F, O, Hf.
  - intros Hs. apply G.
    destruct (Z.le_gt_cases (mem_brk s + code_extendsize (adjusted_size size))
                (mem_max_addr s)) as [?|Hlt]; [assumption|].
    destruct Hs. apply O. lia.
Qed.

Lemma malloc_extends_by_chunk_witness :
  malloc 10 (fst tight_p) 1000 = Done (fst tight_p, NULL) /\
  exists r, malloc 10 (fst got_all) 1 = Done r /\ snd r <> NULL /\
            placed_in_extension (fst got_all) (adjusted_size 1)
              (code_extendsize (adjusted_size 1)) r.
Proof.
  split.
  - apply (malloc_extends_by_chunk (fst tight_p) 10 1000); try run.
    unfold tight_p. apply (reach_malloc tight 10 24 _ reachable_tight);
      [run | run | apply done_result; run].
  - apply (malloc_extends_by_chunk (fst got_all) 10 1); try run.
    exact reachable_got_all.
Defined.

(** ** Out of memory *)

(** A null result of [malloc] leaves the state as it was. *)
Lemma malloc_null_unchanged s fuel size r :
  Inv s -> 0 <= size -> size + 15 < 2 ^ 64 ->
  malloc fuel s size = Done r -> snd r = NULL -> fst r = s.
Proof.
  intros (bs & fl & Rp & C) S0 S1 E N.
  destruct (malloc_rep s bs fl fuel size r Rp C S0 S1 E)
    as [[_ Es] | (bs' & fl' & b & Rp' & _ & Hb & Eb & _)]; [exact Es|].
  destruct (heap_In _ _ _ (rep_heap _ _ _ Rp') Hb) as (_ & L & _).
  pose proof (hp_base _ _ (rep_heap _ _ _ Rp')). unfold NULL in N. lia.
Qed.

(** [calloc] hands whatever [malloc] returns to [memset]. *)
Lemma calloc_after_null s fuel nmemb size s1 :
  malloc fuel s (wrap64 (nmemb * size)) = Done (s1, NULL) ->
  0 < wrap64 (nmemb * size) ->
  calloc fuel s nmemb size = Trap.
Proof.
  intros E P. unfold calloc. rewrite E. unfold memset.
  destruct (Z.ltb_spec 0 (wrap64 (nmemb * size))); [reflexivity | lia].
Qed.

(** C5 (out of memory), evaluated on a heap that cannot grow: [malloc(600)]
    and [realloc(p, 600)] return null, [calloc(1, 600)] passes the null
    pointer to [memset] with a length of 600 and traps. *)
Theorem calloc_traps_when_out_of_memory :
  reachable (fst tight_p) /\ allocated_block (fst tight_p) 4112 /\
  snd (mem_sbrk (fst tight_p) (code_extendsize (adjusted_size 600))) = SBRK_FAILED /\
  malloc 10 (fst tight_p) 600 = Done (fst tight_p, NULL) /\
  realloc 10 (fst tight_p) 4112 600 = Done (fst tight_p, NULL) /\
  calloc 10 (fst tight_p) 1 600 = Trap.
Proof.
  assert (R : reachable (fst tight_p)).
  { unfold tight_p. apply (reach_malloc tight 10 24 _ reachable_tight);
      [run | run | apply done_result; run]. }
  assert (M : malloc 10 (fst tight_p) 600 = Done (fst tight_p, NULL)).
  { pose proof (done_result (roomy, 1) (malloc 10 (fst tight_p) 600) ltac:(run)) as E.
    assert (N : snd (result (roomy, 1) (malloc 10 (fst tight_p) 600)) = NULL) by run.
    pose proof (malloc_null_unchanged (fst tight_p) 10 600 _ (reachable_Inv _ R)
                  ltac:(run) ltac:(run) E N) as U.
    rewrite E.
    destruct (result (roomy, 1) (malloc 10 (fst tight_p) 600)) as [a b].
    cbn [fst snd] in N, U. rewrite N, U. reflexivity. }
  split; [exact R|]. split.
  { split; [run|]. exists 10%nat. eexists. exists (mkBlock 4112 32 true).
    split; [vm_compute; reflexivity|]. split; [cbn; auto 10|]. split; reflexivity. }
  split; [run|]. split; [exact M|]. split.
  - unfold realloc. change (600 =? 0) with false. change (4112 =? NULL) with false.
    cbv iota. rewrite M. reflexivity.
  - apply (calloc_after_null _ _ _ _ (fst tight_p)); [exact M | run].
Qed.

(** ** find_fit *)

(** C6 (first fit).  On every reachable heap the walk of the free list
    ends, and [find_fit], given the fuel of that walk, returns the first
    node of the list, in list order, whose block has at least [asize] bytes,
    and null when there is none. *)
Theorem find_fit_is_first_fit s :
  reachable s ->
  (exists fuel fl, free_list fuel s = Some fl) /\
  (forall fuel fl asize,
     free_list fuel s = Some fl ->
     find_fit fuel s asize
     = Done (ptr_of (first_fit (fun a => GET_SIZE s (HDRP a)) fl asize))).
Proof.
  intros R. apply reachable_Inv in R. destruct R as (bs & fl & Rp & C). split.
  - exists (S (length fl)), fl. apply (free_list_rep s bs); [assumption | lia].
  - intros fuel l asize E.
    pose proof (list_from_length _ _ _ _ E) as Lf.
    rewrite (free_list_unique s bs fl fuel l Rp E) in *.
    apply (find_fit_rep s bs); assumption.
Qed.

Lemma find_fit_is_first_fit_witness :
  free_list 10 holes = Some [4256; 4112] /\
  GET_SIZE holes (HDRP 4256) = 368 /\ GET_SIZE holes (HDRP 4112) = 32 /\
  find_fit 10 holes 24 = Done 4256 /\
  find_fit 10 holes 400 = Done NULL.
Proof.
  assert (E : free_list 10 holes = Some [4256; 4112]) by run.
  split; [exact E|]. split; [run|]. split; [run|]. split.
  - rewrite (proj2 (find_fit_is_first_fit holes reachable_holes) 10%nat _ 24 E). run.
  - rewrite (proj2 (find_fit_is_first_fit holes reachable_holes) 10%nat _ 400 E). run.
Defined.

(** ** place *)

(** C7 (placement).  [place] splits a free block of at least [asize] bytes
    exactly when 24 bytes or more are left over.  After a split the low
    [asize] bytes are an allocated block, the rest is a free block which
    stands where the original stood in the free list, with the links of the
    original.  Otherwise the whole block is allocated and leaves the list.
    In both cases header and footer of every block agree, the list head
    follows, and the prologue (the end marker) is left alone. *)
Theorem place_splits_or_takes_whole s X B R l1 l2 asize :
  Rep s (X ++ B :: R) (l1 ++ baddr B :: l2) -> coalesced (X ++ B :: R) ->
  balloc B = false -> 24 <= asize -> asize mod 8 = 0 -> asize <= bsize B ->
  heap_listp (place s (baddr B) asize) = heap_listp s /\
  (24 <= bsize B - asize ->
   Rep (place s (baddr B) asize)
       (X ++ mkBlock (baddr B) asize true
          :: mkBlock (baddr B + asize) (bsize B - asize) false :: R)
       (l1 ++ (baddr B + asize) :: l2) /\
   GET (place s (baddr B) asize) (HDRP (baddr B)) = PACK asize 1 /\
   GET (place s (baddr B) asize) (FTRP (place s (baddr B) asize) (baddr B)) = PACK asize 1 /\
   GET_PRED (place s (baddr B) asize) (baddr B + asize) = GET_PRED s (baddr B) /\
   GET_SUCC (place s (baddr B) asize) (baddr B + asize) = GET_SUCC s (baddr B) /\
   first_free (place s (baddr B) asize)
   = (if baddr B =? first_free s then baddr B + asize else first_free s)) /\
  (bsize B - asize < 24 ->
   Rep (place s (baddr B) asize)
       (X ++ mkBlock (baddr B) (bsize B) true :: R) (l1 ++ l2) /\
   GET (place s (baddr B) asize) (HDRP (baddr B)) = PACK (bsize B) 1 /\
   GET (place s (baddr B) asize) (FTRP (place s (baddr B) asize) (baddr B))
   = PACK (bsize B) 1 /\
   first_free (place s (baddr B) asize)
   = (if GET_PRED s (baddr B) =? heap_listp s then GET_SUCC s (baddr B)
      else first_free s)).
Proof.
  intros Rp C FB SA M8 LA.
  destruct (place_reads _ _ _ _ _ _ Rp) as (R1 & R2 & R3).
  pose proof (fl_head _ _ (rep_list _ _ _ Rp)) as Hd.
  pose proof (fl_nodup _ _ (rep_list _ _ _ Rp)) as Nd.
  assert (NB : baddr B <> heap_listp s).
  { destruct (heap_In _ _ B (rep_heap _ _ _ Rp) ltac:(in_list)) as ((_ & _ & _ & _ & _ & N) & _).
    auto. }
  assert (Hl : heap_listp (place s (baddr B) asize) = heap_listp s).
  { destruct (Z.le_gt_cases 24 (bsize B - asize)) as [S|S].
    - destruct (place_split_rep s X B R l1 l2 asize Rp C FB SA M8 S) as (_ & _ & G & _).
      exact G.
    - destruct (place_whole_rep s X B R l1 l2 asize Rp C FB ltac:(lia) S) as (_ & _ & G & _).
      exact G. }
  split; [exact Hl|]. split; intros S.
  - destruct (place_split_rep s X B R l1 l2 asize Rp C FB SA M8 S) as (Q & _ & _).
    split; [exact Q|].
    destruct (heap_In _ _ (mkBlock (baddr B) asize true) (rep_heap _ _ _ Q) ltac:(in_list))
      as (OA & _).
    pose proof (blk_FTRP _ _ OA) as EF. destruct OA as (Oh & Of & _).
    unfold tag in Oh, Of. cbn [baddr bsize balloc] in EF, Oh, Of.
    rewrite EF, (PACK_1 asize M8). unfold HDRP, WSIZE.
    split; [exact Oh|]. split; [exact Of|].
    destruct (chain_lookup _ _ _ _ _ _ (fl_chain _ _ (rep_list _ _ _ Q))) as (P1 & P2).
    rewrite Hl in P1, P2. split; [congruence|]. split; [congruence|].
    rewrite (fl_head _ _ (rep_list _ _ _ Q)), Hl, Hd.
    destruct l1 as [|a l1]; cbn [app hd].
    + rewrite Z.eqb_refl. reflexivity.
    + destruct (Z.eqb_spec (baddr B) a) as [E|_]; [|reflexivity].
      cbn [app] in Nd. apply NoDup_cons_iff in Nd as [Ni _]. destruct Ni. rewrite <- E. in_list.
  - destruct (place_whole_rep s X B R l1 l2 asize Rp C FB ltac:(lia) S) as (Q & _ & _).
    split; [exact Q|].
    destruct (heap_In _ _ (mkBlock (baddr B) (bsize B) true) (rep_heap _ _ _ Q)
                ltac:(in_list)) as (OA & _).
    pose proof (blk_FTRP _ _ OA) as EF. destruct OA as (Oh & Of & _ & MB & _).
    unfold tag in Oh, Of. cbn [baddr bsize balloc] in EF, Oh, Of, MB.
    rewrite EF, (PACK_1 (bsize B) MB). unfold HDRP, WSIZE.
    split; [exact Oh|]. split; [exact Of|].
    rewrite (fl_head _ _ (rep_list _ _ _ Q)), Hl, Hd, R2, R3.
    destruct l1 as [|a l1]; cbn [app hd].
    + cbn [last]. rewrite Z.eqb_refl. reflexivity.
    + destruct (Z.eqb_spec (last (a :: l1) (heap_listp s)) (heap_listp s)) as [E|_];
        [|reflexivity].
      assert (I : In (heap_listp s) (a :: l1)) by (rewrite <- E; apply last_In; discriminate).
      destruct (rep_free_block s _ _ (heap_listp s) Rp ltac:(in_list)) as (_ & _ & _ & _ & N & _).
      destruct N. reflexivity.
Qed.

Lemma place_splits_or_takes_whole_witness :
  Rep (place roomy 4112 24)
      [mkBlock 4104 8 true; mkBlock 4112 24 true; mkBlock 4136 488 false] [4136] /\
  Rep (place roomy 4112 504) [mkBlock 4104 8 true; mkBlock 4112 512 true] [].
Proof.
  destruct (Rep_of_walks roomy 10 [mkBlock 4104 8 true; mkBlock 4112 512 false] [4112]
              (reachable_Inv _ reachable_roomy) ltac:(run) ltac:(run)) as [Rp C].
  split.
  - destruct (place_splits_or_takes_whole roomy [mkBlock 4104 8 true]
                (mkBlock 4112 512 false) [] [] [] 24 Rp C
                eq_refl ltac:(lia) eq_refl ltac:(simpl; lia)) as (_ & S & _).
    exact (proj1 (S ltac:(simpl; lia))).
  - destruct (place_splits_or_takes_whole roomy [mkBlock 4104 8 true]
                (mkBlock 4112 512 false) [] [] [] 504 Rp C
                eq_refl ltac:(lia) eq_refl ltac:(simpl; lia)) as (_ & _ & W).
    exact (proj1 (W ltac:(simpl; lia))).
Defined.

(** ** malloc: the adjusted size *)



(** ** realloc: failure *)

Lemma allocated_nonnull s ptr : Inv s -> allocated_block s ptr -> ptr <> NULL.
Proof.
  intros (bs & fl & Rp & _) A.
  destruct (allocated_block_rep _ _ _ _ Rp A) as (X & B & R & -> & <- & _).
  destruct (heap_In _ _ B (rep_heap _ _ _ Rp) ltac:(in_list)) as (_ & L & _).
  pose proof (hp_base _ _ (rep_heap _ _ _ Rp)). unfold NULL. lia.
Qed.

(** C9 (failed reallocation).  When the allocation inside [realloc] of a
    live block to a size > 0 fails, [realloc] returns null and the state,
    hence the old block, its payload and the free list, is exactly as
    before the call. *)
Theorem realloc_failure_leaves_heap s fuel ptr size m :
  reachable s -> allocated_block s ptr -> 0 < size -> size + 15 < 2 ^ 64 ->
  malloc fuel s size = Done m -> snd m = NULL ->
  realloc fuel s ptr size = Done (s, NULL).
Proof.
  intros R A S0 S1 E N. apply reachable_Inv in R.
  pose proof (allocated_nonnull s ptr R A) as Pn.
  pose proof (malloc_null_unchanged s fuel size m R ltac:(lia) S1 E N) as U.
  unfold realloc.
  destruct (Z.eqb_spec size 0) as [?|_]; [lia|].
  destruct (Z.eqb_spec ptr NULL) as [?|_]; [contradiction|].
  rewrite E. destruct m as [s1 newptr]. cbn [fst snd] in N, U. subst.
  reflexivity.
Qed.

Lemma realloc_failure_leaves_heap_witness :
  realloc 10 (fst tight_p) 4112 1000 = Done (fst tight_p, NULL).
Proof.
  apply (realloc_failure_leaves_heap (fst tight_p) 10 4112 1000
           (result (roomy, 1) (malloc 10 (fst tight_p) 1000))).
  - unfold tight_p. apply (reach_malloc tight 10 24 _ reachable_tight);
      [run | run | apply done_result; run].
  - split; [run|]. exists 10%nat. eexists. exists (mkBlock 4112 32 true).
    split; [vm_compute; reflexivity|]. split; [cbn; auto 10|]. split; reflexivity.
  - run.
  - run.
  - apply done_result. run.
  - run.
Defined.

(** ** Lazy initialisation *)



(** ** Further properties *)

Lemma malloc_returns_Inv s bs fl size fuel :
  Rep s bs fl -> (length fl < fuel)%nat -> exists r, malloc fuel s size = Done r.
Proof.
  intros Rp Hf. pose proof (hp_base _ _ (rep_heap _ _ _ Rp)) as B0.
  unfold malloc. destruct (Z.eqb_spec (heap_listp s) 0) as [?|_]; [lia|].
  unfold malloc_body. destruct (size =? 0); [eexists; reflexivity|].
  rewrite (find_fit_rep s bs fl (adjusted_size size) fuel Rp Hf).
  destruct (negb _); [eexists; reflexivity|].
  destruct (extend_heap s _) as [s1 bp].
  destruct (bp =? NULL); eexists; reflexivity.
Qed.

(** The calls return.  On a reachable heap [malloc] returns as soon as the
    fuel exceeds the length of the free list. *)
Theorem malloc_returns s size :
  reachable s ->
  exists fuel, forall fuel', (fuel <= fuel')%nat ->
    exists r, malloc fuel' s size = Done r.
Proof.
  intros R. apply reachable_Inv in R. destruct R as (bs & fl & Rp & C).
  exists (S (length fl)). intros fuel' Hf.
  apply (malloc_returns_Inv s bs fl); [assumption | lia].
Qed.

Lemma malloc_returns_witness :
  exists fuel, forall fuel', (fuel <= fuel')%nat ->
    exists r, malloc fuel' holes 24 = Done r.
Proof. exact (malloc_returns holes 24 reachable_holes). Defined.

(** [realloc] of a live block returns as well: both pointers that reach
    [memcpy] are non-null. *)
Theorem realloc_returns s ptr size :
  reachable s -> ptr = NULL \/ allocated_block s ptr ->
  0 <= size -> size + 15 < 2 ^ 64 ->
  exists fuel, forall fuel', (fuel <= fuel')%nat ->
    exists r, realloc fuel' s ptr size = Done r.
Proof.
  intros R A S0 S1. apply reachable_Inv in R. destruct R as (bs & fl & Rp & C).
  exists (S (length fl)). intros fuel' Hf.
  destruct (malloc_returns_Inv s bs fl size fuel' Rp ltac:(lia)) as (m & Em).
  unfold realloc. destruct (size =? 0); [eexists; reflexivity|].
  destruct (Z.eqb_spec ptr NULL) as [?|Pn]; [exists m; exact Em|].
  rewrite Em. destruct m as [s1 newptr].
  destruct (Z.eqb_spec newptr NULL) as [?|Nn]; [eexists; reflexivity|].
  unfold memcpy.
  destruct (Z.eqb_spec newptr NULL) as [?|_]; [contradiction|].
  destruct (Z.eqb_spec ptr NULL) as [?|_]; [contradiction|].
  rewrite andb_false_r. eexists. reflexivity.
Qed.

Lemma realloc_returns_witness :
  exists fuel, forall fuel', (fuel <= fuel')%nat ->
    exists r, realloc fuel' holes 4144 200 = Done r.
Proof.
  apply (realloc_returns holes 4144 200 reachable_holes).
  - right. exact allocated_q_in_holes.
  - run.
  - run.
Defined.

(** [malloc] leaves the live blocks where they are and hands out none of
    them a second time. *)
Theorem malloc_keeps_allocated s fuel size r ptr :
  reachable s -> 0 <= size -> size + 15 < 2 ^ 64 ->
  malloc fuel s size = Done r ->
  allocated_block s ptr -> allocated_block (fst r) ptr /\ ptr <> snd r.
Proof.
  intros R S0 S1 E A. apply reachable_Inv in R.
  pose proof (allocated_nonnull s ptr R A) as Pn.
  destruct R as (bs & fl & Rp & C).
  destruct (allocated_block_rep _ _ _ _ Rp A) as (X & B & Rr & Ebs & EB & AB & NB).
  destruct (malloc_rep s bs fl fuel size r Rp C S0 S1 E)
    as [[En Es] | (bs' & fl' & b & Rp' & C' & Hb & Eb & Ab & Lb & Pres & Ehl & _ & Fresh)].
  - rewrite Es, En. split; [exact A | exact Pn].
  - assert (IB : In B bs) by (subst bs; in_list).
    split.
    + split; [congruence|]. exists (S (length bs')), bs', B.
      split; [apply heap_blocks_rep; [exact (rep_heap _ _ _ Rp') | lia]|].
      split; [apply Pres; assumption | auto].
    + rewrite <- EB. apply Fresh; assumption.
Qed.

Lemma malloc_keeps_allocated_witness :
  allocated_block (fst (result (roomy, NULL) (malloc 10 holes 24))) 4144 /\
  4144 <> snd (result (roomy, NULL) (malloc 10 holes 24)).
Proof.
  apply (malloc_keeps_allocated holes 10 24 _ 4144 reachable_holes);
    [run | run | apply done_result; run | exact allocated_q_in_holes].
Defined.



(** A request of 2^64 - 1 bytes wraps around in the size adjustment:
    [malloc] hands out a block of 8 bytes, all of them boundary tags, and
    [free] of that block writes its links over its own footer and the next
    header, after which the walk over the heap stops at the freed block
    and its predecessor link points to itself. *)
Theorem huge_request_wraps :
  adjusted_size (2 ^ 64 - 1) = 8 /\
  malloc 10 roomy (2 ^ 64 - 1) = Done huge /\
  snd huge = 4112 /\
  heap_blocks 10 (fst huge)
  = Some [mkBlock 4104 8 true; mkBlock 4112 8 true; mkBlock 4120 504 false] /\
  heap_blocks 10 (free (fst huge) 4112)
  = Some [mkBlock 4104 8 true; mkBlock 4112 8 false] /\
  GET_PRED (free (fst huge) 4112) 4112 = 4112.
Proof.
  split; [run|]. split; [unfold huge; apply done_result; run|].
  repeat split; run.
Qed.

(** The list is LIFO: after [free(ptr)] the head of the free list is the
    free block that now covers the block of [ptr] (the block itself, or the
    block it was merged into). *)
Theorem free_pushes_front s ptr :
  reachable s -> allocated_block s ptr ->
  exists fuel bs b,
    heap_blocks fuel (free s ptr) = Some bs /\ In b bs /\ balloc b = false /\
    baddr b <= ptr /\ ptr + GET_SIZE s (HDRP ptr) <= baddr b + bsize b /\
    first_free (free s ptr) = baddr b.
Proof.
  intros R A. apply reachable_Inv in R. destruct R as (bs & fl & Rp & C).
  destruct (allocated_block_rep _ _ _ _ Rp A) as (X & B & Rr & -> & <- & AB & NB).
  destruct (heap_In _ _ B (rep_heap _ _ _ Rp) ltac:(in_list)) as (OB & _).
  rewrite (blk_size_hdr s B) by auto.
  destruct (free_rep s X B Rr fl Rp C AB NB)
    as (bs' & fl' & Rp' & _ & _ & (b & Hb & Fb & L1 & L2 & Hd) & _).
  exists (S (length bs')), bs', b.
  split; [apply heap_blocks_rep; [exact (rep_heap _ _ _ Rp') | lia]|].
  auto.
Qed.

Lemma free_pushes_front_witness :
  exists fuel bs b,
    heap_blocks fuel (free holes 4144) = Some bs /\ In b bs /\ balloc b = false /\
    baddr b <= 4144 /\ 4144 + GET_SIZE holes (HDRP 4144) <= baddr b + bsize b /\
    first_free (free holes 4144) = baddr b.
Proof. exact (free_pushes_front holes 4144 reachable_holes allocated_q_in_holes). Defined.


